(** * TETRIS: a shallow embedding of the game core and its specification

    The repository holds two React components that implement the same game.
    The full variant (wall kick, ghost piece, hard drop, level-scaled
    scoring) is embedded at top level; the simplified variant
    ([src/script.js]) is embedded in [Module Simple].

    Runtime data is modelled as the JavaScript engine sees it: array cells
    are JavaScript values, an out-of-range array read yields [undefined],
    a property read on [undefined] throws [TypeError], and a [while] loop
    that never leaves is reported as [Diverge] by its fuel-indexed model. *)

From Stdlib Require Import ZArith Lia.
From stdpp Require Import base tactics option list strings.

Open Scope string_scope.
Open Scope list_scope.
Open Scope Z_scope.

(** ** JavaScript values and outcomes *)

Inductive value : Type :=
  | undefined
  | null
  | num (n : Z)
  | str (s : string).

#[global] Instance value_eq_dec : EqDecision value.
Proof. solve_decision. Defined.

(** [a !== b] on the primitive values above. *)
Definition strict_ne (a b : value) : bool := bool_decide (a ≠ b).

(** [!v]: the falsy values are [undefined], [null], [0] and the empty string. *)
Definition falsy (v : value) : bool :=
  match v with
  | undefined | null => true
  | num n => n =? 0
  | str s => bool_decide (s = EmptyString)
  end.

(** [row[i]] for a natural index. *)
Definition index (row : list value) (i : nat) : value :=
  default undefined (row !! i).

(** A JavaScript number as far as the score needs it: an integer-valued
    double or [NaN].  The sum and the product below are those of the doubles
    as long as the results stay below [2^53] in magnitude. *)
Inductive number : Type :=
  | Int (z : Z)
  | NaN.

Definition num_add (a b : number) : number :=
  match a, b with
  | Int p, Int q => Int (p + q)
  | _, _ => NaN
  end.

Definition num_mul (a b : number) : number :=
  match a, b with
  | Int p, Int q => Int (p * q)
  | _, _ => NaN
  end.

(** The outcome of running a piece of code: a value, an uncaught
    [TypeError], or a loop that has not left after the fuel it was given. *)
Inductive outcome (A : Type) : Type :=
  | Ret (a : A)
  | TypeError
  | Diverge.
Arguments Ret {A} a.
Arguments TypeError {A}.
Arguments Diverge {A}.

#[global] Instance outcome_bind : MBind outcome := fun A B f m =>
  match m with
  | Ret a => f a
  | TypeError => TypeError
  | Diverge => Diverge
  end.
#[global] Instance outcome_ret : MRet outcome := fun A a => Ret a.
#[global] Instance outcome_fmap : FMap outcome := fun A B f m =>
  match m with
  | Ret a => Ret (f a)
  | TypeError => TypeError
  | Diverge => Diverge
  end.

(** ** Constants and types *)

Definition BOARD_WIDTH : Z := 10.
Definition BOARD_HEIGHT : Z := 20.

Abbreviation TetrominoShape := (list (list value)).

(** The keys of the catalogue, kept under their source names. *)
Module TetrominoType.
Inductive t : Set := I | J | L | O | S | T | Z.
End TetrominoType.
Abbreviation TetrominoType := TetrominoType.t.

(** An entry drawn from the catalogue: [{ type, shape, color }]. *)
Module Tetromino.
Record t : Type := mk {
  type : TetrominoType;
  shape : TetrominoShape;
  color : string
}.
End Tetromino.
Abbreviation Tetromino := Tetromino.t.

Definition cells (m : list (list Z)) : TetrominoShape := map (map num) m.

Definition TETROMINOES (k : TetrominoType) : TetrominoShape * string :=
  match k with
  | TetrominoType.I => (cells [[0; 0; 0; 0]; [1; 1; 1; 1]; [0; 0; 0; 0]; [0; 0; 0; 0]], "bg-cyan-400")
  | TetrominoType.J => (cells [[1; 0; 0]; [1; 1; 1]; [0; 0; 0]], "bg-blue-500")
  | TetrominoType.L => (cells [[0; 0; 1]; [1; 1; 1]; [0; 0; 0]], "bg-orange-500")
  | TetrominoType.O => (cells [[1; 1]; [1; 1]], "bg-yellow-400")
  | TetrominoType.S => (cells [[0; 1; 1]; [1; 1; 0]; [0; 0; 0]], "bg-green-500")
  | TetrominoType.T => (cells [[0; 1; 0]; [1; 1; 1]; [0; 0; 0]], "bg-purple-500")
  | TetrominoType.Z => (cells [[1; 1; 0]; [0; 1; 1]; [0; 0; 0]], "bg-red-500")
  end.

Definition TETROMINO_KEYS : list TetrominoType := [TetrominoType.I; TetrominoType.J; TetrominoType.L; TetrominoType.O;
   TetrominoType.S; TetrominoType.T; TetrominoType.Z].

(** [BoardCell = string | null]; a hole left by a write past the end of a
    row reads as [undefined]. *)
Abbreviation Board := (list (list value)).

Definition emptyRow : list value := replicate (Z.to_nat BOARD_WIDTH) null.

Definition createEmptyBoard : Board := replicate (Z.to_nat BOARD_HEIGHT) emptyRow.

(** [randomTetromino], with the key drawn by [Math.random] given. *)
Definition randomTetromino (key : TetrominoType) : Tetromino :=
  Tetromino.mk key (TETROMINOES key).1 (TETROMINOES key).2.

Module Pos.
Record t : Type := mk { x : Z; y : Z }.
End Pos.
Abbreviation Pos := Pos.t.

(** ** Collision *)

(** The inner [for] loop of [checkCollision] from column [x0] on:
    [Ret true] when the function has returned [true], [Ret false] when the
    row is exhausted. *)
Fixpoint checkCollisionRow (piecePos : Pos) (boardState : Board)
    (y0 : nat) (row : list value) (x0 : nat) : outcome bool :=
  match row with
  | [] => Ret false
  | cell :: rest =>
      if strict_ne cell (num 0) then
        let newX := Pos.x piecePos + Z.of_nat x0 in
        let newY := Pos.y piecePos + Z.of_nat y0 in
        if (newX <? 0) || (newX >=? BOARD_WIDTH) || (newY >=? BOARD_HEIGHT)
        then Ret true
        else if newY >=? 0 then
          match boardState !! Z.to_nat newY with
          | None => TypeError
          | Some brow =>
              if strict_ne (index brow (Z.to_nat newX)) null then Ret true
              else checkCollisionRow piecePos boardState y0 rest (S x0)
          end
        else checkCollisionRow piecePos boardState y0 rest (S x0)
      else checkCollisionRow piecePos boardState y0 rest (S x0)
  end.

(** The outer [for] loop from row [y0] on. *)
Fixpoint checkCollisionRows (piecePos : Pos) (boardState : Board)
    (rows : TetrominoShape) (y0 : nat) : outcome bool :=
  match rows with
  | [] => Ret false
  | row :: rest =>
      hit ← checkCollisionRow piecePos boardState y0 row 0;
      if hit : bool then Ret true
      else checkCollisionRows piecePos boardState rest (S y0)
  end.

Definition checkCollision (piecePos : Pos) (pieceShape : TetrominoShape)
    (boardState : Board) : outcome bool :=
  checkCollisionRows piecePos boardState pieceShape 0.


(** ** Rotation *)

(** [matrix[0].map((val, index) => matrix.map(row => row[index]).reverse())].
    An empty matrix has no row 0 and the call throws. *)
Definition rotateMatrix (matrix : TetrominoShape) : outcome TetrominoShape :=
  match matrix !! 0%nat with
  | None => TypeError
  | Some row0 =>
      Ret (imap (fun i _ => reverse (map (fun row => index row i) matrix)) row0)
  end.

(** The reading of the specification: transpose, then reverse each row. *)
Fixpoint transpose (width : nat) (matrix : list (list value)) : list (list value) :=
  match matrix with
  | [] => replicate width []
  | row :: rest => zip_with cons row (transpose width rest)
  end.

Definition spec_rotate (matrix : TetrominoShape) : TetrominoShape :=
  match matrix with
  | [] => []
  | row0 :: _ => map reverse (transpose (length row0) matrix)
  end.

(** ** Writing cells *)

(** [row[i] = v]: a write past the end extends the array, the cells in
    between read as [undefined]. *)
Definition writeAt (row : list value) (i : nat) (v : value) : list value :=
  if (i <? length row)%nat then <[i := v]> row
  else row ++ replicate (i - length row) undefined ++ [v].

(** [b[r][c] = f (b[r][c])]; [b[r]] must exist. *)
Definition updateCell (f : value → value) (b : Board) (r c : nat) : outcome Board :=
  match b !! r with
  | None => TypeError
  | Some row => Ret (<[r := writeAt row c (f (index row c))]> b)
  end.

(** The nested [forEach] that the source repeats in [lockPiece], [hardDrop]
    and [getDisplayBoard]: [write] is run, in row-major order, at every
    occupied cell of the shape whose absolute coordinate lies on the board.
    The state [B] threaded through is the board being painted. *)
Section ForEachCell.
Context {B : Type} (write : B → nat → nat → outcome B) (px py : Z).

Fixpoint forEachCellRow (y0 : nat) (row : list value) (x0 : nat) (b : B)
    : outcome B :=
  match row with
  | [] => Ret b
  | cell :: rest =>
      if strict_ne cell (num 0) then
        let boardY := py + Z.of_nat y0 in
        let boardX := px + Z.of_nat x0 in
        if (boardY >=? 0) && (boardY <? BOARD_HEIGHT)
           && (boardX >=? 0) && (boardX <? BOARD_WIDTH) then
          b' ← write b (Z.to_nat boardY) (Z.to_nat boardX);
          forEachCellRow y0 rest (S x0) b'
        else forEachCellRow y0 rest (S x0) b
      else forEachCellRow y0 rest (S x0) b
  end.

Fixpoint forEachCellRows (rows : TetrominoShape) (y0 : nat) (b : B)
    : outcome B :=
  match rows with
  | [] => Ret b
  | row :: rest =>
      b' ← forEachCellRow y0 row 0 b;
      forEachCellRows rest (S y0) b'
  end.
End ForEachCell.

(** Every cell under the shape is replaced by [f] of its old content. *)
Definition paintShape (f : value → value) (pieceShape : TetrominoShape)
    (px py : Z) (b : Board) : outcome Board :=
  forEachCellRows (updateCell f) px py pieceShape 0 b.

(** Step 1 of the lock: the piece's colour is written over the copy of the
    board ([board.map(row => [...row])] is the identity on values). *)
Definition mergePiece (b : Board) (pieceShape : TetrominoShape) (pieceColor : string)
    (px py : Z) : outcome Board :=
  paintShape (fun _ => str pieceColor) pieceShape px py b.

(** ** Arrays as objects

    The same lock on boards that live in a store: a row array is a
    location of the store, a board is the array of the locations of its
    rows.  This is the level at which a copy differs from its original. *)

Abbreviation loc := nat.
Abbreviation store := (list (list value)).

(** The board a board reference stands for. *)
Definition deref (h : store) (b : list loc) : option Board :=
  mapM (λ l, h !! l) b.

(** [board.map(row => [...row])]: every row is copied to a fresh location. *)
Fixpoint copyRows (h : store) (b : list loc) : outcome (store * list loc) :=
  match b with
  | [] => Ret (h, [])
  | l :: rest =>
      match h !! l with
      | None => TypeError
      | Some row =>
          copied ← copyRows (h ++ [row]) rest;
          Ret (copied.1, length h :: copied.2)
      end
  end.

(** [b[r][c] = f (b[r][c])] through the reference [b]. *)
Definition updateCellH (f : value → value) (b : list loc) (h : store) (r c : nat)
    : outcome store :=
  match b !! r with
  | None => TypeError
  | Some l =>
      match h !! l with
      | None => TypeError
      | Some row => Ret (<[l := writeAt row c (f (index row c))]> h)
      end
  end.


(** ** Clearing rows *)

(** [row.every(cell => cell !== null)] *)
Definition isFull (row : list value) : bool :=
  forallb (fun cell => strict_ne cell null) row.

(** [nextBoardState.filter(...)] with its counter [linesCleared]. *)
Fixpoint filterFull (rows : Board) (linesCleared : nat) : Board * nat :=
  match rows with
  | [] => ([], linesCleared)
  | row :: rest =>
      if isFull row then filterFull rest (S linesCleared)
      else let '(kept, n) := filterFull rest linesCleared in (row :: kept, n)
  end.

(** [while (finalBoard.length < BOARD_HEIGHT) finalBoard.unshift(...)] *)
Fixpoint unshiftEmptyRows (fuel : nat) (finalBoard : Board) : outcome Board :=
  if Z.of_nat (length finalBoard) <? BOARD_HEIGHT then
    match fuel with
    | 0%nat => Diverge
    | S fuel' => unshiftEmptyRows fuel' (emptyRow :: finalBoard)
    end
  else Ret finalBoard.

(** Steps 2 and 3 of [processBoardUpdate]: the board without its full rows,
    topped up with empty rows, and the number of rows removed. *)
Definition clearRows (nextBoardState : Board) : outcome (Board * nat) :=
  let '(kept, linesCleared) := filterFull nextBoardState 0 in
  finalBoard ← unshiftEmptyRows (Z.to_nat BOARD_HEIGHT) kept;
  Ret (finalBoard, linesCleared).

(** ** The session *)

Module Piece.
Record t : Type := mk {
  type : TetrominoType;
  shape : TetrominoShape;
  color : string;
  pos : Pos
}.
End Piece.

(** The component's state: one field per [useState]. *)
Record Session : Type := mkSession {
  board : Board;
  currentPiece : Piece.t;
  nextPiece : Tetromino;
  score : number;
  lines : Z;
  level : Z;
  gameOver : bool;
  isPaused : bool;
  gameStarted : bool
}.

(** The state setters, applied to the pending state. *)
Definition setBoard (v : Board) (st : Session) : Session :=
  mkSession v (currentPiece st) (nextPiece st) (score st) (lines st) (level st)
    (gameOver st) (isPaused st) (gameStarted st).
Definition setCurrentPiece (f : Piece.t → Piece.t) (st : Session) : Session :=
  mkSession (board st) (f (currentPiece st)) (nextPiece st) (score st) (lines st)
    (level st) (gameOver st) (isPaused st) (gameStarted st).
Definition setNextPiece (v : Tetromino) (st : Session) : Session :=
  mkSession (board st) (currentPiece st) v (score st) (lines st) (level st)
    (gameOver st) (isPaused st) (gameStarted st).
Definition setScore (f : number → number) (st : Session) : Session :=
  mkSession (board st) (currentPiece st) (nextPiece st) (f (score st)) (lines st)
    (level st) (gameOver st) (isPaused st) (gameStarted st).
Definition setLines (f : Z → Z) (st : Session) : Session :=
  mkSession (board st) (currentPiece st) (nextPiece st) (score st) (f (lines st))
    (level st) (gameOver st) (isPaused st) (gameStarted st).
Definition setLevel (f : Z → Z) (st : Session) : Session :=
  mkSession (board st) (currentPiece st) (nextPiece st) (score st) (lines st)
    (f (level st)) (gameOver st) (isPaused st) (gameStarted st).
Definition setGameOver (v : bool) (st : Session) : Session :=
  mkSession (board st) (currentPiece st) (nextPiece st) (score st) (lines st)
    (level st) v (isPaused st) (gameStarted st).
Definition setIsPaused (f : bool → bool) (st : Session) : Session :=
  mkSession (board st) (currentPiece st) (nextPiece st) (score st) (lines st)
    (level st) (gameOver st) (f (isPaused st)) (gameStarted st).
Definition setGameStarted (v : bool) (st : Session) : Session :=
  mkSession (board st) (currentPiece st) (nextPiece st) (score st) (lines st)
    (level st) (gameOver st) (isPaused st) v.

Definition withPos (p : Piece.t) (newPos : Pos) : Piece.t :=
  Piece.mk (Piece.type p) (Piece.shape p) (Piece.color p) newPos.
Definition withShape (p : Piece.t) (newShape : TetrominoShape) : Piece.t :=
  Piece.mk (Piece.type p) newShape (Piece.color p) (Piece.pos p).
Definition spawnAt (t : Tetromino) (p : Pos) : Piece.t :=
  Piece.mk (Tetromino.type t) (Tetromino.shape t) (Tetromino.color t) p.

(** The state of the first render; the two pieces are the draws of the two
    [useState] initialisers. *)
Definition initialSession (cur next : TetrominoType) : Session :=
  mkSession createEmptyBoard
    (spawnAt (randomTetromino cur) (Pos.mk (BOARD_WIDTH / 2 - 1) 0))
    (randomTetromino next) (Int 0) 0 1 false false false.

(** ** Handlers

    A handler reads the state captured by the closures of the last render
    ([cl]) and queues updates; the updates are applied in order to the
    pending state ([st]).  Right after a render the two are the same
    state; they differ when an event is handled before the next render. *)

(** The guard [gameOver || isPaused || !gameStarted]. *)
Definition blocked (cl : Session) : bool :=
  gameOver cl || isPaused cl || negb (gameStarted cl).

Definition scoreMultipliers : list Z := [0; 100; 300; 500; 800].

(** [scoreMultipliers[linesCleared]]; an index past the table gives
    [undefined], which the product turns into [NaN]. *)
Definition multiplier (linesCleared : nat) : number :=
  match scoreMultipliers !! linesCleared with
  | Some m => Int m
  | None => NaN
  end.

(** Step 4 of [processBoardUpdate]. *)
Definition updateStats (cl : Session) (linesCleared : nat) (st : Session) : Session :=
  if (0 <? linesCleared)%nat then
    setLevel (fun _ => (lines cl + Z.of_nat linesCleared) / 10 + 1)
      (setScore (fun prev =>
                   num_add prev (num_mul (multiplier linesCleared) (Int (level cl))))
         (setLines (fun prev => prev + Z.of_nat linesCleared) st))
  else st.

(** The position at which [processBoardUpdate] places the queued piece. *)
Definition spawnPos (row0 : list value) : Pos :=
  Pos.mk (BOARD_WIDTH / 2 - Z.of_nat (length row0) / 2) 0.

(** Step 5 of [processBoardUpdate]. *)
Definition spawnNext (cl : Session) (finalBoard : Board) (draw : TetrominoType)
    (st : Session) : outcome Session :=
  match Tetromino.shape (nextPiece cl) !! 0%nat with
  | None => TypeError
  | Some row0 =>
      let newPiece := spawnAt (nextPiece cl) (spawnPos row0) in
      hit ← checkCollision (Piece.pos newPiece) (Piece.shape newPiece) finalBoard;
      if hit : bool then Ret (setGameStarted false (setGameOver true st))
      else Ret (setNextPiece (randomTetromino draw)
                  (setCurrentPiece (fun _ => newPiece) st))
  end.

Definition processBoardUpdate (cl : Session) (nextBoardState : Board)
    (draw : TetrominoType) (st : Session) : outcome Session :=
  cleared ← clearRows nextBoardState;
  let st1 := updateStats cl cleared.2 st in
  let st2 := setBoard cleared.1 st1 in
  spawnNext cl cleared.1 draw st2.

Definition lockPiece (cl : Session) (draw : TetrominoType) (st : Session)
    : outcome Session :=
  let p := currentPiece cl in
  newBoard ← mergePiece (board cl) (Piece.shape p) (Piece.color p)
               (Pos.x (Piece.pos p)) (Pos.y (Piece.pos p));
  processBoardUpdate cl newBoard draw st.

(** [move(dirX, dirY)], with the boolean it returns. *)
Definition move (cl : Session) (dirX dirY : Z) (st : Session)
    : outcome (Session * bool) :=
  if blocked cl then Ret (st, false)
  else
    let p := currentPiece cl in
    let newPos := Pos.mk (Pos.x (Piece.pos p) + dirX) (Pos.y (Piece.pos p) + dirY) in
    hit ← checkCollision newPos (Piece.shape p) (board cl);
    if hit : bool then Ret (st, false)
    else Ret (setCurrentPiece (fun prev => withPos prev newPos) st, true).

Definition rotate (cl : Session) (st : Session) : outcome Session :=
  if blocked cl then Ret st
  else
    let p := currentPiece cl in
    rotatedShape ← rotateMatrix (Piece.shape p);
    hit ← checkCollision (Piece.pos p) rotatedShape (board cl);
    if negb hit then
      Ret (setCurrentPiece (fun prev => withShape prev rotatedShape) st)
    else
      hitL ← checkCollision (Pos.mk (Pos.x (Piece.pos p) - 1) (Pos.y (Piece.pos p)))
               rotatedShape (board cl);
      if negb hitL then
        Ret (setCurrentPiece (fun prev =>
               withShape (withPos prev (Pos.mk (Pos.x (Piece.pos prev) - 1)
                                               (Pos.y (Piece.pos prev))))
                         rotatedShape) st)
      else
        hitR ← checkCollision (Pos.mk (Pos.x (Piece.pos p) + 1) (Pos.y (Piece.pos p)))
                 rotatedShape (board cl);
        if negb hitR then
          Ret (setCurrentPiece (fun prev =>
                 withShape (withPos prev (Pos.mk (Pos.x (Piece.pos prev) + 1)
                                                 (Pos.y (Piece.pos prev))))
                           rotatedShape) st)
        else Ret st.

Definition drop (cl : Session) (draw : TetrominoType) (st : Session)
    : outcome Session :=
  if blocked cl then Ret st
  else
    let p := currentPiece cl in
    let newPos := Pos.mk (Pos.x (Piece.pos p)) (Pos.y (Piece.pos p) + 1) in
    hit ← checkCollision newPos (Piece.shape p) (board cl);
    if negb hit then Ret (setCurrentPiece (fun prev => withPos prev newPos) st)
    else lockPiece cl draw st.

(** [while (!checkCollision({x, y: currentY + 1}, shape, board)) currentY += 1],
    the loop of [hardDrop] (twice) and of the ghost in [getDisplayBoard]. *)
Fixpoint fallWhileFree (fuel : nat) (boardState : Board) (pieceShape : TetrominoShape)
    (px currentY : Z) : outcome Z :=
  match fuel with
  | 0%nat => Diverge
  | S fuel' =>
      hit ← checkCollision (Pos.mk px (currentY + 1)) pieceShape boardState;
      if hit : bool then Ret currentY
      else fallWhileFree fuel' boardState pieceShape px (currentY + 1)
  end.

(** Fuel that suffices whenever the loop leaves at all: a shape with an
    occupied cell meets the floor after at most [BOARD_HEIGHT - y] rows. *)
Definition fallFuel (currentY : Z) : nat := S (Z.to_nat (BOARD_HEIGHT - currentY)).

Definition landingRow (boardState : Board) (pieceShape : TetrominoShape)
    (px currentY : Z) : outcome Z :=
  fallWhileFree (fallFuel currentY) boardState pieceShape px currentY.

Definition hardDrop (cl : Session) (draw : TetrominoType) (st : Session)
    : outcome Session :=
  if blocked cl then Ret st
  else
    let p := currentPiece cl in
    currentY ← landingRow (board cl) (Piece.shape p)
                 (Pos.x (Piece.pos p)) (Pos.y (Piece.pos p));
    let st1 := setCurrentPiece (fun prev =>
                 withPos prev (Pos.mk (Pos.x (Piece.pos prev)) currentY)) st in
    finalY ← landingRow (board cl) (Piece.shape p)
               (Pos.x (Piece.pos p)) (Pos.y (Piece.pos p));
    lockedBoard ← mergePiece (board cl) (Piece.shape p) (Piece.color p)
                    (Pos.x (Piece.pos p)) finalY;
    processBoardUpdate cl lockedBoard draw st1.

Definition startGame (cur next : TetrominoType) (st : Session) : Session :=
  setGameStarted true
    (setIsPaused (fun _ => false)
       (setGameOver false
          (setLevel (fun _ => 1)
             (setLines (fun _ => 0)
                (setScore (fun _ => Int 0)
                   (setNextPiece (randomTetromino next)
                      (setCurrentPiece
                         (fun _ => spawnAt (randomTetromino cur)
                                     (Pos.mk (BOARD_WIDTH / 2 - 1) 0))
                         (setBoard createEmptyBoard st)))))))).

(** The [keydown] listener. *)
Definition handleKeyPress (cl : Session) (key : string) (draw : TetrominoType)
    (st : Session) : outcome Session :=
  if gameOver cl || negb (gameStarted cl) then Ret st
  else
    st1 ← (if negb (isPaused cl) then
             if bool_decide (key = "ArrowLeft") then fst <$> move cl (-1) 0 st
             else if bool_decide (key = "ArrowRight") then fst <$> move cl 1 0 st
             else if bool_decide (key = "ArrowDown") then
               st' ← drop cl draw st;
               Ret (setScore (fun s => num_add s (Int 1)) st')
             else if bool_decide (key = "ArrowUp") then rotate cl st
             else if bool_decide (key = " ") then hardDrop cl draw st
             else Ret st
           else Ret st);
    if bool_decide (key = "p") || bool_decide (key = "P")
    then Ret (setIsPaused negb st1)
    else Ret st1.

(** ** Display *)

Definition ghostMarker : string :=
  "bg-gray-700/50 border-2 border-dashed border-white/20".

(** The row at which [getDisplayBoard] draws the ghost. *)
Definition ghostY (cl : Session) : outcome Z :=
  let p := currentPiece cl in
  landingRow (board cl) (Piece.shape p) (Pos.x (Piece.pos p)) (Pos.y (Piece.pos p)).

Definition getDisplayBoard (cl : Session) : outcome Board :=
  let p := currentPiece cl in
  let display := board cl in
  display1 ←
    (if gameStarted cl && negb (gameOver cl) && negb (isPaused cl) then
       gy ← ghostY cl;
       paintShape (fun old => if falsy old then str ghostMarker else old)
         (Piece.shape p) (Pos.x (Piece.pos p)) gy display
     else Ret display);
  if gameStarted cl && negb (gameOver cl) then
    paintShape (fun _ => str (Piece.color p)) (Piece.shape p)
      (Pos.x (Piece.pos p)) (Pos.y (Piece.pos p)) display1
  else Ret display1.

(** [getDisplayBoard] on a board that lives in the store: the display is
    painted on a copy of the rows. *)
Definition getDisplayBoardH (h : store) (b : list loc) (cl : Session)
    : outcome (store * list loc) :=
  let p := currentPiece cl in
  copied ← copyRows h b;
  h1 ←
    (if gameStarted cl && negb (gameOver cl) && negb (isPaused cl) then
       gy ← ghostY cl;
       forEachCellRows
         (updateCellH (fun old => if falsy old then str ghostMarker else old)
            copied.2)
         (Pos.x (Piece.pos p)) gy (Piece.shape p) 0 copied.1
     else Ret copied.1);
  h2 ←
    (if gameStarted cl && negb (gameOver cl) then
       forEachCellRows (updateCellH (fun _ => str (Piece.color p)) copied.2)
         (Pos.x (Piece.pos p)) (Pos.y (Piece.pos p)) (Piece.shape p) 0 h1
     else Ret h1);
  Ret (h2, copied.2).

(** ** Events *)

(** What can happen to the component: a key press, a tick of the interval,
    and the on-screen buttons.  Events that may lock a piece carry the key
    [Math.random] selects for the piece after next. *)
Inductive Event : Type :=
  | KeyDown (key : string) (draw : TetrominoType)
  | Tick (draw : TetrominoType)
  | ClickStart (cur next : TetrominoType)
  | ClickResume
  | ClickRotate
  | ClickDrop (draw : TetrominoType)
  | ClickLeft
  | ClickRight
  | ClickHardDrop (draw : TetrominoType)
  | ClickPause.

(** One event handled after the render of the current state: the handlers
    are those of that render, so the closure and the pending state are both
    [s]. *)
Definition step (s : Session) (e : Event) : outcome Session :=
  match e with
  | KeyDown key draw => handleKeyPress s key draw s
  | Tick draw =>
      if gameStarted s && negb (isPaused s) && negb (gameOver s)
      then drop s draw s else Ret s
  | ClickStart cur next => Ret (startGame cur next s)
  | ClickResume => Ret (setIsPaused (fun _ => false) s)
  | ClickRotate => rotate s s
  | ClickDrop draw => drop s draw s
  | ClickLeft => fst <$> move s (-1) 0 s
  | ClickRight => fst <$> move s 1 0 s
  | ClickHardDrop draw => hardDrop s draw s
  | ClickPause => Ret (setIsPaused negb s)
  end.

(** The states of the games in which React renders between any two
    events. *)
Inductive reachable : Session → Prop :=
  | reachable_init cur next : reachable (initialSession cur next)
  | reachable_step s e s' : reachable s → step s e = Ret s' → reachable s'.

(** A session run through a list of events. *)
Fixpoint run (s : Session) (events : list Event) : outcome Session :=
  match events with
  | [] => Ret s
  | e :: rest => s' ← step s e; run s' rest
  end.

(** ** The simplified variant ([src/script.js])

    Board cells are numbers here: [0] is empty, a locked cell holds the
    colour index plus one.  There is no wall kick, no ghost and no hard
    drop; the score table is not scaled by the level. *)
Module Simple.

Definition BOARD_WIDTH : Z := 10.
Definition BOARD_HEIGHT : Z := 20.

Definition PIECES : list (list (list value)) :=
  [cells [[1; 1; 1; 1]];
   cells [[1; 1]; [1; 1]];
   cells [[0; 1; 1]; [1; 1; 0]];
   cells [[1; 1; 0]; [0; 1; 1]];
   cells [[1; 0; 0]; [1; 1; 1]];
   cells [[0; 0; 1]; [1; 1; 1]];
   cells [[0; 1; 0]; [1; 1; 1]]].

Definition emptyRow : list value := replicate (Z.to_nat BOARD_WIDTH) (num 0).

Definition createEmptyBoard : Board := replicate (Z.to_nat BOARD_HEIGHT) emptyRow.

(** [if (v)]: the condition holds for a value that is not falsy. *)
Definition truthy (v : value) : bool := negb (falsy v).

(** The inner loop of [rotatePiece]: [rotated[j][n - 1 - i] = piece[i][j]]. *)
Fixpoint rotateRow (n i : nat) (row : list value) (j : nat) (rotated : Board)
    : outcome Board :=
  match row with
  | [] => Ret rotated
  | cell :: rest =>
      rotated' ← updateCell (fun _ => cell) rotated j (n - 1 - i);
      rotateRow n i rest (S j) rotated'
  end.

Fixpoint rotateRows (n : nat) (rows : list (list value)) (i : nat) (rotated : Board)
    : outcome Board :=
  match rows with
  | [] => Ret rotated
  | row :: rest =>
      rotated' ← rotateRow n i row 0 rotated;
      rotateRows n rest (S i) rotated'
  end.

Definition rotatePiece (piece : list (list value)) : outcome (list (list value)) :=
  let n := length piece in
  match piece !! 0%nat with
  | None => TypeError
  | Some row0 =>
      rotateRows n piece 0 (replicate (length row0) (replicate n (num 0)))
  end.

(** The inner loop of [canMove]: [Ret false] when the function has returned
    [false], [Ret true] when the row is exhausted. *)
Fixpoint canMoveRow (board : Board) (x y : Z) (i : nat) (row : list value) (j : nat)
    : outcome bool :=
  match row with
  | [] => Ret true
  | cell :: rest =>
      if truthy cell then
        let newX := x + Z.of_nat j in
        let newY := y + Z.of_nat i in
        if (newX <? 0) || (newX >=? BOARD_WIDTH) || (newY >=? BOARD_HEIGHT) then
          Ret false
        else if newY >=? 0 then
          match board !! Z.to_nat newY with
          | None => TypeError
          | Some brow =>
              if strict_ne (index brow (Z.to_nat newX)) (num 0) then Ret false
              else canMoveRow board x y i rest (S j)
          end
        else canMoveRow board x y i rest (S j)
      else canMoveRow board x y i rest (S j)
  end.

Fixpoint canMoveRows (board : Board) (x y : Z) (rows : list (list value)) (i : nat)
    : outcome bool :=
  match rows with
  | [] => Ret true
  | row :: rest =>
      ok ← canMoveRow board x y i row 0;
      if ok : bool then canMoveRows board x y rest (S i) else Ret false
  end.

Definition canMove (board : Board) (piece : list (list value)) (x y : Z)
    : outcome bool :=
  canMoveRows board x y piece 0.

(** The loops of [placePiece] over the copy [newBoard]. *)
Fixpoint placeRow (x y : Z) (color : Z) (i : nat) (row : list value) (j : nat)
    (newBoard : Board) : outcome Board :=
  match row with
  | [] => Ret newBoard
  | cell :: rest =>
      if truthy cell then
        let newY := y + Z.of_nat i in
        let newX := x + Z.of_nat j in
        if (newY >=? 0) && (newY <? BOARD_HEIGHT)
           && (newX >=? 0) && (newX <? BOARD_WIDTH) then
          b' ← updateCell (fun _ => num (color + 1)) newBoard
                 (Z.to_nat newY) (Z.to_nat newX);
          placeRow x y color i rest (S j) b'
        else placeRow x y color i rest (S j) newBoard
      else placeRow x y color i rest (S j) newBoard
  end.

Fixpoint placeRows (x y : Z) (color : Z) (rows : list (list value)) (i : nat)
    (newBoard : Board) : outcome Board :=
  match rows with
  | [] => Ret newBoard
  | row :: rest =>
      b' ← placeRow x y color i row 0 newBoard;
      placeRows x y color rest (S i) b'
  end.

Definition placePiece (board : Board) (piece : list (list value)) (x y : Z)
    (color : Z) : outcome Board :=
  placeRows x y color piece 0 board.

(** [newBoard[i].every(cell => cell !== 0)] *)
Definition isFull (row : list value) : bool :=
  forallb (fun cell => strict_ne cell (num 0)) row.

(** The [for] loop of [clearLines]; [k] is [i + 1], so that the loop is left
    when [k] is 0.  A full row is spliced out, an empty row is put on top,
    and the same index is looked at again. *)
Fixpoint clearLoop (fuel : nat) (newBoard : Board) (linesCleared : nat) (k : nat)
    : outcome (Board * nat) :=
  match fuel with
  | 0%nat => Diverge
  | S fuel' =>
      match k with
      | 0%nat => Ret (newBoard, linesCleared)
      | S i =>
          match newBoard !! i with
          | None => TypeError
          | Some row =>
              if isFull row then
                clearLoop fuel' (emptyRow :: delete i newBoard) (S linesCleared) (S i)
              else clearLoop fuel' newBoard linesCleared i
          end
      end
  end.

Definition clearLines (board : Board) : outcome (Board * nat) :=
  clearLoop (S (2 * length board)) board 0 (length board).

Record GameState : Type := mkGameState {
  board : Board;
  currentPiece : list (list value);
  currentColor : Z;
  nextPiece : list (list value);
  nextColor : Z;
  position : Pos;
  score : Z;
  lines : Z;
  level : Z;
  gameOver : bool;
  isPaused : bool
}.

(** The updater of [moveDown]; [drawnPiece] and [drawnColor] are the results
    of its two calls of [getRandomPiece]. *)
Definition moveDown (prev : GameState) (drawnPiece : list (list value))
    (drawnColor : Z) : outcome GameState :=
  if gameOver prev || isPaused prev then Ret prev
  else
    let newY := Pos.y (position prev) + 1 in
    free ← canMove (board prev) (currentPiece prev) (Pos.x (position prev)) newY;
    if free : bool then
      Ret (mkGameState (board prev) (currentPiece prev) (currentColor prev)
             (nextPiece prev) (nextColor prev)
             (Pos.mk (Pos.x (position prev)) newY)
             (score prev) (lines prev) (level prev) (gameOver prev) (isPaused prev))
    else
      placed ← placePiece (board prev) (currentPiece prev)
                 (Pos.x (position prev)) (Pos.y (position prev)) (currentColor prev);
      cleared ← clearLines placed;
      let newBoard := cleared.1 in
      let linesCleared := cleared.2 in
      let newLines := lines prev + Z.of_nat linesCleared in
      let newLevel := newLines / 10 + 1 in
      let scoreIncrease :=
        if (linesCleared =? 1)%nat then 100
        else if (linesCleared =? 2)%nat then 300
        else if (linesCleared =? 3)%nat then 500
        else 800 in
      spawnFree ← canMove newBoard (nextPiece prev) 3 0;
      if negb spawnFree then
        Ret (mkGameState (board prev) (currentPiece prev) (currentColor prev)
               (nextPiece prev) (nextColor prev) (position prev)
               (score prev) (lines prev) (level prev) true (isPaused prev))
      else
        Ret (mkGameState newBoard (nextPiece prev) (nextColor prev)
               drawnPiece drawnColor (Pos.mk 3 0)
               (score prev + scoreIncrease) newLines newLevel
               (gameOver prev) (isPaused prev)).

(** The [ArrowUp] updater of [handleKeyDown]: no wall kick. *)
Definition rotateKey (prev : GameState) : outcome GameState :=
  rotatedPiece ← rotatePiece (currentPiece prev);
  free ← canMove (board prev) rotatedPiece
           (Pos.x (position prev)) (Pos.y (position prev));
  if free : bool then
    Ret (mkGameState (board prev) rotatedPiece (currentColor prev)
           (nextPiece prev) (nextColor prev) (position prev)
           (score prev) (lines prev) (level prev) (gameOver prev) (isPaused prev))
  else Ret prev.

End Simple.

(** ** Vocabulary of the specification and example sessions *)

(** The shape has an occupied cell at row [r], column [c]. *)
Definition occupied (pieceShape : TetrominoShape) (r c : nat) : Prop :=
  ∃ row cell, pieceShape !! r = Some row ∧ row !! c = Some cell ∧ cell ≠ num 0.

(** The board cell at row [Y], column [X] (both non-negative) is non-empty. *)
Definition nonEmptyAt (boardState : Board) (X Y : Z) : Prop :=
  ∃ brow, boardState !! Z.to_nat Y = Some brow ∧ index brow (Z.to_nat X) ≠ null.

(** The condition under which one cell at absolute coordinate [(X, Y)]
    makes the piece collide. *)
Definition cellCollides (boardState : Board) (X Y : Z) : Prop :=
  X < 0 ∨ X >= BOARD_WIDTH ∨ Y >= BOARD_HEIGHT ∨ (Y >= 0 ∧ nonEmptyAt boardState X Y).

(** A row is full when every cell is non-empty. *)
Definition rowFull (row : list value) : Prop := Forall (λ cell, cell ≠ null) row.

#[global] Instance rowFull_dec row : Decision (rowFull row).
Proof. unfold rowFull. apply _. Defined.

(** The table of the specification. *)
Definition spec_multiplier (linesCleared : nat) : Z :=
  match linesCleared with
  | 0%nat => 0
  | 1%nat => 100
  | 2%nat => 300
  | 3%nat => 500
  | 4%nat => 800
  | _ => 0
  end.

(** A T piece flush against the left wall and resting on a one-column
    tower in column 1: after rotation it collides, with the tower, where it
    stands, and fits on either side. *)
Definition towerRow : list value :=
  [null; str "bg-cyan-400"; null; null; null; null; null; null; null; null].

Definition towerSession : Session :=
  mkSession (replicate 8 emptyRow ++ replicate 12 towerRow)
    (spawnAt (randomTetromino TetrominoType.T) (Pos.mk 0 6))
    (randomTetromino TetrominoType.O) (Int 0) 0 1 false false true.

(** The game that leads to [towerSession]: three upright I pieces dropped in
    column 1, then the T piece moved to the wall and lowered six rows. *)
Definition towerEvents : list Event :=
  [ClickStart TetrominoType.I TetrominoType.I; ClickRotate]
  ++ replicate 5 ClickLeft ++ [ClickHardDrop TetrominoType.I; ClickRotate]
  ++ replicate 4 ClickLeft ++ [ClickHardDrop TetrominoType.T; ClickRotate]
  ++ replicate 4 ClickLeft ++ [ClickHardDrop TetrominoType.O]
  ++ replicate 4 ClickLeft ++ replicate 6 (ClickDrop TetrominoType.O).

(** [b[r][c]] for a row [r] that exists. *)
Definition cellAt (b : Board) (r c : nat) : value :=
  match b !! r with
  | Some row => index row c
  | None => undefined
  end.

Definition onBoard (Y X : Z) : bool :=
  (Y >=? 0) && (Y <? BOARD_HEIGHT) && (X >=? 0) && (X <? BOARD_WIDTH).

(** The cell [(r, c)] lies under an occupied cell of the shape that is on
    the board. *)
Definition covered (pieceShape : TetrominoShape) (px py : Z) (r c : nat) : Prop :=
  ∃ i j, occupied pieceShape i j ∧
    Z.of_nat r = py + Z.of_nat i ∧ Z.of_nat c = px + Z.of_nat j ∧
    0 <= Z.of_nat r < 20 ∧ 0 <= Z.of_nat c < 10.

Fixpoint coveredRow (px py : Z) (y0 : nat) (row : list value) (x0 : nat)
    (r c : nat) : bool :=
  match row with
  | [] => false
  | cell :: rest =>
      (strict_ne cell (num 0)
       && onBoard (py + Z.of_nat y0) (px + Z.of_nat x0)
       && bool_decide (Z.to_nat (py + Z.of_nat y0) = r)
       && bool_decide (Z.to_nat (px + Z.of_nat x0) = c))
      || coveredRow px py y0 rest (S x0) r c
  end.

Fixpoint coveredRows (px py : Z) (rows : TetrominoShape) (y0 : nat)
    (r c : nat) : bool :=
  match rows with
  | [] => false
  | row :: rest =>
      coveredRow px py y0 row 0 r c || coveredRows px py rest (S y0) r c
  end.

(** A game in which an O piece and then a lying I piece are dropped at the
    left, so that the I piece roofs a two-by-two hole in columns 4 and 5;
    the next O piece stands above that hole. *)
Definition overhangEvents : list Event :=
  [ClickStart TetrominoType.O TetrominoType.I; ClickLeft; ClickLeft;
   ClickHardDrop TetrominoType.O; ClickLeft; ClickHardDrop TetrominoType.T].

Definition overhangSession : Session :=
  Eval vm_compute in
    match run (initialSession TetrominoType.T TetrominoType.T) overhangEvents with
    | Ret s => s
    | _ => initialSession TetrominoType.T TetrominoType.T
    end.

Definition rows20 (s : Session) : Prop := length (board s) = Z.to_nat BOARD_HEIGHT.

Definition rotated (m : TetrominoShape) : TetrominoShape :=
  match rotateMatrix m with
  | Ret r => r
  | _ => m
  end.

(** The shapes a piece can take: the catalogue and its rotations. *)
Definition orientations : list TetrominoShape :=
  k ← TETROMINO_KEYS;
  let m := (TETROMINOES k).1 in
  [m; rotated m; rotated (rotated m); rotated (rotated (rotated m))].

Definition hasOccupied (m : TetrominoShape) : bool :=
  existsb (existsb (λ cell, strict_ne cell (num 0))) m.

Definition shapesOk (s : Session) : Prop :=
  Piece.shape (currentPiece s) ∈ orientations ∧
  Tetromino.shape (nextPiece s) ∈ orientations.

Definition sound (s : Session) : Prop := rows20 s ∧ shapesOk s.

Definition oneFullRowBoard : Board :=
  replicate 19 emptyRow ++ [replicate 10 (str "bg-cyan-400")].

(** A board whose top row is taken under the spawn columns. *)
Definition blockedTopBoard : Board :=
  [null; null; null; null; str "bg-red-500"; str "bg-red-500"; null; null; null; null]
  :: replicate 19 emptyRow.

Definition demoSession : Session :=
  mkSession createEmptyBoard
    (spawnAt (randomTetromino TetrominoType.T) (Pos.mk 4 0))
    (randomTetromino TetrominoType.O) (Int 40) 9 1 false false true.

Definition simpleRowFull (row : list value) : Prop := Forall (λ cell, cell ≠ num 0) row.

#[global] Instance simpleRowFull_dec row : Decision (simpleRowFull row).
Proof. unfold simpleRowFull. apply _. Defined.

(** The piece has a truthy cell at row [r], column [c]. *)
Definition simpleOccupied (piece : list (list value)) (r c : nat) : Prop :=
  ∃ row cell, piece !! r = Some row ∧ row !! c = Some cell ∧ Simple.truthy cell = true.

Definition simpleBlocked (board : Board) (X Y : Z) : Prop :=
  X < 0 ∨ X >= 10 ∨ Y >= 20 ∨
  (Y >= 0 ∧ ∃ brow, board !! Z.to_nat Y = Some brow ∧ index brow (Z.to_nat X) ≠ num 0).

Definition numeric (piece : list (list value)) : Prop :=
  Forall (Forall (λ cell, ∃ n, cell = num n)) piece.

(** An O piece lying on the floor of an empty board, at level 3. *)
Definition simpleRestingSession : Simple.GameState :=
  Simple.mkGameState Simple.createEmptyBoard
    (cells [[1; 1]; [1; 1]]) 1 (cells [[1; 1]; [1; 1]]) 1 (Pos.mk 3 18)
    0 0 3 false false.

(** A T piece resting on a one-column tower in column 4: rotated, it
    collides with the tower where it stands and would fit one column to the
    right; without a wall kick the rotation request is dropped. *)
Definition simpleTowerSession : Simple.GameState :=
  Simple.mkGameState
    (replicate 8 Simple.emptyRow
     ++ replicate 12 [num 0; num 0; num 0; num 0; num 7; num 0; num 0; num 0; num 0; num 0])
    (cells [[0; 1; 0]; [1; 1; 1]]) 6 (cells [[1; 1]; [1; 1]]) 1 (Pos.mk 4 6)
    0 0 1 false false.

(** On a spawn collision the simplified variant keeps the board it had
    before the lock. *)
Definition simpleFullSession : Simple.GameState :=
  Simple.mkGameState
    (replicate 2 Simple.emptyRow
     ++ replicate 18 [num 0; num 0; num 0; num 2; num 2; num 0; num 0; num 0; num 0; num 0])
    (cells [[1; 1]; [1; 1]]) 1 (cells [[1; 1]; [1; 1]]) 1 (Pos.mk 3 0)
    0 0 1 false false.

(** ** What one event does to a session *)

(** Two sessions that differ at most in the score and the pause flag. *)
Definition sameCore (a b : Session) : Prop :=
  board b = board a ∧ currentPiece b = currentPiece a ∧ nextPiece b = nextPiece a ∧
  lines b = lines a ∧ level b = level a ∧
  gameOver b = gameOver a ∧ gameStarted b = gameStarted a.

(** The four things a handler can do to the rest of the session: nothing;
    put the active piece at a position, in a shape, where it does not
    collide; lock the piece at a row and run [processBoardUpdate]; or start
    a new game. *)
Inductive coreStep (s : Session) : Session → Prop :=
  | cs_none : coreStep s s
  | cs_piece (newPos : Pos) (newShape : TetrominoShape) :
      blocked s = false →
      checkCollision newPos newShape (board s) = Ret false →
      newShape = Piece.shape (currentPiece s) ∨
        rotateMatrix (Piece.shape (currentPiece s)) = Ret newShape →
      coreStep s (setCurrentPiece (fun p => withShape (withPos p newPos) newShape) s)
  | cs_lock (py : Z) (lockedBoard : Board) (draw : TetrominoType) (st core : Session) :
      blocked s = false →
      st = s ∨
        st = setCurrentPiece
               (fun p => withPos p (Pos.mk (Pos.x (Piece.pos p)) py)) s →
      mergePiece (board s) (Piece.shape (currentPiece s)) (Piece.color (currentPiece s))
        (Pos.x (Piece.pos (currentPiece s))) py = Ret lockedBoard →
      processBoardUpdate s lockedBoard draw st = Ret core →
      coreStep s core
  | cs_start (cur next : TetrominoType) : coreStep s (startGame cur next s).

Definition effect (s s' : Session) : Prop :=
  ∃ core, coreStep s core ∧ sameCore core s' ∧
    (score s' = score core ∨ score s' = num_add (score core) (Int 1)).

(** A board cell is empty or holds a colour. *)
Definition cellOk (c : value) : Prop := c = null ∨ ∃ s, c = str s.

(** A well-formed board: 20 rows of 10 cells, each empty or coloured. *)
Definition boardOk (b : Board) : Prop :=
  length b = 20%nat ∧ Forall (fun row => length row = 10%nat ∧ Forall cellOk row) b.

(** The active piece of a game that is not over does not collide. *)
Definition legal (s : Session) : Prop :=
  gameOver s = false →
  checkCollision (Piece.pos (currentPiece s)) (Piece.shape (currentPiece s)) (board s)
    = Ret false.

Definition countersOk (s : Session) : Prop :=
  0 <= lines s ∧ level s = lines s / 10 + 1 ∧
  (gameOver s = true → gameStarted s = false).

Definition consistent (s : Session) : Prop :=
  boardOk (board s) ∧ countersOk s ∧ legal s.

Definition noFullRow (b : Board) : Prop := ∀ row, row ∈ b → ¬ rowFull row.

(** The score is a number, and not negative. *)
Definition scoreOk (s : Session) : Prop := ∃ z, score s = Int z ∧ 0 <= z.

(** A matrix of [n] rows of [w] cells. *)
Definition rect (n w : nat) (m : list (list value)) : Prop :=
  length m = n ∧ Forall (fun row => length row = w) m.

(** ** Events between renders

    [step] runs the handlers of the render of the current state.  React
    replaces the [keydown] listener and the callback of the interval in
    effects that run after the next render, so an event that arrives before
    that render is handled by the handlers of the last one, on the pending
    state: [handle cl e st], where [cl] is the state of the last render and
    [st] the pending state.  [step s e] is [handle s e s]. *)
Definition handle (cl : Session) (e : Event) (st : Session) : outcome Session :=
  match e with
  | KeyDown key draw => handleKeyPress cl key draw st
  | Tick draw =>
      if gameStarted cl && negb (isPaused cl) && negb (gameOver cl)
      then drop cl draw st else Ret st
  | ClickStart cur next => Ret (startGame cur next st)
  | ClickResume => Ret (setIsPaused (fun _ => false) st)
  | ClickRotate => rotate cl st
  | ClickDrop draw => drop cl draw st
  | ClickLeft => fst <$> move cl (-1) 0 st
  | ClickRight => fst <$> move cl 1 0 st
  | ClickHardDrop draw => hardDrop cl draw st
  | ClickPause => Ret (setIsPaused negb st)
  end.

(** [scheduled cl st]: after some events and renders, in any order, the last
    render showed [cl] and the pending state is [st].  A render makes the
    pending state the state of the closures. *)
Inductive scheduled : Session → Session → Prop :=
  | scheduled_init cur next :
      scheduled (initialSession cur next) (initialSession cur next)
  | scheduled_event cl st e st' :
      scheduled cl st → handle cl e st = Ret st' → scheduled cl st'
  | scheduled_render cl st : scheduled cl st → scheduled st st.

(** What holds of a session under every schedule. *)
Definition wellFormed (s : Session) : Prop :=
  sound s ∧ boardOk (board s) ∧ noFullRow (board s) ∧
  0 <= lines s ∧ 1 <= level s ∧ scoreOk s ∧
  (gameOver s = true → gameStarted s = false).

(** ** The session of the simplified variant

    The component of [src/script.js] around the functions of
    [Module Simple]: the initial state, the timer speed, the keyboard
    handler, the reset button and the display board. *)
Module SimpleGame.

(** [getRandomPiece]; [index] stands for
    [Math.floor(Math.random() * PIECES.length)], a natural number below 7. *)
Definition getRandomPiece (index : nat) : list (list value) * Z :=
  (default [] (Simple.PIECES !! index), Z.of_nat index).

(** The initialiser of [useState]: the next piece is drawn first. *)
Definition initialGameState (iNext iCur : nat) : Simple.GameState :=
  let (nextPiece, nextColor) := getRandomPiece iNext in
  let (currentPiece, currentColor) := getRandomPiece iCur in
  Simple.mkGameState Simple.createEmptyBoard currentPiece currentColor
    nextPiece nextColor (Pos.mk 3 0) 0 0 1 false false.

Definition resetGame (iNext iCur : nat) : Simple.GameState :=
  let (nextPiece, nextColor) := getRandomPiece iNext in
  let (currentPiece, currentColor) := getRandomPiece iCur in
  Simple.mkGameState Simple.createEmptyBoard currentPiece currentColor
    nextPiece nextColor (Pos.mk 3 0) 0 0 1 false false.

(** The period of the gravity timer, in milliseconds. *)
Definition getGameSpeed (gameState : Simple.GameState) : Z :=
  Z.max 100 (500 - Simple.level gameState * 30).

Inductive Key : Type :=
  | ArrowLeft
  | ArrowRight
  | ArrowDown
  | Space
  | ArrowUp
  | OtherKey.

(** The [ArrowLeft] ([dx = -1]) and [ArrowRight] ([dx = 1]) updaters. *)
Definition shiftKey (dx : Z) (prev : Simple.GameState) : outcome Simple.GameState :=
  let newX := Pos.x (Simple.position prev) + dx in
  free ← Simple.canMove (Simple.board prev) (Simple.currentPiece prev)
           newX (Pos.y (Simple.position prev));
  if free : bool then
    Ret (Simple.mkGameState (Simple.board prev) (Simple.currentPiece prev)
           (Simple.currentColor prev) (Simple.nextPiece prev) (Simple.nextColor prev)
           (Pos.mk newX (Pos.y (Simple.position prev)))
           (Simple.score prev) (Simple.lines prev) (Simple.level prev)
           (Simple.gameOver prev) (Simple.isPaused prev))
  else Ret prev.

(** [{ ...prev, isPaused: v }] *)
Definition withPaused (v : bool) (prev : Simple.GameState) : Simple.GameState :=
  Simple.mkGameState (Simple.board prev) (Simple.currentPiece prev)
    (Simple.currentColor prev) (Simple.nextPiece prev) (Simple.nextColor prev)
    (Simple.position prev) (Simple.score prev) (Simple.lines prev) (Simple.level prev)
    (Simple.gameOver prev) v.

(** [handleKeyDown]: [gameState] is the state its closure was built with,
    [prev] the state its updater is run on. *)
Definition handleKeyDown (gameState : Simple.GameState) (key : Key)
    (drawnPiece : list (list value)) (drawnColor : Z) (prev : Simple.GameState)
    : outcome Simple.GameState :=
  if Simple.gameOver gameState then Ret prev
  else
    match key with
    | ArrowLeft => shiftKey (-1) prev
    | ArrowRight => shiftKey 1 prev
    | ArrowDown => Simple.moveDown prev drawnPiece drawnColor
    | Space => Ret (withPaused (negb (Simple.isPaused prev)) prev)
    | ArrowUp => Simple.rotateKey prev
    | OtherKey => Ret prev
    end.

(** [renderBoard]: the loop of [placePiece] over a copy of the board. *)
Definition renderBoard (gameState : Simple.GameState) : outcome Board :=
  Simple.placeRows (Pos.x (Simple.position gameState)) (Pos.y (Simple.position gameState))
    (Simple.currentColor gameState) (Simple.currentPiece gameState) 0
    (Simple.board gameState).

(** What happens to the component: a timer tick, a key, or a click on the
    reset button, each with the random indices it may consume.  [step]
    handles an event after the render of the current state; [handle] below
    handles it before that render. *)
Inductive Event : Type :=
  | Tick (i1 i2 : nat)
  | KeyDown (key : Key) (i1 i2 : nat)
  | ClickReset (iNext iCur : nat).

(** The reset button is rendered when the game is over or not paused; the
    random indices are below [PIECES.length]. *)
Definition enabled (s : Simple.GameState) (e : Event) : bool :=
  match e with
  | Tick i1 i2 | KeyDown _ i1 i2 => (i1 <? 7)%nat && (i2 <? 7)%nat
  | ClickReset iNext iCur =>
      (iNext <? 7)%nat && (iCur <? 7)%nat
      && (Simple.gameOver s || negb (Simple.isPaused s))
  end.

(** One event handled after the render of the current state. *)
Definition step (s : Simple.GameState) (e : Event) : outcome Simple.GameState :=
  match e with
  | Tick i1 i2 => Simple.moveDown s (getRandomPiece i1).1 (getRandomPiece i2).2
  | KeyDown key i1 i2 =>
      handleKeyDown s key (getRandomPiece i1).1 (getRandomPiece i2).2 s
  | ClickReset iNext iCur => Ret (resetGame iNext iCur)
  end.

Inductive reachable : Simple.GameState → Prop :=
  | reachable_init iNext iCur :
      (iNext < 7)%nat → (iCur < 7)%nat → reachable (initialGameState iNext iCur)
  | reachable_step s e s' :
      reachable s → enabled s e = true → step s e = Ret s' → reachable s'.

(** An event handled before the next render: the listener is the one of the
    last render, whose [gameState] is [cl]; the updaters run on the pending
    state [st].  [step s e] is [handle s e s]. *)
Definition handle (gameState : Simple.GameState) (e : Event) (prev : Simple.GameState)
    : outcome Simple.GameState :=
  match e with
  | Tick i1 i2 => Simple.moveDown prev (getRandomPiece i1).1 (getRandomPiece i2).2
  | KeyDown key i1 i2 =>
      handleKeyDown gameState key (getRandomPiece i1).1 (getRandomPiece i2).2 prev
  | ClickReset iNext iCur => Ret (resetGame iNext iCur)
  end.

(** [scheduled cl st]: after some events and renders, in any order, the last
    render showed [cl] and the pending state is [st]. *)
Inductive scheduled : Simple.GameState → Simple.GameState → Prop :=
  | scheduled_init iNext iCur :
      (iNext < 7)%nat → (iCur < 7)%nat →
      scheduled (initialGameState iNext iCur) (initialGameState iNext iCur)
  | scheduled_event cl st e st' :
      scheduled cl st → enabled cl e = true → handle cl e st = Ret st' →
      scheduled cl st'
  | scheduled_render cl st : scheduled cl st → scheduled st st.

(** The catalogue pieces in their four orientations. *)
Definition orientations : list (list (list value)) :=
  p ← Simple.PIECES;
  [p; spec_rotate p; spec_rotate (spec_rotate p);
   spec_rotate (spec_rotate (spec_rotate p))].

Definition cellOk (c : value) : Prop := ∃ k, c = num k ∧ 0 <= k <= 7.

Definition gridOk (b : Board) : Prop :=
  length b = 20%nat ∧ Forall (λ row, length row = 10%nat ∧ Forall cellOk row) b.

Definition boardOk (b : Board) : Prop :=
  gridOk b ∧ ∀ row, row ∈ b → ¬ simpleRowFull row.

(** What holds of every state of a game. *)
Definition consistent (s : Simple.GameState) : Prop :=
  boardOk (Simple.board s) ∧
  Simple.currentPiece s ∈ orientations ∧ Simple.nextPiece s ∈ Simple.PIECES ∧
  0 <= Simple.currentColor s < 7 ∧ 0 <= Simple.nextColor s < 7 ∧
  Simple.canMove (Simple.board s) (Simple.currentPiece s)
    (Pos.x (Simple.position s)) (Pos.y (Simple.position s)) = Ret true ∧
  0 <= Pos.y (Simple.position s) ∧
  0 <= Simple.lines s ∧ Simple.level s = Simple.lines s / 10 + 1 ∧
  0 <= Simple.score s ∧ Simple.score s mod 100 = 0.

(** The score table of [moveDown]. *)
Definition scoreIncrease (linesCleared : nat) : Z :=
  if (linesCleared =? 1)%nat then 100
  else if (linesCleared =? 2)%nat then 300
  else if (linesCleared =? 3)%nat then 500
  else 800.

(** The ways in which one event changes the state. *)
Inductive moved (s : Simple.GameState) : Simple.GameState → Prop :=
  | moved_none : moved s s
  | moved_piece (piece : list (list value)) (pos : Pos) :
      piece ∈ orientations → 0 <= Pos.y pos →
      Simple.canMove (Simple.board s) piece (Pos.x pos) (Pos.y pos) = Ret true →
      moved s (Simple.mkGameState (Simple.board s) piece (Simple.currentColor s)
                 (Simple.nextPiece s) (Simple.nextColor s) pos
                 (Simple.score s) (Simple.lines s) (Simple.level s)
                 (Simple.gameOver s) (Simple.isPaused s))
  | moved_pause (v : bool) : moved s (withPaused v s)
  | moved_over :
      Simple.gameOver s = false → Simple.isPaused s = false →
      moved s (Simple.mkGameState (Simple.board s) (Simple.currentPiece s)
                 (Simple.currentColor s) (Simple.nextPiece s) (Simple.nextColor s)
                 (Simple.position s) (Simple.score s) (Simple.lines s)
                 (Simple.level s) true (Simple.isPaused s))
  | moved_lock (placed newBoard : Board) (n : nat) (drawnPiece : list (list value))
      (drawnColor : Z) :
      Simple.gameOver s = false → Simple.isPaused s = false →
      Simple.canMove (Simple.board s) (Simple.currentPiece s)
        (Pos.x (Simple.position s)) (Pos.y (Simple.position s) + 1) = Ret false →
      Simple.placePiece (Simple.board s) (Simple.currentPiece s)
        (Pos.x (Simple.position s)) (Pos.y (Simple.position s))
        (Simple.currentColor s) = Ret placed →
      Simple.clearLines placed = Ret (newBoard, n) → (n <= 4)%nat →
      Simple.canMove newBoard (Simple.nextPiece s) 3 0 = Ret true →
      drawnPiece ∈ Simple.PIECES → 0 <= drawnColor < 7 →
      moved s (Simple.mkGameState newBoard (Simple.nextPiece s) (Simple.nextColor s)
                 drawnPiece drawnColor (Pos.mk 3 0)
                 (Simple.score s + scoreIncrease n)
                 (Simple.lines s + Z.of_nat n)
                 ((Simple.lines s + Z.of_nat n) / 10 + 1)
                 (Simple.gameOver s) (Simple.isPaused s))
  | moved_reset (iNext iCur : nat) :
      (iNext < 7)%nat → (iCur < 7)%nat → moved s (resetGame iNext iCur).

End SimpleGame.

(** ** Sessions used as examples *)

(** The session after a click on the start button. *)
Definition startedSession : Session :=
  startGame TetrominoType.O TetrominoType.I
    (initialSession TetrominoType.T TetrominoType.T).

(** A session that is over. *)
Definition finishedSession : Session := setGameStarted false (setGameOver true startedSession).

(** The first state of a game of the simplified variant: an O piece, an I
    piece queued. *)
Definition simpleFirstState : Simple.GameState := SimpleGame.initialGameState 0 1.

(** The first state of the simplified variant, paused. *)
Definition simplePausedState : Simple.GameState :=
  SimpleGame.withPaused true simpleFirstState.

(** The first piece of a game of the simplified variant, an O piece, lying
    on the floor of the empty board after 18 timer ticks. *)
Definition simpleLandedState : Simple.GameState :=
  Simple.mkGameState Simple.createEmptyBoard (cells [[1; 1]; [1; 1]]) 1
    (cells [[1; 1; 1; 1]]) 0 (Pos.mk 3 18) 0 0 1 false false.

(** A game of the simplified variant in which every draw is the O piece:
    nine pieces are stacked in columns 3 and 4 and the tenth has just been
    placed at the top (each lock without a cleared row scored 800). *)
Definition simpleStackedState : Simple.GameState :=
  Simple.mkGameState
    (replicate 2 Simple.emptyRow
     ++ replicate 18 [num 0; num 0; num 0; num 2; num 2; num 0; num 0; num 0; num 0; num 0])
    (cells [[1; 1]; [1; 1]]) 1 (cells [[1; 1]; [1; 1]]) 1 (Pos.mk 3 0)
    7200 0 1 false false.

(** The first piece of a game of the full variant, an O piece, lying on the
    floor of the empty board after 18 timer ticks; an I piece is queued. *)
Definition landedSession : Session :=
  mkSession createEmptyBoard
    (spawnAt (randomTetromino TetrominoType.O) (Pos.mk 4 18))
    (randomTetromino TetrominoType.I) (Int 0) 0 1 false false true.

(** A game of the full variant in which every draw is the O piece: nine
    pieces have been dropped in columns 4 and 5 and the tenth stands at the
    top. *)
Definition stackedSession : Session :=
  mkSession
    (replicate 2 emptyRow
     ++ replicate 18 [null; null; null; null; str "bg-yellow-400"; str "bg-yellow-400";
                      null; null; null; null])
    (spawnAt (randomTetromino TetrominoType.O) (Pos.mk 4 0))
    (randomTetromino TetrominoType.O) (Int 0) 0 1 false false true.

(** [simpleStackedState] after the tick that ends the game. *)
Definition simpleOverState : Simple.GameState :=
  Simple.mkGameState (Simple.board simpleStackedState)
    (Simple.currentPiece simpleStackedState) (Simple.currentColor simpleStackedState)
    (Simple.nextPiece simpleStackedState) (Simple.nextColor simpleStackedState)
    (Simple.position simpleStackedState) 7200 0 1 true false.

(** * Theorems *)

(** ** Properties of the collision predicate *)

Arguments checkCollision : simpl never.

Lemma strict_ne_true a b : strict_ne a b = true ↔ a ≠ b.
Proof. unfold strict_ne. by rewrite bool_decide_eq_true. Qed.

Lemma strict_ne_false a b : strict_ne a b = false ↔ a = b.
Proof.
  unfold strict_ne. rewrite bool_decide_eq_false.
  split; [|by intros ->; auto]. intros H. by destruct (decide (a = b)).
Qed.

Lemma board_row_exists (boardState : Board) (Y : Z) :
  (Z.to_nat BOARD_HEIGHT <= length boardState)%nat → 0 <= Y < BOARD_HEIGHT →
  is_Some (boardState !! Z.to_nat Y).
Proof.
  intros Hlen HY. apply lookup_lt_is_Some.
  unfold BOARD_HEIGHT in *. lia.
Qed.

Lemma checkCollisionRow_spec piecePos (boardState : Board) y0 row x0 :
  (Z.to_nat BOARD_HEIGHT <= length boardState)%nat →
  ∃ b, checkCollisionRow piecePos boardState y0 row x0 = Ret b ∧
    (b = true ↔ ∃ j cell, row !! j = Some cell ∧ cell ≠ num 0 ∧
       cellCollides boardState (Pos.x piecePos + Z.of_nat (x0 + j))
                               (Pos.y piecePos + Z.of_nat y0)).
Proof.
  intros Hlen. revert x0. induction row as [|cell rest IH]; intros x0.
  - exists false. split; [done|]. split; [done|]. by intros (j & c & ? & _).
  - destruct (IH (S x0)) as (b & Hb & Hiff).
    assert (Hshift : (∃ j c, rest !! j = Some c ∧ c ≠ num 0 ∧
        cellCollides boardState (Pos.x piecePos + Z.of_nat (S x0 + j))
          (Pos.y piecePos + Z.of_nat y0)) →
      ∃ j c, (cell :: rest) !! j = Some c ∧ c ≠ num 0 ∧
        cellCollides boardState (Pos.x piecePos + Z.of_nat (x0 + j))
          (Pos.y piecePos + Z.of_nat y0)).
    { intros (j & c & Hj & Hc & Hcol). exists (S j), c.
      split; [done|]. split; [done|].
      by replace (x0 + S j)%nat with (S x0 + j)%nat by lia. }
    assert (Hhere : ∀ P : Prop,
      (cellCollides boardState (Pos.x piecePos + Z.of_nat x0)
          (Pos.y piecePos + Z.of_nat y0) → cell ≠ num 0 → P) →
      (b = true → P) →
      (∃ j c, (cell :: rest) !! j = Some c ∧ c ≠ num 0 ∧
        cellCollides boardState (Pos.x piecePos + Z.of_nat (x0 + j))
          (Pos.y piecePos + Z.of_nat y0)) → P).
    { intros P H0 HS (j & c & Hj & Hc & Hcol). destruct j as [|j].
      - simpl in Hj. injection Hj as ->.
        replace (x0 + 0)%nat with x0 in Hcol by lia. by apply H0.
      - apply HS, Hiff. exists j, c. split; [done|]. split; [done|].
        by replace (S x0 + j)%nat with (x0 + S j)%nat by lia. }
    simpl. destruct (strict_ne cell (num 0)) eqn:Hocc.
    + apply strict_ne_true in Hocc.
      assert (Hfound : cellCollides boardState (Pos.x piecePos + Z.of_nat x0)
          (Pos.y piecePos + Z.of_nat y0) →
        ∃ j c, (cell :: rest) !! j = Some c ∧ c ≠ num 0 ∧
          cellCollides boardState (Pos.x piecePos + Z.of_nat (x0 + j))
            (Pos.y piecePos + Z.of_nat y0)).
      { intros Hc. exists 0%nat, cell. split; [done|]. split; [done|].
        by replace (x0 + 0)%nat with x0 by lia. }
      destruct ((_ <? 0) || (_ >=? BOARD_WIDTH) || (_ >=? BOARD_HEIGHT)) eqn:Hb1.
      * exists true. split; [done|]. split; [|done]. intros _. apply Hfound.
        unfold cellCollides. rewrite !orb_true_iff in Hb1.
        destruct Hb1 as [[?|?]|?]; [left|right;left|right;right;left]; lia.
      * rewrite !orb_false_iff in Hb1. destruct Hb1 as [[Hx1 Hx2] Hy2].
        destruct (_ >=? 0) eqn:Hy1.
        -- destruct (board_row_exists boardState (Pos.y piecePos + Z.of_nat y0) Hlen)
             as [brow Hbrow]; [lia|].
           rewrite Hbrow. destruct (strict_ne (index brow _) null) eqn:Hne.
           ++ apply strict_ne_true in Hne. exists true. split; [done|].
              split; [|done]. intros _. apply Hfound.
              right; right; right. split; [lia|]. by exists brow.
           ++ apply strict_ne_false in Hne. exists b. split; [done|].
              split; [by intros ?; apply Hshift, Hiff|].
              apply Hhere; [|done]. intros [?|[?|[?|[_ (brow' & Hb' & Hn)]]]] _; try lia.
              rewrite Hbrow in Hb'. injection Hb' as <-. done.
        -- exists b. split; [done|]. split; [by intros ?; apply Hshift, Hiff|].
           apply Hhere; [|done]. intros [?|[?|[?|[? _]]]] _; lia.
    + apply strict_ne_false in Hocc. exists b. split; [done|].
      split; [by intros ?; apply Hshift, Hiff|]. apply Hhere; [|done]. done.
Qed.

Lemma checkCollisionRows_spec piecePos (boardState : Board) rows y0 :
  (Z.to_nat BOARD_HEIGHT <= length boardState)%nat →
  ∃ b, checkCollisionRows piecePos boardState rows y0 = Ret b ∧
    (b = true ↔ ∃ i c, occupied rows i c ∧
       cellCollides boardState (Pos.x piecePos + Z.of_nat c)
                               (Pos.y piecePos + Z.of_nat (y0 + i))).
Proof.
  intros Hlen. revert y0. induction rows as [|row rest IH]; intros y0.
  - exists false. split; [done|]. split; [done|].
    by intros (i & c & (r & v & Hr & _) & _).
  - destruct (checkCollisionRow_spec piecePos boardState y0 row 0 Hlen)
      as (b1 & Hb1 & Hiff1).
    destruct (IH (S y0)) as (b2 & Hb2 & Hiff2).
    simpl. rewrite Hb1. simpl. destruct b1.
    + exists true. split; [done|]. split; [|done]. intros _.
      destruct Hiff1 as [Hiff1 _]. destruct (Hiff1 eq_refl) as (j & v & Hj & Hv & Hc).
      exists 0%nat, j. split; [by exists row, v|].
      by replace (y0 + 0)%nat with y0 by lia.
    + exists b2. split; [done|]. rewrite Hiff2. split.
      * intros (i & c & (r & v & Hr & Hv & Hne) & Hc). exists (S i), c.
        split; [by exists r, v|].
        by replace (y0 + S i)%nat with (S y0 + i)%nat by lia.
      * intros (i & c & (r & v & Hr & Hv & Hne) & Hc). destruct i as [|i].
        -- simpl in Hr. injection Hr as <-.
           assert (false = true); [|done]. apply Hiff1. exists c, v.
           split; [done|]. split; [done|].
           by replace (y0 + 0)%nat with y0 in Hc by lia.
        -- exists i, c. split; [by exists r, v|].
           by replace (S y0 + i)%nat with (y0 + S i)%nat by lia.
Qed.

(** C1. On a board that has its [BOARD_HEIGHT] rows [checkCollision] returns [true]
    exactly when some occupied cell of the shape, at relative offset
    (column [c], row [r]), has [x + c] outside [0, 10), or [y + r >= 20], or
    [y + r >= 0] with a non-empty board cell there.  In particular a shape
    whose occupied cells all lie above the board (negative absolute row)
    within the horizontal bounds never collides: neither the vertical bound
    nor the board contents are consulted for such cells. *)
Theorem checkCollision_iff (piecePos : Pos) (pieceShape : TetrominoShape)
    (boardState : Board) :
  (Z.to_nat BOARD_HEIGHT <= length boardState)%nat →
  (∃ b, checkCollision piecePos pieceShape boardState = Ret b ∧
     (b = true ↔ ∃ r c, occupied pieceShape r c ∧
        (Pos.x piecePos + Z.of_nat c < 0 ∨
         Pos.x piecePos + Z.of_nat c >= 10 ∨
         Pos.y piecePos + Z.of_nat r >= 20 ∨
         (Pos.y piecePos + Z.of_nat r >= 0 ∧
          nonEmptyAt boardState (Pos.x piecePos + Z.of_nat c)
                                (Pos.y piecePos + Z.of_nat r))))) ∧
  ((∀ r c, occupied pieceShape r c →
      Pos.y piecePos + Z.of_nat r < 0 ∧ 0 <= Pos.x piecePos + Z.of_nat c < 10) →
   checkCollision piecePos pieceShape boardState = Ret false).
Proof.
  intros Hlen.
  destruct (checkCollisionRows_spec piecePos boardState pieceShape 0 Hlen)
    as (b & Hb & Hiff).
  fold (checkCollision piecePos pieceShape boardState) in Hb.
  split.
  - exists b. split; [done|]. rewrite Hiff. unfold cellCollides, BOARD_WIDTH, BOARD_HEIGHT.
    split; intros (r & c & Ho & Hc); exists r, c; (split; [done|]);
      by replace (0 + r)%nat with r in * by lia.
  - intros Habove. rewrite Hb. f_equal. destruct b; [|done].
    destruct Hiff as [Hiff _]. destruct (Hiff eq_refl) as (r & c & Ho & Hc).
    destruct (Habove r c Ho) as [Hy Hx]. replace (0 + r)%nat with r in Hc by lia.
    unfold cellCollides, BOARD_WIDTH, BOARD_HEIGHT in Hc.
    destruct Hc as [?|[?|[?|[? _]]]]; lia.
Qed.

(** ** Clearing rows *)

Lemma isFull_true row : isFull row = true ↔ rowFull row.
Proof.
  unfold isFull, rowFull. induction row as [|c row IH]; simpl.
  - split; [by constructor|done].
  - rewrite andb_true_iff, Forall_cons, IH, strict_ne_true. done.
Qed.

Lemma isFull_false row : isFull row = false ↔ ¬ rowFull row.
Proof. rewrite <- isFull_true. by destruct (isFull row). Qed.

Lemma filterFull_spec (rows : Board) (n : nat) :
  filterFull rows n =
    (filter (λ row, ¬ rowFull row) rows, (n + length (filter rowFull rows))%nat).
Proof.
  revert n. induction rows as [|row rest IH]; intros n; simpl.
  - f_equal. lia.
  - destruct (isFull row) eqn:Hf.
    + apply isFull_true in Hf. rewrite IH.
      rewrite (filter_cons_True rowFull) by done.
      rewrite (filter_cons_False (λ row, ¬ rowFull row)) by (by intros ?).
      simpl. f_equal. lia.
    + apply isFull_false in Hf. rewrite IH.
      rewrite (filter_cons_False rowFull) by done.
      by rewrite (filter_cons_True (λ row, ¬ rowFull row)) by done.
Qed.

Lemma unshiftEmptyRows_unfold (fuel : nat) (b : Board) :
  unshiftEmptyRows fuel b =
    if Z.of_nat (length b) <? BOARD_HEIGHT then
      match fuel with
      | 0%nat => Diverge
      | S fuel' => unshiftEmptyRows fuel' (emptyRow :: b)
      end
    else Ret b.
Proof. by destruct fuel. Qed.

Lemma unshiftEmptyRows_spec (fuel : nat) (kept : Board) :
  (Z.to_nat BOARD_HEIGHT - length kept <= fuel)%nat →
  unshiftEmptyRows fuel kept =
    Ret (replicate (Z.to_nat BOARD_HEIGHT - length kept) emptyRow ++ kept).
Proof.
  revert kept. induction fuel as [|fuel IH]; intros kept Hfuel;
    rewrite unshiftEmptyRows_unfold; destruct (_ <? _) eqn:Hlt;
    try apply Z.ltb_lt in Hlt; try apply Z.ltb_ge in Hlt.
  - lia.
  - by replace (Z.to_nat BOARD_HEIGHT - length kept)%nat with 0%nat by lia.
  - rewrite IH by (rewrite length_cons; lia). rewrite length_cons.
    replace (Z.to_nat BOARD_HEIGHT - length kept)%nat
      with (S (Z.to_nat BOARD_HEIGHT - S (length kept)))%nat by lia.
    f_equal. rewrite replicate_S_end. by rewrite <- app_assoc.
  - by replace (Z.to_nat BOARD_HEIGHT - length kept)%nat with 0%nat by lia.
Qed.

Lemma filter_split_length (rows : Board) :
  (length (filter rowFull rows) + length (filter (λ row, ¬ rowFull row) rows)
   = length rows)%nat.
Proof.
  induction rows as [|row rest IH]; [done|].
  destruct (decide (rowFull row)).
  - rewrite (filter_cons_True rowFull) by done.
    rewrite (filter_cons_False (λ row, ¬ rowFull row)) by (by intros ?).
    simpl. lia.
  - rewrite (filter_cons_False rowFull) by done.
    rewrite (filter_cons_True (λ row, ¬ rowFull row)) by done.
    simpl. lia.
Qed.

Lemma clearRows_eq (b : Board) :
  clearRows b =
    Ret (replicate (Z.to_nat BOARD_HEIGHT - length (filter (λ row, ¬ rowFull row) b))
           emptyRow ++ filter (λ row, ¬ rowFull row) b,
         length (filter rowFull b)).
Proof.
  unfold clearRows. rewrite filterFull_spec. cbv beta iota.
  rewrite unshiftEmptyRows_spec by lia. done.
Qed.

(** C2. On a board of 20 rows the clear step removes exactly the full rows
    (every cell non-empty), reports their number as [linesCleared], and
    returns that many empty rows followed by the remaining rows in their
    original order, 20 rows in all; with no full row the board comes back
    unchanged with [linesCleared = 0]. *)
Theorem clearRows_spec (nextBoardState : Board) :
  length nextBoardState = Z.to_nat BOARD_HEIGHT →
  ∃ finalBoard linesCleared,
    clearRows nextBoardState = Ret (finalBoard, linesCleared) ∧
    linesCleared = length (filter rowFull nextBoardState) ∧
    finalBoard = replicate linesCleared (replicate 10%nat null)
                   ++ filter (λ row, ¬ rowFull row) nextBoardState ∧
    length finalBoard = 20%nat ∧
    (Forall (λ row, ¬ rowFull row) nextBoardState →
     finalBoard = nextBoardState ∧ linesCleared = 0%nat).
Proof.
  intros Hlen. pose proof (filter_split_length nextBoardState) as Hsplit.
  eexists _, _. split; [apply clearRows_eq|].
  assert (Hn : (Z.to_nat BOARD_HEIGHT
                - length (filter (λ row, ¬ rowFull row) nextBoardState))%nat
               = length (filter rowFull nextBoardState)) by lia.
  rewrite Hn. split; [done|]. split; [done|]. split.
  - rewrite length_app, length_replicate. unfold BOARD_HEIGHT in *. lia.
  - intros Hnone.
    assert (Hall : filter (λ row, ¬ rowFull row) nextBoardState = nextBoardState).
    { clear -Hnone. induction Hnone as [|row rest Hrow _ IH]; [done|].
      rewrite filter_cons_True by done. by rewrite IH. }
    rewrite Hall in Hsplit |- *.
    assert (H0 : length (filter rowFull nextBoardState) = 0%nat) by lia.
    by rewrite H0.
Qed.

Lemma clearRows_length (b finalBoard : Board) (n : nat) :
  clearRows b = Ret (finalBoard, n) →
  (Z.to_nat BOARD_HEIGHT <= length finalBoard)%nat ∧
  (length b <= Z.to_nat BOARD_HEIGHT → length finalBoard = Z.to_nat BOARD_HEIGHT)%nat.
Proof.
  rewrite clearRows_eq. intros [= <- <-].
  rewrite length_app, length_replicate.
  pose proof (filter_split_length b). lia.
Qed.

Lemma checkCollision_total piecePos pieceShape (boardState : Board) :
  (Z.to_nat BOARD_HEIGHT <= length boardState)%nat →
  ∃ b, checkCollision piecePos pieceShape boardState = Ret b.
Proof.
  intros Hlen.
  destruct (checkCollisionRows_spec piecePos boardState pieceShape 0 Hlen)
    as (b & Hb & _).
  by exists b.
Qed.

(** ** Scoring *)

Lemma updateStats_score cl (n : nat) st (z : Z) :
  (n <= 4)%nat → score st = Int z →
  score (updateStats cl n st) = Int (z + spec_multiplier n * level cl).
Proof.
  intros Hn Hz. unfold updateStats.
  destruct n as [|[|[|[|[|n]]]]]; simpl; rewrite ?Hz; try (f_equal; lia).
Qed.

Lemma spawnNext_stats cl finalBoard draw st st' :
  spawnNext cl finalBoard draw st = Ret st' →
  score st' = score st ∧ lines st' = lines st ∧ level st' = level st ∧
  board st' = board st ∧ isPaused st' = isPaused st.
Proof.
  unfold spawnNext. destruct (_ !! 0%nat); [|done].
  destruct (checkCollision _ _ _) as [[]| |]; simpl; intros [= <-]; done.
Qed.

Lemma processBoardUpdate_total cl (nextBoardState : Board) draw st :
  Tetromino.shape (nextPiece cl) ≠ [] →
  ∃ st', processBoardUpdate cl nextBoardState draw st = Ret st'.
Proof.
  intros Hne. unfold processBoardUpdate.
  destruct (clearRows nextBoardState) as [[finalBoard n]| |] eqn:Hclear;
    [|by rewrite clearRows_eq in Hclear..].
  apply clearRows_length in Hclear as [Hlen _]. simpl.
  unfold spawnNext.
  destruct (Tetromino.shape (nextPiece cl)) as [|row0 rest] eqn:Hshape; [done|].
  simpl.
  edestruct checkCollision_total as [hit Hhit]; [exact Hlen|].
  rewrite Hhit. simpl. destruct hit; eauto.
Qed.

(** The scoring rule in the full variant: a lock-and-clear event that clears
    [linesCleared] in {0,..,4} rows raises the score by exactly
    [multiplier linesCleared * L], where [L] is the level of the closure and
    the multipliers are 0, 100, 300, 500 and 800; a lock that clears no
    row adds nothing. *)
Theorem processBoardUpdate_score (cl : Session) (nextBoardState : Board)
    (draw : TetrominoType) (st : Session) (z : Z) :
  let linesCleared := length (filter rowFull nextBoardState) in
  (linesCleared <= 4)%nat →
  score st = Int z →
  Tetromino.shape (nextPiece cl) ≠ [] →
  ∃ st', processBoardUpdate cl nextBoardState draw st = Ret st' ∧
    score st' = Int (z + spec_multiplier linesCleared * level cl) ∧
    (linesCleared = 0%nat → score st' = score st).
Proof.
  intros linesCleared Hn Hz Hne.
  destruct (processBoardUpdate_total cl nextBoardState draw st Hne) as [st' Hst'].
  exists st'. split; [done|].
  unfold processBoardUpdate in Hst'. rewrite clearRows_eq in Hst'. simpl in Hst'.
  apply spawnNext_stats in Hst' as (Hs & _). simpl in Hs.
  fold linesCleared in Hs. rewrite Hs.
  rewrite (updateStats_score cl linesCleared st z Hn Hz). split; [done|].
  intros H0. rewrite H0, Hz. simpl. f_equal. lia.
Qed.

(** ** Spawning and game over *)

(** The spawn collision in the full variant: when the piece spawned after a
    lock-and-clear cycle collides with the freshly cleared board, the
    session goes to game over and the spawn attempt changes nothing else:
    the board is the freshly cleared one and is what the display shows from
    then on, the active and the queued piece stay, the pause flag stays, and
    score, lines and level are those the clear left. *)
Theorem processBoardUpdate_game_over (cl : Session) (nextBoardState : Board)
    (draw : TetrominoType) (st : Session) (finalBoard : Board) (n : nat)
    (row0 : list value) :
  clearRows nextBoardState = Ret (finalBoard, n) →
  Tetromino.shape (nextPiece cl) !! 0%nat = Some row0 →
  checkCollision (spawnPos row0) (Tetromino.shape (nextPiece cl)) finalBoard
    = Ret true →
  ∃ st', processBoardUpdate cl nextBoardState draw st = Ret st' ∧
    st' = setGameStarted false
            (setGameOver true (setBoard finalBoard (updateStats cl n st))) ∧
    gameOver st' = true ∧ gameStarted st' = false ∧
    board st' = finalBoard ∧
    currentPiece st' = currentPiece st ∧ nextPiece st' = nextPiece st ∧
    isPaused st' = isPaused st ∧
    score st' = score (updateStats cl n st) ∧
    lines st' = lines (updateStats cl n st) ∧
    level st' = level (updateStats cl n st) ∧
    getDisplayBoard st' = Ret finalBoard.
Proof.
  intros Hclear Hrow Hhit. eexists. split.
  - unfold processBoardUpdate. rewrite Hclear. simpl.
    unfold spawnNext. rewrite Hrow. simpl. rewrite Hhit. simpl. reflexivity.
  - split; [done|]. unfold updateStats, getDisplayBoard.
    destruct (0 <? n)%nat; simpl; done.
Qed.

Lemma spawnNext_position cl (finalBoard : Board) draw st row0 :
  Tetromino.shape (nextPiece cl) !! 0%nat = Some row0 →
  checkCollision (spawnPos row0) (Tetromino.shape (nextPiece cl)) finalBoard
    = Ret false →
  ∃ st', spawnNext cl finalBoard draw st = Ret st' ∧
    Piece.pos (currentPiece st') =
      Pos.mk (10 / 2 - Z.of_nat (length row0) / 2) 0 ∧
    Piece.shape (currentPiece st') = Tetromino.shape (nextPiece cl).
Proof.
  intros Hrow Hhit. unfold spawnNext. rewrite Hrow. simpl. rewrite Hhit.
  eexists. split; [done|]. done.
Qed.

(** C8, the failing input.  [startGame] places every piece at column
    [floor(10/2) - 1 = 4]; for the I piece, whose bounding box is 4 wide,
    the formula [floor(10/2) - floor(shapeWidth/2)] gives column 3, which is
    where [processBoardUpdate] spawns the same piece. *)
Theorem startGame_spawn_I (next : TetrominoType) (st : Session) :
  let s := startGame TetrominoType.I next st in
  Piece.pos (currentPiece s) = Pos.mk 4 0 ∧
  (∃ row0, Piece.shape (currentPiece s) !! 0%nat = Some row0 ∧
     length row0 = 4%nat ∧
     10 / 2 - Z.of_nat (length row0) / 2 = 3 ∧
     spawnPos row0 = Pos.mk 3 0).
Proof.
  simpl. split; [done|]. eexists. split; [done|]. done.
Qed.

(** ** Rotation of the catalogue *)

(** C6. For every shape of the catalogue [rotateMatrix] is the transpose
    followed by the reversal of each row, which is a quarter turn clockwise
    (the cell at row [r], column [c] goes to row [c], column [n - 1 - r]),
    and four rotations in succession give the shape back. *)
Theorem rotateMatrix_catalogue (k : TetrominoType) :
  let matrix := (TETROMINOES k).1 in
  let n := length matrix in
  rotateMatrix matrix = Ret (spec_rotate matrix) ∧
  (∀ r c, (r < n)%nat → (c < n)%nat →
     cellAt (spec_rotate matrix) c (n - 1 - r) = cellAt matrix r c) ∧
  (r1 ← rotateMatrix matrix; r2 ← rotateMatrix r1; r3 ← rotateMatrix r2;
   rotateMatrix r3) = Ret matrix.
Proof.
  destruct k; (split; [reflexivity|split; [|reflexivity]]);
    intros r c Hr Hc; simpl in Hr, Hc;
    (destruct r as [|[|[|[|r]]]]; [..|lia]);
    (destruct c as [|[|[|[|c]]]]; [..|lia]);
    try lia; reflexivity.
Qed.

(** ** Wall kick *)



(** ** Locking a piece *)

Lemma index_writeAt (row : list value) (c c' : nat) (v : value) :
  index (writeAt row c v) c' = if decide (c' = c) then v else index row c'.
Proof.
  unfold index, writeAt. destruct (c <? length row)%nat eqn:Hlt.
  - apply Nat.ltb_lt in Hlt. destruct (decide (c' = c)) as [->|Hne].
    + by rewrite list_lookup_insert_eq.
    + by rewrite list_lookup_insert_ne.
  - apply Nat.ltb_ge in Hlt. destruct (decide (c' = c)) as [->|Hne].
    + rewrite lookup_app_r by done. rewrite lookup_app_r
        by (rewrite length_replicate; lia).
      rewrite length_replicate. by replace (c - length row - (c - length row))%nat
        with 0%nat by lia.
    + destruct (decide (c' < length row)%nat) as [Hin|Hout].
      * by rewrite lookup_app_l.
      * rewrite (lookup_ge_None_2 row c') by lia.
        rewrite lookup_app_r by lia.
        destruct (decide (c' < c)%nat) as [Hmid|Hpast].
        -- rewrite lookup_app_l by (rewrite length_replicate; lia).
           rewrite lookup_replicate_2 by lia. done.
        -- rewrite lookup_ge_None_2; [done|].
           rewrite length_app, length_replicate. simpl. lia.
Qed.

Lemma updateCell_cellAt (f : value → value) (b b' : Board) (r c : nat) :
  updateCell f b r c = Ret b' →
  length b' = length b ∧
  ∀ r' c', cellAt b' r' c' =
    if bool_decide (r = r') && bool_decide (c = c') then f (cellAt b r c)
    else cellAt b r' c'.
Proof.
  unfold updateCell. destruct (b !! r) as [row|] eqn:Hrow; [|done].
  intros [= <-]. split; [by rewrite length_insert|].
  intros r' c'. unfold cellAt. rewrite Hrow.
  destruct (decide (r = r')) as [<-|Hr].
  - rewrite bool_decide_eq_true_2 by done.
    rewrite list_lookup_insert_eq by (by eapply lookup_lt_Some).
    rewrite index_writeAt. simpl.
    destruct (decide (c' = c)) as [->|Hc].
    + by rewrite bool_decide_eq_true_2.
    + rewrite bool_decide_eq_false_2 by done. by rewrite Hrow.
  - rewrite bool_decide_eq_false_2 by done. simpl.
    by rewrite list_lookup_insert_ne.
Qed.

Lemma updateCell_total (f : value → value) (b : Board) (Y X : Z) :
  (Z.to_nat BOARD_HEIGHT <= length b)%nat → onBoard Y X = true →
  ∃ b', updateCell f b (Z.to_nat Y) (Z.to_nat X) = Ret b'.
Proof.
  intros Hlen Hon. unfold onBoard in Hon. rewrite !andb_true_iff in Hon.
  destruct Hon as [[[H1 H2] _] _].
  destruct (board_row_exists b Y Hlen) as [row Hrow]; [lia|].
  unfold updateCell. rewrite Hrow. eauto.
Qed.

Lemma paintRow_const (v : value) (px py : Z) (y0 : nat) (row : list value)
    (x0 : nat) (b : Board) :
  (Z.to_nat BOARD_HEIGHT <= length b)%nat →
  ∃ b', forEachCellRow (updateCell (λ _, v)) px py y0 row x0 b = Ret b' ∧
    length b' = length b ∧
    ∀ r c, cellAt b' r c =
      if coveredRow px py y0 row x0 r c then v else cellAt b r c.
Proof.
  revert x0 b. induction row as [|cell rest IH]; intros x0 b Hlen.
  - exists b. done.
  - simpl. fold (onBoard (py + Z.of_nat y0) (px + Z.of_nat x0)).
    destruct (strict_ne cell (num 0)); simpl; [|by apply IH].
    destruct (onBoard _ _) eqn:Hon; simpl; [|by apply IH].
    destruct (updateCell_total (λ _, v) b _ _ Hlen Hon) as [b1 Hb1].
    rewrite Hb1. simpl.
    apply updateCell_cellAt in Hb1 as [Hlen1 Hcell1].
    destruct (IH (S x0) b1) as (b' & Hb' & Hlen' & Hcell'); [lia|].
    exists b'. split; [done|]. split; [lia|].
    intros r c. rewrite Hcell', Hcell1.
    destruct (coveredRow _ _ _ rest _ _ _); [by rewrite orb_true_r|].
    by rewrite orb_false_r.
Qed.

Lemma paintRows_const (v : value) (px py : Z) (rows : TetrominoShape)
    (y0 : nat) (b : Board) :
  (Z.to_nat BOARD_HEIGHT <= length b)%nat →
  ∃ b', forEachCellRows (updateCell (λ _, v)) px py rows y0 b = Ret b' ∧
    length b' = length b ∧
    ∀ r c, cellAt b' r c =
      if coveredRows px py rows y0 r c then v else cellAt b r c.
Proof.
  revert y0 b. induction rows as [|row rest IH]; intros y0 b Hlen.
  - exists b. done.
  - simpl.
    destruct (paintRow_const v px py y0 row 0 b Hlen) as (b1 & Hb1 & Hlen1 & Hcell1).
    rewrite Hb1. simpl.
    destruct (IH (S y0) b1) as (b' & Hb' & Hlen' & Hcell'); [lia|].
    exists b'. split; [done|]. split; [lia|].
    intros r c. rewrite Hcell', Hcell1.
    destruct (coveredRow _ _ _ _ _ _ _); simpl; [|done].
    by destruct (coveredRows _ _ _ _ _ _).
Qed.

Lemma onBoard_true (Y X : Z) :
  onBoard Y X = true ↔ 0 <= Y < 20 ∧ 0 <= X < 10.
Proof.
  unfold onBoard, BOARD_HEIGHT, BOARD_WIDTH. rewrite !andb_true_iff. lia.
Qed.

Lemma coveredRow_true px py y0 row x0 r c :
  coveredRow px py y0 row x0 r c = true ↔
  ∃ j cell, row !! j = Some cell ∧ cell ≠ num 0 ∧
    Z.of_nat r = py + Z.of_nat y0 ∧ Z.of_nat c = px + Z.of_nat (x0 + j) ∧
    0 <= Z.of_nat r < 20 ∧ 0 <= Z.of_nat c < 10.
Proof.
  revert x0. induction row as [|cell rest IH]; intros x0; simpl.
  - split; [done|]. by intros (j & v & ? & _).
  - rewrite orb_true_iff, !andb_true_iff, strict_ne_true, onBoard_true,
      !bool_decide_eq_true, IH.
    split.
    + intros [(((Hne & HY & HX) & Hr) & Hc)|(j & v & Hj & Hv & Hr & Hc & Hb)].
      * exists 0%nat, cell. split; [done|]. split; [done|]. lia.
      * exists (S j), v. split; [done|]. split; [done|]. lia.
    + intros (j & v & Hj & Hv & Hr & Hc & Hb1 & Hb2). destruct j as [|j].
      * left. simpl in Hj. injection Hj as ->. split; [|lia].
        split; [|lia]. split; [done|]. lia.
      * right. exists j, v. split; [done|]. split; [done|]. lia.
Qed.

Lemma coveredRows_true px py rows y0 r c :
  coveredRows px py rows y0 r c = true ↔
  ∃ i j, occupied rows i j ∧
    Z.of_nat r = py + Z.of_nat (y0 + i) ∧ Z.of_nat c = px + Z.of_nat j ∧
    0 <= Z.of_nat r < 20 ∧ 0 <= Z.of_nat c < 10.
Proof.
  revert y0. induction rows as [|row rest IH]; intros y0; simpl.
  - split; [done|]. by intros (i & j & (? & ? & ? & _) & _).
  - rewrite orb_true_iff, coveredRow_true, IH. split.
    + intros [(j & v & Hj & Hv & Hr & Hc & Hb)|(i & j & (rw & v & Hi & Hj & Hv) & Hr & Hc & Hb)].
      * exists 0%nat, j. split; [by exists row, v|].
        split; [lia|]. split; [lia|]. done.
      * exists (S i), j. split; [by exists rw, v|]. split; [lia|]. done.
    + intros (i & j & (rw & v & Hi & Hj & Hv) & Hr & Hc & Hb). destruct i as [|i].
      * left. simpl in Hi. injection Hi as <-. exists j, v.
        split; [done|]. split; [done|]. split; [lia|]. split; [lia|]. done.
      * right. exists i, j. split; [by exists rw, v|]. split; [lia|]. done.
Qed.

Lemma covered_decide pieceShape px py r c :
  coveredRows px py pieceShape 0 r c = true ↔ covered pieceShape px py r c.
Proof. rewrite coveredRows_true. unfold covered. done. Qed.

(** *** The store *)

Lemma deref_Forall2 (h : store) (bref : list loc) (b : Board) :
  deref h bref = Some b ↔ Forall2 (λ l row, h !! l = Some row) bref b.
Proof. unfold deref. apply mapM_Some. Qed.

Lemma deref_app (h h' : store) (bref : list loc) (b : Board) :
  deref h bref = Some b → deref (h ++ h') bref = Some b.
Proof.
  rewrite !deref_Forall2. intros H. eapply Forall2_impl; [exact H|].
  intros l row Hl. by apply lookup_app_l_Some.
Qed.

Lemma deref_fresh (h : store) (b : Board) :
  deref (h ++ b) (seq (length h) (length b)) = Some b.
Proof.
  apply deref_Forall2. apply Forall2_lookup. intros i.
  destruct (decide (i < length b)%nat) as [Hi|Hi].
  - rewrite lookup_seq_lt by done.
    destruct (lookup_lt_is_Some_2 b i Hi) as [row Hrow]. rewrite Hrow.
    constructor. rewrite lookup_app_r by lia.
    by replace (length h + i - length h)%nat with i by lia.
  - rewrite lookup_seq_ge by lia. rewrite lookup_ge_None_2 by lia. constructor.
Qed.

Lemma copyRows_spec (h : store) (bref : list loc) (b : Board) :
  deref h bref = Some b →
  copyRows h bref = Ret (h ++ b, seq (length h) (length b)).
Proof.
  revert h b. induction bref as [|l rest IH]; intros h b Hd.
  - apply deref_Forall2 in Hd. inversion Hd; subst. simpl. by rewrite app_nil_r.
  - pose proof Hd as Hd'. apply deref_Forall2 in Hd'. inversion Hd' as [|? row ? b0 Hl Hrest]; subst.
    apply deref_Forall2 in Hrest. simpl. rewrite Hl.
    rewrite (IH (h ++ [row]) b0) by (by apply deref_app). simpl.
    rewrite <- app_assoc. simpl. rewrite length_app. simpl.
    by replace (length h + 1)%nat with (S (length h)) by lia.
Qed.

Lemma updateCellH_fresh (f : value → value) (h0 : store) (b : Board) (r c : nat) :
  updateCellH f (seq (length h0) (length b)) (h0 ++ b) r c
  = (λ b', h0 ++ b') <$> updateCell f b r c.
Proof.
  unfold updateCellH, updateCell.
  destruct (b !! r) as [row|] eqn:Hrow.
  - pose proof (lookup_lt_Some _ _ _ Hrow) as Hlt.
    rewrite lookup_seq_lt by done. rewrite lookup_app_r by lia.
    replace (length h0 + r - length h0)%nat with r by lia. rewrite Hrow.
    simpl. f_equal. rewrite insert_app_r_alt by lia.
    by replace (length h0 + r - length h0)%nat with r by lia.
  - apply lookup_ge_None_1 in Hrow. by rewrite lookup_seq_ge by lia.
Qed.

Lemma forEachCellRow_fresh (f : value → value) (h0 : store) (n : nat) px py y0
    (row : list value) x0 (b : Board) :
  length b = n →
  forEachCellRow (updateCellH f (seq (length h0) n)) px py y0 row x0 (h0 ++ b)
  = (λ b', h0 ++ b') <$> forEachCellRow (updateCell f) px py y0 row x0 b
  ∧ ∀ b', forEachCellRow (updateCell f) px py y0 row x0 b = Ret b' → length b' = n.
Proof.
  revert x0 b. induction row as [|cell rest IH]; intros x0 b Hn.
  - split; [done|]. by intros b' [= <-].
  - simpl. destruct (strict_ne cell (num 0)); [|by apply IH].
    destruct (_ && _); [|by apply IH].
    rewrite <- Hn at 1. rewrite updateCellH_fresh.
    destruct (updateCell f b _ _) as [b1| |] eqn:Hb1; simpl; [|done..].
    apply updateCell_cellAt in Hb1 as [Hlen1 _].
    apply IH. lia.
Qed.

Lemma forEachCellRows_fresh (f : value → value) (h0 : store) (n : nat) px py
    (rows : TetrominoShape) y0 (b : Board) :
  length b = n →
  forEachCellRows (updateCellH f (seq (length h0) n)) px py rows y0 (h0 ++ b)
  = (λ b', h0 ++ b') <$> forEachCellRows (updateCell f) px py rows y0 b
  ∧ ∀ b', forEachCellRows (updateCell f) px py rows y0 b = Ret b' → length b' = n.
Proof.
  revert y0 b. induction rows as [|row rest IH]; intros y0 b Hn.
  - split; [done|]. by intros b' [= <-].
  - simpl. destruct (forEachCellRow_fresh f h0 n px py y0 row 0 b Hn) as [Heq Hlen].
    rewrite Heq.
    destruct (forEachCellRow (updateCell f) px py y0 row 0 b) as [b1| |]; simpl;
      [|done..].
    apply IH. by apply Hlen.
Qed.



(** ** Falling to the landing row *)

Lemma checkCollision_spec piecePos pieceShape (boardState : Board) :
  (Z.to_nat BOARD_HEIGHT <= length boardState)%nat →
  ∃ b, checkCollision piecePos pieceShape boardState = Ret b ∧
    (b = true ↔ ∃ r c, occupied pieceShape r c ∧
       cellCollides boardState (Pos.x piecePos + Z.of_nat c)
                               (Pos.y piecePos + Z.of_nat r)).
Proof.
  intros Hlen.
  destruct (checkCollisionRows_spec piecePos boardState pieceShape 0 Hlen)
    as (b & Hb & Hiff).
  exists b. split; [done|]. rewrite Hiff.
  split; intros (r & c & Ho & Hc); exists r, c; (split; [done|]);
    by replace (0 + r)%nat with r in * by lia.
Qed.

(** A piece that does not collide has all its occupied cells above the floor. *)
Lemma checkCollision_false_above_floor piecePos pieceShape (boardState : Board) r c :
  (Z.to_nat BOARD_HEIGHT <= length boardState)%nat →
  checkCollision piecePos pieceShape boardState = Ret false →
  occupied pieceShape r c →
  Pos.y piecePos + Z.of_nat r < BOARD_HEIGHT.
Proof.
  intros Hlen Hfree Hocc.
  destruct (checkCollision_spec piecePos pieceShape boardState Hlen)
    as (b & Hb & Hiff).
  rewrite Hfree in Hb. injection Hb as <-.
  destruct (decide (Pos.y piecePos + Z.of_nat r < BOARD_HEIGHT)); [done|].
  assert (false = true); [|done]. apply Hiff. exists r, c. split; [done|].
  right; right; left. lia.
Qed.

Lemma fallWhileFree_spec (fuel : nat) (boardState : Board) pieceShape px cy landed :
  fallWhileFree fuel boardState pieceShape px cy = Ret landed →
  ∃ dy, 0 <= dy ∧ landed = cy + dy ∧
    checkCollision (Pos.mk px (cy + dy + 1)) pieceShape boardState = Ret true ∧
    ∀ k, 1 <= k <= dy →
      checkCollision (Pos.mk px (cy + k)) pieceShape boardState = Ret false.
Proof.
  revert cy. induction fuel as [|fuel IH]; intros cy; simpl; [done|].
  destruct (checkCollision (Pos.mk px (cy + 1)) pieceShape boardState)
    as [[]| |] eqn:Hhit; simpl; [|  |done..].
  - intros [= <-]. exists 0. split; [lia|]. split; [lia|].
    split; [by replace (cy + 0 + 1) with (cy + 1) by lia|]. lia.
  - intros Hrec. destruct (IH _ Hrec) as (dy & Hdy & -> & Hcol & Hfree).
    exists (dy + 1). split; [lia|]. split; [lia|]. split.
    + by replace (cy + (dy + 1) + 1) with (cy + 1 + dy + 1) by lia.
    + intros k Hk. destruct (decide (k = 1)) as [->|Hne]; [done|].
      replace (cy + k) with (cy + 1 + (k - 1)) by lia. apply Hfree. lia.
Qed.

Lemma fallWhileFree_total (boardState : Board) pieceShape px r c :
  (Z.to_nat BOARD_HEIGHT <= length boardState)%nat →
  occupied pieceShape r c →
  ∀ fuel cy, (Z.to_nat (BOARD_HEIGHT - cy) < fuel)%nat →
    ∃ landed, fallWhileFree fuel boardState pieceShape px cy = Ret landed.
Proof.
  intros Hlen Hocc. induction fuel as [|fuel IH]; intros cy Hfuel; [lia|].
  simpl.
  destruct (checkCollision_total (Pos.mk px (cy + 1)) pieceShape boardState Hlen)
    as [hit Hhit].
  rewrite Hhit. simpl. destruct hit; [by eexists|].
  pose proof (checkCollision_false_above_floor _ _ _ r c Hlen Hhit Hocc) as Hfloor.
  simpl in Hfloor. apply IH. lia.
Qed.

Lemma landingRow_spec (boardState : Board) pieceShape px py r c :
  (Z.to_nat BOARD_HEIGHT <= length boardState)%nat →
  occupied pieceShape r c →
  ∃ dy, 0 <= dy ∧ landingRow boardState pieceShape px py = Ret (py + dy) ∧
    checkCollision (Pos.mk px (py + dy + 1)) pieceShape boardState = Ret true ∧
    ∀ k, 1 <= k <= dy →
      checkCollision (Pos.mk px (py + k)) pieceShape boardState = Ret false.
Proof.
  intros Hlen Hocc. unfold landingRow.
  destruct (fallWhileFree_total boardState pieceShape px r c Hlen Hocc
              (fallFuel py) py) as [landed Hland]; [unfold fallFuel; lia|].
  destruct (fallWhileFree_spec _ _ _ _ _ _ Hland) as (dy & Hdy & -> & Hcol & Hfree).
  exists dy. by rewrite Hland.
Qed.

(** The fuel of [landingRow] is enough: whenever the loop leaves with some
    fuel, [landingRow] gives the same row. *)
Lemma landingRow_adequate (fuel : nat) (boardState : Board) pieceShape px py landed :
  (Z.to_nat BOARD_HEIGHT <= length boardState)%nat →
  fallWhileFree fuel boardState pieceShape px py = Ret landed →
  landingRow boardState pieceShape px py = Ret landed.
Proof.
  intros Hlen Hland.
  destruct (fallWhileFree_spec _ _ _ _ _ _ Hland) as (dy & Hdy & -> & Hcol & Hfree).
  destruct (checkCollision_spec (Pos.mk px (py + dy + 1)) pieceShape boardState Hlen)
    as (b & Hb & Hiff).
  rewrite Hcol in Hb. injection Hb as <-.
  destruct Hiff as [Hiff _]. destruct (Hiff eq_refl) as (r & c & Hocc & _).
  destruct (landingRow_spec boardState pieceShape px py r c Hlen Hocc)
    as (dy' & Hdy' & Hland' & Hcol' & Hfree').
  rewrite Hland'. do 2 f_equal.
  destruct (Z.lt_trichotomy dy dy') as [Hlt|[Heq|Hgt]]; [|done|].
  - specialize (Hfree' (dy + 1)).
    replace (py + (dy + 1)) with (py + dy + 1) in Hfree' by lia.
    rewrite Hfree' in Hcol by lia. done.
  - specialize (Hfree (dy' + 1)).
    replace (py + (dy' + 1)) with (py + dy' + 1) in Hfree by lia.
    rewrite Hfree in Hcol' by lia. done.
Qed.

Lemma paintRow_total (f : value → value) px py y0 (row : list value) x0 (b : Board) :
  (Z.to_nat BOARD_HEIGHT <= length b)%nat →
  ∃ b', forEachCellRow (updateCell f) px py y0 row x0 b = Ret b' ∧
    length b' = length b.
Proof.
  revert x0 b. induction row as [|cell rest IH]; intros x0 b Hlen.
  - by exists b.
  - simpl. fold (onBoard (py + Z.of_nat y0) (px + Z.of_nat x0)).
    destruct (strict_ne cell (num 0)); simpl; [|by apply IH].
    destruct (onBoard _ _) eqn:Hon; simpl; [|by apply IH].
    destruct (updateCell_total f b _ _ Hlen Hon) as [b1 Hb1].
    rewrite Hb1. simpl. apply updateCell_cellAt in Hb1 as [Hlen1 _].
    destruct (IH (S x0) b1) as (b' & Hb' & Hlen'); [lia|].
    exists b'. split; [done|]. lia.
Qed.

Lemma paintShape_total (f : value → value) (pieceShape : TetrominoShape) px py
    (b : Board) :
  (Z.to_nat BOARD_HEIGHT <= length b)%nat →
  ∃ b', paintShape f pieceShape px py b = Ret b' ∧ length b' = length b.
Proof.
  unfold paintShape. generalize 0%nat as y0. revert b.
  induction pieceShape as [|row rest IH]; intros b y0 Hlen.
  - by exists b.
  - simpl. destruct (paintRow_total f px py y0 row 0 b Hlen) as (b1 & Hb1 & Hlen1).
    rewrite Hb1. simpl. destruct (IH b1 (S y0)) as (b' & Hb' & Hlen'); [lia|].
    exists b'. split; [done|]. lia.
Qed.

(** The display painted in the store is the display painted on values, on
    fresh rows. *)
Lemma getDisplayBoardH_refines (h : store) (bref : list loc) (cl : Session) :
  deref h bref = Some (board cl) →
  getDisplayBoardH h bref cl
  = (λ d, (h ++ d, seq (length h) (length (board cl)))) <$> getDisplayBoard cl.
Proof.
  intros Hd. unfold getDisplayBoardH, getDisplayBoard, paintShape.
  rewrite (copyRows_spec h bref _ Hd). simpl.
  set (n := length (board cl)).
  assert (Hghost : ∀ (m : outcome Board),
    (∀ d, m = Ret d → length d = n) →
    ∀ (f : value → value) px py rows,
      (d ← (λ d, h ++ d) <$> m;
       h2 ← forEachCellRows (updateCellH f (seq (length h) n)) px py rows 0 d;
       Ret (h2, seq (length h) n))
      = (λ d, (h ++ d, seq (length h) n))
          <$> (d ← m; forEachCellRows (updateCell f) px py rows 0 d)).
  { intros m Hm f px py rows. destruct m as [d| |]; simpl; [|done..].
    destruct (forEachCellRows_fresh f h n px py rows 0 d (Hm d eq_refl)) as [Heq _].
    rewrite Heq. by destruct (forEachCellRows _ px py rows 0 d). }
  destruct (gameStarted cl && negb (gameOver cl) && negb (isPaused cl)) eqn:Hrun.
  - destruct (ghostY cl) as [gy| |]; simpl; [|done..].
    destruct (forEachCellRows_fresh
                (λ old, if falsy old then str ghostMarker else old) h n
                (Pos.x (Piece.pos (currentPiece cl))) gy
                (Piece.shape (currentPiece cl)) 0 (board cl) eq_refl)
      as [Heq Hlen].
    rewrite Heq.
    destruct (gameStarted cl && negb (gameOver cl)).
    + apply Hghost. exact Hlen.
    + by destruct (forEachCellRows _ _ gy _ 0 (board cl)).
  - destruct (gameStarted cl && negb (gameOver cl)).
    + apply (Hghost (Ret (board cl))). by intros d [= <-].
    + done.
Qed.

(** C9 (as amended). For a running session whose board has its rows and
    whose shape has an occupied cell, the ghost's row and the row at which a
    hard drop locks the piece are the same row [y + dy], where [dy >= 0] is
    the first offset at which the piece collides one row further down: the
    piece collides at [y + dy + 1] and at none of [y + 1], ..., [y + dy].
    Computing the display paints fresh rows only: the rows of the board, and
    every other array of the store, are left as they were, and no state
    update is queued. *)
Theorem ghost_agrees_with_hard_drop (cl : Session) (draw : TetrominoType)
    (r c : nat) (h : store) (bref : list loc) :
  blocked cl = false →
  (Z.to_nat BOARD_HEIGHT <= length (board cl))%nat →
  occupied (Piece.shape (currentPiece cl)) r c →
  deref h bref = Some (board cl) →
  let p := currentPiece cl in
  let px := Pos.x (Piece.pos p) in
  let py := Pos.y (Piece.pos p) in
  ∃ dy, 0 <= dy ∧
    ghostY cl = Ret (py + dy) ∧
    hardDrop cl draw cl =
      (lockedBoard ← mergePiece (board cl) (Piece.shape p) (Piece.color p)
                       px (py + dy);
       processBoardUpdate cl lockedBoard draw
         (setCurrentPiece
            (λ prev, withPos prev (Pos.mk (Pos.x (Piece.pos prev)) (py + dy))) cl)) ∧
    checkCollision (Pos.mk px (py + dy + 1)) (Piece.shape p) (board cl) = Ret true ∧
    (∀ k, 1 <= k <= dy →
       checkCollision (Pos.mk px (py + k)) (Piece.shape p) (board cl) = Ret false) ∧
    ∃ display h' d,
      getDisplayBoard cl = Ret display ∧
      getDisplayBoardH h bref cl = Ret (h', d) ∧
      deref h' d = Some display ∧
      deref h' bref = Some (board cl) ∧
      (∀ l, (l < length h)%nat → h' !! l = h !! l).
Proof.
  intros Hrun Hlen Hocc Hd p px py.
  destruct (landingRow_spec (board cl) (Piece.shape p) px py r c Hlen Hocc)
    as (dy & Hdy & Hland & Hcol & Hfree).
  exists dy. split; [done|]. split; [exact Hland|]. split; [|split; [done|split; [done|]]].
  - unfold hardDrop. rewrite Hrun. fold p px py. rewrite Hland. done.
  - assert (Hflags : gameStarted cl = true ∧ gameOver cl = false ∧ isPaused cl = false).
    { unfold blocked in Hrun. destruct (gameOver cl), (isPaused cl), (gameStarted cl); done. }
    destruct Hflags as (Hgs & Hgo & Hpa).
    destruct (paintShape_total (λ old, if falsy old then str ghostMarker else old)
                (Piece.shape p) px (py + dy) (board cl) Hlen) as (d1 & Hd1 & Hlen1).
    destruct (paintShape_total (λ _, str (Piece.color p)) (Piece.shape p) px py d1)
      as (d2 & Hd2 & Hlen2); [lia|].
    assert (Hdisplay : getDisplayBoard cl = Ret d2).
    { unfold getDisplayBoard, ghostY. fold p px py. rewrite Hgs, Hgo, Hpa. simpl.
      rewrite Hland. simpl. rewrite Hd1. simpl. exact Hd2. }
    exists d2, (h ++ d2), (seq (length h) (length (board cl))).
    split; [done|]. split; [|split; [|split]].
    + rewrite (getDisplayBoardH_refines h bref cl Hd), Hdisplay. done.
    + replace (length (board cl)) with (length d2) by lia. apply deref_fresh.
    + by apply deref_app.
    + intros l Hl. by rewrite lookup_app_l.
Qed.

Lemma run_reachable (s s' : Session) (events : list Event) :
  reachable s → run s events = Ret s' → reachable s'.
Proof.
  revert s. induction events as [|e rest IH]; intros s Hs; simpl.
  - by intros [= <-].
  - destruct (step s e) as [s1| |] eqn:Hstep; simpl; [|done..].
    apply IH. by eapply reachable_step.
Qed.

Lemma overhangSession_reachable : reachable overhangSession.
Proof.
  apply (run_reachable (initialSession TetrominoType.T TetrominoType.T) _
           overhangEvents); [constructor|].
  vm_compute. reflexivity.
Qed.

Lemma towerSession_reachable : reachable towerSession.
Proof.
  apply (run_reachable (initialSession TetrominoType.T TetrominoType.T) _
           towerEvents); [constructor|].
  vm_compute. reflexivity.
Qed.

(** C9, the counterexample: in [overhangSession] the ghost and the hard drop
    stop at row 15, on the roof, although the piece also fits at row 18,
    inside the hole, and collides at row 19: the landing offset is not the
    largest offset at which the piece fits and collides one row below. *)
Lemma ghost_not_maximal_counterexample :
  ¬ (∀ (cl : Session) (landed dy : Z),
       blocked cl = false →
       ghostY cl = Ret landed →
       0 <= dy →
       checkCollision (Pos.mk (Pos.x (Piece.pos (currentPiece cl)))
                              (Pos.y (Piece.pos (currentPiece cl)) + dy))
         (Piece.shape (currentPiece cl)) (board cl) = Ret false →
       checkCollision (Pos.mk (Pos.x (Piece.pos (currentPiece cl)))
                              (Pos.y (Piece.pos (currentPiece cl)) + dy + 1))
         (Piece.shape (currentPiece cl)) (board cl) = Ret true →
       Pos.y (Piece.pos (currentPiece cl)) + dy <= landed).
Proof.
  intros H.
  specialize (H overhangSession 15 18 eq_refl eq_refl ltac:(lia) eq_refl eq_refl).
  vm_compute in H. by apply H.
Qed.

(** ** The row-count invariant *)

Lemma paintShape_length (f : value → value) pieceShape px py (b b' : Board) :
  paintShape f pieceShape px py b = Ret b' → length b' = length b.
Proof.
  unfold paintShape.
  destruct (forEachCellRows_fresh f [] (length b) px py pieceShape 0 b eq_refl)
    as [_ Hlen].
  apply Hlen.
Qed.

Lemma processBoardUpdate_rows cl (b : Board) draw st st' :
  processBoardUpdate cl b draw st = Ret st' →
  (length b <= Z.to_nat BOARD_HEIGHT)%nat → rows20 st'.
Proof.
  unfold processBoardUpdate, rows20.
  destruct (clearRows b) as [[finalBoard n]| |] eqn:Hclear; simpl; [|done..].
  intros Hspawn Hlen. apply spawnNext_stats in Hspawn as (_ & _ & _ & Hb & _).
  rewrite Hb. simpl. apply clearRows_length in Hclear as [_ Hclear]. by apply Hclear.
Qed.

Lemma lockPiece_rows cl draw st st' :
  lockPiece cl draw st = Ret st' → rows20 cl → rows20 st'.
Proof.
  unfold lockPiece, mergePiece.
  destruct (paintShape _ _ _ _ _) as [newBoard| |] eqn:Hpaint; simpl; [|done..].
  intros Hproc Hcl. apply paintShape_length in Hpaint.
  eapply processBoardUpdate_rows; [exact Hproc|]. unfold rows20 in Hcl. lia.
Qed.

Lemma move_rows cl dirX dirY st st' moved :
  move cl dirX dirY st = Ret (st', moved) → rows20 st → rows20 st'.
Proof.
  unfold move. destruct (blocked cl); [by intros [= <- _]|].
  destruct (checkCollision _ _ _) as [[]| |]; simpl; [| |done..];
    by intros [= <- _].
Qed.

Lemma rotate_rows cl st st' :
  rotate cl st = Ret st' → rows20 st → rows20 st'.
Proof.
  unfold rotate. destruct (blocked cl); [by intros [= <-]|].
  destruct (rotateMatrix _) as [rotated| |]; simpl; [|done..].
  destruct (checkCollision (Piece.pos (currentPiece cl)) rotated (board cl))
    as [[]| |]; simpl; [| |done..]; [|by intros [= <-]].
  destruct (checkCollision (Pos.mk (Pos.x (Piece.pos (currentPiece cl)) - 1) _)
              rotated (board cl)) as [[]| |]; simpl; [| |done..];
    [|by intros [= <-]].
  destruct (checkCollision (Pos.mk (Pos.x (Piece.pos (currentPiece cl)) + 1) _)
              rotated (board cl)) as [[]| |]; simpl; [| |done..];
    by intros [= <-].
Qed.

Lemma drop_rows cl draw st st' :
  drop cl draw st = Ret st' → rows20 cl → rows20 st → rows20 st'.
Proof.
  unfold drop. destruct (blocked cl); [by intros [= <-]|].
  destruct (checkCollision _ _ _) as [[]| |]; simpl; [| |done..].
  - intros Hlock Hcl _. by eapply lockPiece_rows.
  - by intros [= <-].
Qed.

Lemma hardDrop_rows cl draw st st' :
  hardDrop cl draw st = Ret st' → rows20 cl → rows20 st → rows20 st'.
Proof.
  unfold hardDrop. destruct (blocked cl); [by intros [= <-]|].
  destruct (landingRow _ _ _ _) as [landed| |]; simpl; [|done..].
  unfold mergePiece.
  destruct (paintShape _ _ _ _ _) as [lockedBoard| |] eqn:Hpaint; simpl; [|done..].
  intros Hproc Hcl _. apply paintShape_length in Hpaint.
  eapply processBoardUpdate_rows; [exact Hproc|]. unfold rows20 in Hcl. lia.
Qed.

Lemma handleKeyPress_rows cl key draw st st' :
  handleKeyPress cl key draw st = Ret st' → rows20 cl → rows20 st → rows20 st'.
Proof.
  unfold handleKeyPress. destruct (_ || _); [by intros [= <-]|].
  intros Hkey Hcl Hst.
  assert (Hend : ∀ st1, rows20 st1 →
    (if bool_decide (key = "p") || bool_decide (key = "P")
     then Ret (setIsPaused negb st1) else Ret st1) = Ret st' → rows20 st').
  { intros st1 H1. destruct (_ || _); by intros [= <-]. }
  destruct (negb (isPaused cl)); [|by apply (Hend st)].
  destruct (bool_decide (key = "ArrowLeft")).
  { destruct (move cl (-1) 0 st) as [[st1 m]| |] eqn:Hm; simpl in Hkey; [|done..].
    apply (Hend st1); [|done]. by eapply move_rows. }
  destruct (bool_decide (key = "ArrowRight")).
  { destruct (move cl 1 0 st) as [[st1 m]| |] eqn:Hm; simpl in Hkey; [|done..].
    apply (Hend st1); [|done]. by eapply move_rows. }
  destruct (bool_decide (key = "ArrowDown")).
  { destruct (drop cl draw st) as [st1| |] eqn:Hdrop; simpl in Hkey; [|done..].
    apply (Hend (setScore (λ s, num_add s (Int 1)) st1)); [|done].
    by apply (drop_rows cl draw st st1). }
  destruct (bool_decide (key = "ArrowUp")).
  { destruct (rotate cl st) as [st1| |] eqn:Hrot; simpl in Hkey; [|done..].
    apply (Hend st1); [|done]. by eapply rotate_rows. }
  destruct (bool_decide (key = " ")).
  { destruct (hardDrop cl draw st) as [st1| |] eqn:Hhd; simpl in Hkey; [|done..].
    apply (Hend st1); [|done]. by eapply hardDrop_rows. }
  by apply (Hend st).
Qed.

Lemma step_rows (s s' : Session) (e : Event) :
  step s e = Ret s' → rows20 s → rows20 s'.
Proof.
  destruct e; simpl; intros Hstep Hs.
  - by eapply handleKeyPress_rows.
  - destruct (_ && _); [by eapply drop_rows|]. by injection Hstep as <-.
  - by injection Hstep as <-.
  - by injection Hstep as <-.
  - by eapply rotate_rows.
  - by eapply drop_rows.
  - destruct (move s (-1) 0 s) as [[s1 m]| |] eqn:Hm; simpl in Hstep; [|done..].
    injection Hstep as <-. by eapply move_rows.
  - destruct (move s 1 0 s) as [[s1 m]| |] eqn:Hm; simpl in Hstep; [|done..].
    injection Hstep as <-. by eapply move_rows.
  - by eapply hardDrop_rows.
  - by injection Hstep as <-.
Qed.

(** C7. In every state reachable from the first render by key presses,
    ticks and button clicks the board has exactly 20 rows. *)
Theorem reachable_board_rows (s : Session) :
  reachable s → length (board s) = 20%nat.
Proof.
  induction 1 as [cur next|s e s' _ IH Hstep].
  - reflexivity.
  - by apply (step_rows s s' e).
Qed.

(** ** No handler fails in a reachable state *)

Lemma hasOccupied_true (m : TetrominoShape) :
  hasOccupied m = true → ∃ r c, occupied m r c.
Proof.
  unfold hasOccupied. rewrite existsb_exists. intros (row & Hrow & Hex).
  apply existsb_exists in Hex as (cell & Hcell & Hne).
  apply strict_ne_true in Hne.
  apply list_elem_of_In, list_elem_of_lookup in Hrow as [r Hr].
  apply list_elem_of_In, list_elem_of_lookup in Hcell as [c Hc].
  exists r, c, row, cell. done.
Qed.

Lemma orientations_closed (m : TetrominoShape) :
  m ∈ orientations →
  (∃ r, rotateMatrix m = Ret r ∧ r ∈ orientations) ∧ (∃ r c, occupied m r c).
Proof.
  assert (Hall : forallb (λ m,
            match rotateMatrix m with
            | Ret r => bool_decide (r ∈ orientations)
            | _ => false
            end && hasOccupied m) orientations = true) by (vm_compute; reflexivity).
  rewrite forallb_forall in Hall. intros Hin.
  apply list_elem_of_In, Hall, andb_true_iff in Hin as [Hrot Hocc].
  split; [|by apply hasOccupied_true].
  destruct (rotateMatrix m) as [r| |]; [|done..].
  exists r. split; [done|]. by apply bool_decide_eq_true in Hrot.
Qed.

Lemma catalogue_orientation (k : TetrominoType) :
  Tetromino.shape (randomTetromino k) ∈ orientations.
Proof. destruct k; apply (bool_decide_unpack _); by vm_compute. Qed.

Lemma orientation_nonempty (m : TetrominoShape) : m ∈ orientations → m ≠ [].
Proof.
  intros Hin ->. apply orientations_closed in Hin as [(r & Hr & _) _]. done.
Qed.

Lemma processBoardUpdate_pieces cl (b : Board) draw st st' :
  processBoardUpdate cl b draw st = Ret st' →
  (currentPiece st' = currentPiece st ∧ nextPiece st' = nextPiece st) ∨
  (Piece.shape (currentPiece st') = Tetromino.shape (nextPiece cl) ∧
   nextPiece st' = randomTetromino draw).
Proof.
  unfold processBoardUpdate.
  destruct (clearRows b) as [[finalBoard n]| |]; simpl; [|done..].
  unfold spawnNext. destruct (_ !! 0%nat) as [row0|]; [|done].
  destruct (checkCollision _ _ _) as [[]| |]; simpl; [| |done..]; intros [= <-].
  - left. unfold updateStats. by destruct (0 <? n)%nat.
  - right. done.
Qed.

Lemma processBoardUpdate_sound cl (b : Board) draw st :
  sound cl → shapesOk st → length b = Z.to_nat BOARD_HEIGHT →
  ∃ st', processBoardUpdate cl b draw st = Ret st' ∧ sound st'.
Proof.
  intros [Hrows [Hcur Hnext]] [Hcur' Hnext'] Hlen.
  destruct (processBoardUpdate_total cl b draw st) as [st' Hst'];
    [by apply orientation_nonempty|].
  exists st'. split; [done|]. split.
  - eapply processBoardUpdate_rows; [done|lia].
  - destruct (processBoardUpdate_pieces _ _ _ _ _ Hst') as [[Hc Hn]|[Hc Hn]];
      unfold shapesOk; rewrite Hc, Hn; [done|].
    split; [done|]. apply catalogue_orientation.
Qed.

Lemma lockPiece_sound cl draw st :
  sound cl → shapesOk st → ∃ st', lockPiece cl draw st = Ret st' ∧ sound st'.
Proof.
  intros Hcl Hst. unfold lockPiece, mergePiece.
  destruct Hcl as [Hrows Hshapes].
  edestruct paintShape_total as (newBoard & Hpaint & Hlen);
    [|rewrite Hpaint; simpl; apply processBoardUpdate_sound; try done].
  - unfold rows20 in Hrows. rewrite Hrows. done.
  - unfold rows20 in Hrows. lia.
Qed.

Lemma move_sound cl dirX dirY st :
  sound cl → sound st → ∃ st' moved, move cl dirX dirY st = Ret (st', moved) ∧ sound st'.
Proof.
  intros [Hrows _] Hst. unfold move. destruct (blocked cl); [by eauto|].
  edestruct checkCollision_total as [hit Hhit];
    [|rewrite Hhit; simpl; destruct hit; eauto].
  unfold rows20 in Hrows. rewrite Hrows. done.
Qed.

Lemma rotate_sound cl st :
  sound cl → sound st → ∃ st', rotate cl st = Ret st' ∧ sound st'.
Proof.
  intros [Hrows [Hcur _]] Hst. unfold rotate. destruct (blocked cl); [by eauto|].
  apply orientations_closed in Hcur as [(r & Hr & Hin) _]. rewrite Hr. simpl.
  assert (Hlen : (Z.to_nat BOARD_HEIGHT <= length (board cl))%nat)
    by (unfold rows20 in Hrows; lia).
  assert (Hok : ∀ f : Pos → Pos, sound (setCurrentPiece
            (λ prev, withShape (withPos prev (f (Piece.pos prev))) r) st)).
  { intros f. destruct Hst as [? [? ?]]. split; [done|]. split; simpl; done. }
  destruct (checkCollision_total (Piece.pos (currentPiece cl)) r _ Hlen) as [h0 H0].
  rewrite H0. simpl. destruct h0; simpl.
  2:{ eexists. split; [done|]. destruct Hst as [? [? ?]]. split; [done|]. split; simpl; done. }
  destruct (checkCollision_total
              (Pos.mk (Pos.x (Piece.pos (currentPiece cl)) - 1)
                      (Pos.y (Piece.pos (currentPiece cl)))) r _ Hlen) as [hL HL].
  rewrite HL. simpl.
  destruct hL; simpl; [|eexists; split; [done|]; apply (Hok (λ p, Pos.mk (Pos.x p - 1) (Pos.y p)))].
  destruct (checkCollision_total
              (Pos.mk (Pos.x (Piece.pos (currentPiece cl)) + 1)
                      (Pos.y (Piece.pos (currentPiece cl)))) r _ Hlen) as [hR HR].
  rewrite HR. simpl.
  destruct hR; simpl; [by eauto|].
  eexists; split; [done|]. apply (Hok (λ p, Pos.mk (Pos.x p + 1) (Pos.y p))).
Qed.

Lemma drop_sound cl draw st :
  sound cl → sound st → ∃ st', drop cl draw st = Ret st' ∧ sound st'.
Proof.
  intros Hcl Hst. unfold drop. destruct (blocked cl); [by eauto|].
  edestruct checkCollision_total as [hit Hhit];
    [|rewrite Hhit; simpl; destruct hit; simpl].
  - destruct Hcl as [Hrows _]. unfold rows20 in Hrows. rewrite Hrows. done.
  - apply lockPiece_sound; [done|]. by destruct Hst.
  - eexists. split; [done|]. destruct Hst as [? [? ?]]. split; [done|]. split; simpl; done.
Qed.

Lemma hardDrop_sound cl draw st :
  sound cl → sound st → ∃ st', hardDrop cl draw st = Ret st' ∧ sound st'.
Proof.
  intros Hcl Hst. unfold hardDrop. destruct (blocked cl); [by eauto|].
  pose proof Hcl as [Hrows [Hcur _]].
  assert (Hlen : (Z.to_nat BOARD_HEIGHT <= length (board cl))%nat)
    by (unfold rows20 in Hrows; lia).
  apply orientations_closed in Hcur as [_ (r & c & Hocc)].
  destruct (landingRow_spec (board cl) _ (Pos.x (Piece.pos (currentPiece cl)))
              (Pos.y (Piece.pos (currentPiece cl))) r c Hlen Hocc)
    as (dy & _ & Hland & _).
  rewrite Hland. simpl. unfold mergePiece.
  edestruct paintShape_total as (lockedBoard & Hpaint & Hlen');
    [exact Hlen|rewrite Hpaint]. simpl.
  apply processBoardUpdate_sound; [done| |unfold rows20 in Hrows; lia].
  destruct Hst as [_ [? ?]]. split; done.
Qed.

Lemma handleKeyPress_sound cl key draw st :
  sound cl → sound st → ∃ st', handleKeyPress cl key draw st = Ret st' ∧ sound st'.
Proof.
  intros Hcl Hst. unfold handleKeyPress. destruct (_ || _); [by eauto|].
  assert (Hend : ∀ (m : outcome Session),
    (∃ st1, m = Ret st1 ∧ sound st1) →
    ∃ st', (st1 ← m;
            if bool_decide (key = "p") || bool_decide (key = "P")
            then Ret (setIsPaused negb st1) else Ret st1) = Ret st' ∧ sound st').
  { intros m (st1 & -> & H1). simpl. destruct (_ || _); eauto. }
  apply Hend. destruct (negb (isPaused cl)); [|by eauto].
  destruct (bool_decide (key = "ArrowLeft")).
  { destruct (move_sound cl (-1) 0 st Hcl Hst) as (st1 & m & -> & H1). by eauto. }
  destruct (bool_decide (key = "ArrowRight")).
  { destruct (move_sound cl 1 0 st Hcl Hst) as (st1 & m & -> & H1). by eauto. }
  destruct (bool_decide (key = "ArrowDown")).
  { destruct (drop_sound cl draw st Hcl Hst) as (st1 & -> & H1). simpl.
    eexists. split; [done|]. destruct H1 as [? [? ?]]. split; [done|]. split; simpl; done. }
  destruct (bool_decide (key = "ArrowUp")); [by apply rotate_sound|].
  destruct (bool_decide (key = " ")); [by apply hardDrop_sound|].
  by eauto.
Qed.

(** Every event is handled without error in a sound state, and leaves a
    sound state. *)
Lemma step_sound (s : Session) (e : Event) :
  sound s → ∃ s', step s e = Ret s' ∧ sound s'.
Proof.
  intros Hs. destruct e; simpl.
  - by apply handleKeyPress_sound.
  - destruct (_ && _); [by apply drop_sound|by eauto].
  - eexists. split; [done|]. split; [done|]. split; apply catalogue_orientation.
  - eexists. split; [done|]. destruct Hs as [? [? ?]]. split; [done|]. split; simpl; done.
  - by apply rotate_sound.
  - by apply drop_sound.
  - destruct (move_sound s (-1) 0 s Hs Hs) as (st1 & m & -> & H1). by eauto.
  - destruct (move_sound s 1 0 s Hs Hs) as (st1 & m & -> & H1). by eauto.
  - by apply hardDrop_sound.
  - eexists. split; [done|]. destruct Hs as [? [? ?]]. split; [done|]. split; simpl; done.
Qed.

Lemma reachable_sound (s : Session) : reachable s → sound s.
Proof.
  induction 1 as [cur next|s e s' _ IH Hstep].
  - split; [done|]. split; apply catalogue_orientation.
  - destruct (step_sound s e IH) as (s1 & Hs1 & Hsound).
    rewrite Hstep in Hs1. by injection Hs1 as <-.
Qed.

(** In a reachable state no event throws and no loop runs on for ever. *)
Lemma reachable_progress (s : Session) (e : Event) :
  reachable s → ∃ s', step s e = Ret s'.
Proof.
  intros Hs. destruct (step_sound s e (reachable_sound s Hs)) as (s' & Hs' & _).
  by exists s'.
Qed.

(** ** The theorems at concrete inputs *)

Lemma checkCollision_iff_witness :
  (Z.to_nat BOARD_HEIGHT <= length createEmptyBoard)%nat ∧
  checkCollision (Pos.mk 4 (-3)) (TETROMINOES TetrominoType.T).1 createEmptyBoard
    = Ret false.
Proof.
  split; [vm_compute; lia|].
  apply (checkCollision_iff (Pos.mk 4 (-3)) (TETROMINOES TetrominoType.T).1
           createEmptyBoard); [vm_compute; lia|].
  intros r c (row & cell & Hr & Hc & Hne).
  destruct r as [|[|[|r]]]; [| | |done]; simpl in Hr; injection Hr as <-;
    (destruct c as [|[|[|c]]]; [| | |done]); simpl in Hc; injection Hc as <-;
    simpl; try lia; done.
Defined.

Lemma clearRows_spec_witness :
  length oneFullRowBoard = Z.to_nat BOARD_HEIGHT ∧
  ∃ finalBoard linesCleared,
    clearRows oneFullRowBoard = Ret (finalBoard, linesCleared) ∧
    linesCleared = length (filter rowFull oneFullRowBoard) ∧
    length finalBoard = 20%nat.
Proof.
  split; [reflexivity|].
  destruct (clearRows_spec oneFullRowBoard eq_refl)
    as (finalBoard & linesCleared & Hclear & Hn & _ & Hlen & _).
  by exists finalBoard, linesCleared.
Defined.

Lemma processBoardUpdate_score_witness :
  (length (filter rowFull oneFullRowBoard) <= 4)%nat ∧
  score demoSession = Int 40 ∧
  Tetromino.shape (nextPiece demoSession) ≠ [] ∧
  ∃ st', processBoardUpdate demoSession oneFullRowBoard TetrominoType.J demoSession
           = Ret st' ∧
         score st' = Int (40 + spec_multiplier 1 * 1).
Proof.
  split; [vm_compute; lia|]. split; [reflexivity|]. split; [done|].
  destruct (processBoardUpdate_score demoSession oneFullRowBoard TetrominoType.J
              demoSession 40) as (st' & Hst' & Hscore & _);
    [vm_compute; lia|reflexivity|done|].
  exists st'. split; [done|]. exact Hscore.
Defined.


Lemma processBoardUpdate_game_over_witness :
  clearRows blockedTopBoard = Ret (blockedTopBoard, 0%nat) ∧
  checkCollision (spawnPos [num 1; num 1]) (Tetromino.shape (nextPiece demoSession))
    blockedTopBoard = Ret true ∧
  ∃ st', processBoardUpdate demoSession blockedTopBoard TetrominoType.J demoSession
           = Ret st' ∧
         gameOver st' = true ∧ board st' = blockedTopBoard ∧
         currentPiece st' = currentPiece demoSession ∧ score st' = Int 40.
Proof.
  split; [reflexivity|]. split; [reflexivity|].
  destruct (processBoardUpdate_game_over demoSession blockedTopBoard TetrominoType.J
              demoSession blockedTopBoard 0 [num 1; num 1])
    as (st' & Hst' & _ & Hover & _ & Hboard & Hcur & _ & _ & Hscore & _);
    [reflexivity..|].
  exists st'. done.
Defined.

Lemma reachable_board_rows_witness :
  length (board (startGame TetrominoType.O TetrominoType.I
                   (initialSession TetrominoType.T TetrominoType.T))) = 20%nat.
Proof.
  apply reachable_board_rows.
  apply (reachable_step (initialSession TetrominoType.T TetrominoType.T)
           (ClickStart TetrominoType.O TetrominoType.I)); [constructor|reflexivity].
Defined.

Lemma ghost_agrees_with_hard_drop_witness :
  blocked overhangSession = false ∧
  (Z.to_nat BOARD_HEIGHT <= length (board overhangSession))%nat ∧
  occupied (Piece.shape (currentPiece overhangSession)) 0 0 ∧
  deref (board overhangSession) (seq 0 20) = Some (board overhangSession) ∧
  ∃ dy, 0 <= dy ∧ ghostY overhangSession = Ret (0 + dy).
Proof.
  assert (Hocc : occupied (Piece.shape (currentPiece overhangSession)) 0 0).
  { exists [num 1; num 1], (num 1). split; [reflexivity|]. split; [reflexivity|done]. }
  split; [reflexivity|]. split; [vm_compute; lia|]. split; [exact Hocc|].
  split; [reflexivity|].
  destruct (ghost_agrees_with_hard_drop overhangSession TetrominoType.J 0 0
              (board overhangSession) (seq 0 20))
    as (dy & Hdy & Hghost & _); [reflexivity|vm_compute; lia|exact Hocc|reflexivity|].
  by exists dy.
Defined.


(** ** The simplified variant *)

Lemma simple_isFull_true row : Simple.isFull row = true ↔ simpleRowFull row.
Proof.
  unfold Simple.isFull, simpleRowFull. induction row as [|c row IH]; simpl.
  - split; [by constructor|done].
  - rewrite andb_true_iff, Forall_cons, IH, strict_ne_true. done.
Qed.

Lemma simple_emptyRow_not_full : ¬ simpleRowFull Simple.emptyRow.
Proof. intros H. apply simple_isFull_true in H. by vm_compute in H. Qed.

(** Rows that are not full are passed over. *)
Lemma clearLoop_skip (lc : nat) (nb : Board) (k fuel : nat) :
  (k < fuel)%nat →
  (∀ i, (i < k)%nat → ∃ row, nb !! i = Some row ∧ ¬ simpleRowFull row) →
  Simple.clearLoop fuel nb lc k = Ret (nb, lc).
Proof.
  revert fuel. induction k as [|k IH]; intros fuel Hfuel Hrows;
    (destruct fuel as [|fuel]; [lia|]); simpl; [done|].
  destruct (Hrows k) as (row & Hrow & Hnf); [lia|].
  rewrite Hrow. rewrite <- simple_isFull_true in Hnf.
  destruct (Simple.isFull row); [done|].
  apply IH; [lia|]. intros i Hi. apply Hrows. lia.
Qed.

Lemma clearLoop_prefix (P : Board) :
  ∀ (lc : nat) (K : Board) (fuel : nat),
    (2 * length P + lc < fuel)%nat →
    Simple.clearLoop fuel (replicate lc Simple.emptyRow ++ P ++ K) lc (lc + length P)
    = Ret (replicate (lc + length (filter simpleRowFull P)) Simple.emptyRow
             ++ filter (λ row, ¬ simpleRowFull row) P ++ K,
           (lc + length (filter simpleRowFull P))%nat).
Proof.
  induction P as [|row P' IH] using rev_ind; intros lc K fuel Hfuel.
  - simpl. rewrite !Nat.add_0_r. apply clearLoop_skip; [simpl in Hfuel; lia|].
    intros i Hi. exists Simple.emptyRow. split; [|apply simple_emptyRow_not_full].
    rewrite lookup_app_l by (rewrite length_replicate; lia).
    by apply lookup_replicate_2.
  - rewrite length_app in *. simpl in *.
    destruct fuel as [|fuel]; [lia|].
    replace (lc + (length P' + 1))%nat with (S (lc + length P')) by lia.
    cbn [Simple.clearLoop].
    assert (Hsplit : replicate lc Simple.emptyRow ++ (P' ++ [row]) ++ K
                     = (replicate lc Simple.emptyRow ++ P') ++ row :: K).
    { by rewrite <- !app_assoc. }
    assert (Hlen : length (replicate lc Simple.emptyRow ++ P') = (lc + length P')%nat).
    { by rewrite length_app, length_replicate. }
    rewrite Hsplit. rewrite <- Hlen at 1.
    rewrite list_lookup_middle by done.
    rewrite !filter_app.
    destruct (Simple.isFull row) eqn:Hfull.
    + apply simple_isFull_true in Hfull.
      rewrite <- Hlen at 1. rewrite delete_middle.
      rewrite (filter_cons_True simpleRowFull) by done.
      rewrite (filter_cons_False (λ row, ¬ simpleRowFull row)) by (by intros ?).
      rewrite !filter_nil, app_nil_r, length_app. simpl.
      rewrite <- app_assoc.
      change (Simple.emptyRow :: replicate lc Simple.emptyRow ++ P' ++ K)
        with (replicate (S lc) Simple.emptyRow ++ P' ++ K).
      replace (S (lc + length P')) with (S lc + length P')%nat by lia.
      rewrite IH by lia.
      by replace (S lc + length (filter simpleRowFull P'))%nat
        with (lc + (length (filter simpleRowFull P') + 1))%nat by lia.
    + assert (Hnf : ¬ simpleRowFull row).
      { intros H. apply simple_isFull_true in H. congruence. }
      rewrite (filter_cons_False simpleRowFull) by done.
      rewrite (filter_cons_True (λ row, ¬ simpleRowFull row)) by done.
      rewrite !filter_nil, app_nil_r. rewrite <- !app_assoc.
      rewrite (IH lc (row :: K)) by lia. done.
Qed.

(** [clearLines] of the simplified variant computes what [clearRows]
    computes: the empty rows on top, then the rows that are not full. *)
Lemma simple_clearLines_spec (b : Board) :
  Simple.clearLines b
  = Ret (replicate (length (filter simpleRowFull b)) Simple.emptyRow
           ++ filter (λ row, ¬ simpleRowFull row) b,
         length (filter simpleRowFull b)).
Proof.
  unfold Simple.clearLines.
  pose proof (clearLoop_prefix b 0 [] (S (2 * length b))) as H.
  simpl in H. rewrite !app_nil_r in H. apply H. lia.
Qed.

Lemma canMoveRow_spec (board : Board) (x y : Z) (i : nat) (row : list value) (j : nat) :
  (20 <= length board)%nat →
  ∃ ok, Simple.canMoveRow board x y i row j = Ret ok ∧
    (ok = false ↔ ∃ k cell, row !! k = Some cell ∧ Simple.truthy cell = true ∧
       simpleBlocked board (x + Z.of_nat (j + k)) (y + Z.of_nat i)).
Proof.
  intros Hlen. revert j. induction row as [|cell rest IH]; intros j.
  - exists true. split; [done|]. split; [done|]. by intros (k & c & ? & _).
  - destruct (IH (S j)) as (ok & Hok & Hiff).
    assert (Hlater : ok = false →
      ∃ k c, (cell :: rest) !! k = Some c ∧ Simple.truthy c = true ∧
        simpleBlocked board (x + Z.of_nat (j + k)) (y + Z.of_nat i)).
    { intros H. apply Hiff in H as (k & c & Hk & Hc & Hb). exists (S k), c.
      split; [done|]. split; [done|].
      by replace (j + S k)%nat with (S j + k)%nat by lia. }
    assert (Hhere : simpleBlocked board (x + Z.of_nat j) (y + Z.of_nat i) →
      Simple.truthy cell = true →
      ∃ k c, (cell :: rest) !! k = Some c ∧ Simple.truthy c = true ∧
        simpleBlocked board (x + Z.of_nat (j + k)) (y + Z.of_nat i)).
    { intros Hb Hc. exists 0%nat, cell. split; [done|]. split; [done|].
      by replace (j + 0)%nat with j by lia. }
    assert (Hcases : (∃ k c, (cell :: rest) !! k = Some c ∧ Simple.truthy c = true ∧
        simpleBlocked board (x + Z.of_nat (j + k)) (y + Z.of_nat i)) →
      (Simple.truthy cell = true ∧
       simpleBlocked board (x + Z.of_nat j) (y + Z.of_nat i)) ∨ ok = false).
    { intros (k & c & Hk & Hc & Hb). destruct k as [|k].
      - left. simpl in Hk. injection Hk as ->.
        by replace (j + 0)%nat with j in Hb by lia.
      - right. apply Hiff. exists k, c. split; [done|]. split; [done|].
        by replace (S j + k)%nat with (j + S k)%nat by lia. }
    simpl. destruct (Simple.truthy cell) eqn:Hocc.
    2:{ exists ok. split; [done|]. split; [done|].
        intros H. by destruct (Hcases H) as [[? _]|?]. }
    unfold Simple.BOARD_WIDTH, Simple.BOARD_HEIGHT.
    destruct ((_ <? 0) || (_ >=? 10) || (_ >=? 20)) eqn:Hb1.
    { exists false. split; [done|]. split; [|done]. intros _. apply Hhere; [|done].
      rewrite !orb_true_iff in Hb1. unfold simpleBlocked. lia. }
    rewrite !orb_false_iff in Hb1. destruct Hb1 as [[Hx1 Hx2] Hy2].
    destruct (_ >=? 0) eqn:Hy1.
    2:{ exists ok. split; [done|]. split; [done|]. intros H.
        destruct (Hcases H) as [[_ [?|[?|[?|[? _]]]]]|?]; [lia..|done]. }
    destruct (lookup_lt_is_Some_2 board (Z.to_nat (y + Z.of_nat i))) as [brow Hbrow];
      [lia|].
    rewrite Hbrow. destruct (strict_ne (index brow _) (num 0)) eqn:Hne.
    + apply strict_ne_true in Hne. exists false. split; [done|]. split; [|done].
      intros _. apply Hhere; [|done]. right; right; right. split; [lia|]. by exists brow.
    + apply strict_ne_false in Hne. exists ok. split; [done|]. split; [done|].
      intros H. destruct (Hcases H) as [[_ [?|[?|[?|[_ (brow' & Hb' & Hn)]]]]]|?];
        [lia..| |done].
      rewrite Hbrow in Hb'. by injection Hb' as <-.
Qed.

(** [canMove] of the simplified variant is the negation of the same
    collision condition, with [0] as the empty cell. *)
Lemma simple_canMove_spec (board : Board) (piece : list (list value)) (x y : Z) :
  (20 <= length board)%nat →
  ∃ ok, Simple.canMove board piece x y = Ret ok ∧
    (ok = false ↔ ∃ r c, simpleOccupied piece r c ∧
       simpleBlocked board (x + Z.of_nat c) (y + Z.of_nat r)).
Proof.
  intros Hlen. unfold Simple.canMove.
  assert (Hgen : ∀ rows i0, ∃ ok, Simple.canMoveRows board x y rows i0 = Ret ok ∧
    (ok = false ↔ ∃ r c, simpleOccupied rows r c ∧
       simpleBlocked board (x + Z.of_nat c) (y + Z.of_nat (i0 + r)))).
  { induction rows as [|row rest IH]; intros i0.
    - exists true. split; [done|]. split; [done|].
      by intros (r & c & (? & ? & ? & _) & _).
    - destruct (canMoveRow_spec board x y i0 row 0 Hlen) as (ok1 & Hok1 & Hiff1).
      destruct (IH (S i0)) as (ok2 & Hok2 & Hiff2).
      simpl. rewrite Hok1. simpl. destruct ok1.
      + exists ok2. split; [done|]. rewrite Hiff2. split.
        * intros (r & c & (rw & v & Hr & Hc & Hv) & Hb). exists (S r), c.
          split; [by exists rw, v|].
          by replace (i0 + S r)%nat with (S i0 + r)%nat by lia.
        * intros (r & c & (rw & v & Hr & Hc & Hv) & Hb). destruct r as [|r].
          -- simpl in Hr. injection Hr as <-.
             assert (true = false); [|done]. apply Hiff1. exists c, v.
             split; [done|]. split; [done|].
             by replace (i0 + 0)%nat with i0 in Hb by lia.
          -- exists r, c. split; [by exists rw, v|].
             by replace (S i0 + r)%nat with (i0 + S r)%nat by lia.
      + exists false. split; [done|]. split; [|done]. intros _.
        destruct Hiff1 as [Hiff1 _].
        destruct (Hiff1 eq_refl) as (k & v & Hk & Hv & Hb).
        exists 0%nat, k. split; [by exists row, v|].
        by replace (i0 + 0)%nat with i0 by lia. }
  destruct (Hgen piece 0%nat) as (ok & Hok & Hiff). exists ok. split; [done|].
  rewrite Hiff. split; intros (r & c & Ho & Hb); exists r, c; (split; [done|]);
    by replace (0 + r)%nat with r in * by lia.
Qed.

Lemma truthy_num (n : Z) : Simple.truthy (num n) = strict_ne (num n) (num 0).
Proof.
  unfold Simple.truthy, strict_ne. simpl. destruct (n =? 0) eqn:Hn.
  - apply Z.eqb_eq in Hn as ->. by rewrite bool_decide_eq_false_2 by (by intros ?).
  - apply Z.eqb_neq in Hn. rewrite bool_decide_eq_true_2; [done|]. by intros [= ->].
Qed.

(** On a piece made of numbers [placePiece] is the lock of the full variant
    with the colour token [color + 1]. *)
Lemma simple_placePiece_paint (board : Board) (piece : list (list value)) (x y color : Z) :
  numeric piece →
  Simple.placePiece board piece x y color
  = paintShape (λ _, num (color + 1)) piece x y board.
Proof.
  unfold Simple.placePiece, paintShape. generalize 0%nat as i0. revert board.
  induction piece as [|row rest IH]; intros board i0 Hnum; [done|].
  apply Forall_cons in Hnum as [Hrow Hrest]. simpl.
  assert (Hr : ∀ j0 b, Simple.placeRow x y color i0 row j0 b
                       = forEachCellRow (updateCell (λ _, num (color + 1))) x y i0 row j0 b).
  { clear -Hrow. induction row as [|cell row IHr]; intros j0 b; [done|].
    apply Forall_cons in Hrow as [[n ->] Hrow]. simpl. rewrite truthy_num.
    destruct (strict_ne (num n) (num 0)); [|by apply IHr].
    unfold Simple.BOARD_HEIGHT, Simple.BOARD_WIDTH, BOARD_HEIGHT, BOARD_WIDTH.
    destruct (_ && _); [|by apply IHr].
    destruct (updateCell _ b _ _); simpl; [by apply IHr|done..]. }
  rewrite Hr.
  destruct (forEachCellRow _ x y i0 row 0 board); simpl; [by apply IH|done..].
Qed.

Lemma simple_placePiece_frame (board : Board) (piece : list (list value)) (x y color : Z) :
  numeric piece → (20 <= length board)%nat →
  ∃ b', Simple.placePiece board piece x y color = Ret b' ∧
    length b' = length board ∧
    (∀ r c, covered piece x y r c → cellAt b' r c = num (color + 1)) ∧
    (∀ r c, ¬ covered piece x y r c → cellAt b' r c = cellAt board r c).
Proof.
  intros Hnum Hlen. rewrite simple_placePiece_paint by done.
  destruct (paintRows_const (num (color + 1)) x y piece 0 board) as (b' & Hb' & Hlen' & Hcell);
    [unfold BOARD_HEIGHT; lia|].
  exists b'. split; [done|]. split; [done|]. split.
  - intros r c Hcov. apply covered_decide in Hcov. by rewrite Hcell, Hcov.
  - intros r c Hcov. rewrite Hcell.
    destruct (coveredRows _ _ _ _ _ _) eqn:Hc; [|done]. by apply covered_decide in Hc.
Qed.

(** [rotatePiece] on the catalogue of the simplified variant: transpose,
    reverse each row; four turns give the piece back. *)
Lemma simple_rotatePiece_catalogue (piece : list (list value)) :
  piece ∈ Simple.PIECES →
  Simple.rotatePiece piece = Ret (spec_rotate piece) ∧
  (r1 ← Simple.rotatePiece piece; r2 ← Simple.rotatePiece r1;
   r3 ← Simple.rotatePiece r2; Simple.rotatePiece r3) = Ret piece.
Proof.
  intros Hin. unfold Simple.PIECES in Hin.
  repeat (apply elem_of_cons in Hin as [->|Hin]; [split; reflexivity|]).
  by apply elem_of_nil in Hin.
Qed.

(** The row count is kept by the lock, the clear and the gravity step of
    the simplified variant as well. *)
Lemma simple_clearLines_length (b b' : Board) (n : nat) :
  Simple.clearLines b = Ret (b', n) → length b' = length b.
Proof.
  rewrite simple_clearLines_spec. intros [= <- <-].
  rewrite length_app, length_replicate.
  assert (H : ∀ l : Board,
    (length (filter simpleRowFull l) + length (filter (λ row, ¬ simpleRowFull row) l)
     = length l)%nat).
  { induction l as [|row rest IH]; [done|]. destruct (decide (simpleRowFull row)).
    - rewrite (filter_cons_True simpleRowFull) by done.
      rewrite (filter_cons_False (λ row, ¬ simpleRowFull row)) by (by intros ?).
      simpl. lia.
    - rewrite (filter_cons_False simpleRowFull) by done.
      rewrite (filter_cons_True (λ row, ¬ simpleRowFull row)) by done.
      simpl. lia. }
  apply H.
Qed.

Lemma simple_placePiece_length (board b' : Board) (piece : list (list value))
    (x y color : Z) :
  Simple.placePiece board piece x y color = Ret b' → length b' = length board.
Proof.
  unfold Simple.placePiece. generalize 0%nat as i0. revert board.
  assert (Hrow : ∀ i0 row j0 b b1,
    Simple.placeRow x y color i0 row j0 b = Ret b1 → length b1 = length b).
  { intros i0 row. induction row as [|cell rest IH]; intros j0 b b1; simpl.
    - by intros [= <-].
    - destruct (Simple.truthy cell); [|by apply IH].
      destruct (_ && _); [|by apply IH].
      destruct (updateCell _ b _ _) as [b2| |] eqn:Hb2; simpl; [|done..].
      intros H. apply IH in H. apply updateCell_cellAt in Hb2 as [Hlen _]. lia. }
  induction piece as [|row rest IH]; intros board i0; simpl.
  - by intros [= <-].
  - destruct (Simple.placeRow x y color i0 row 0 board) as [b1| |] eqn:Hb1; simpl;
      [|done..].
    intros H. apply IH in H. apply Hrow in Hb1. lia.
Qed.

Lemma simple_moveDown_rows (prev s' : Simple.GameState) drawnPiece drawnColor :
  Simple.moveDown prev drawnPiece drawnColor = Ret s' →
  length (Simple.board prev) = 20%nat → length (Simple.board s') = 20%nat.
Proof.
  unfold Simple.moveDown. destruct (_ || _); [by intros [= <-]|].
  destruct (Simple.canMove _ _ _ _) as [[]| |]; simpl; [by intros [= <-]| |done..].
  destruct (Simple.placePiece _ _ _ _ _) as [placed| |] eqn:Hplaced; simpl; [|done..].
  destruct (Simple.clearLines placed) as [[newBoard n]| |] eqn:Hclear; simpl; [|done..].
  apply simple_placePiece_length in Hplaced. apply simple_clearLines_length in Hclear.
  destruct (Simple.canMove newBoard _ _ _) as [[]| |]; simpl; [| |done..];
    intros [= <-] Hlen; simpl; lia.
Qed.

(** *** Where the simplified variant departs from the full one *)

(** A lock that clears no row adds 800 to the score, whatever the level,
    and the next piece is placed at column 3 whatever its width. *)
Lemma simple_moveDown_lock_no_line :
  ∃ s', Simple.moveDown simpleRestingSession (cells [[1; 1; 1; 1]]) 0 = Ret s' ∧
    Simple.score s' = 800 ∧ Simple.lines s' = 0 ∧
    Simple.position s' = Pos.mk 3 0 ∧
    Simple.currentPiece s' = cells [[1; 1]; [1; 1]].
Proof. eexists. split; [vm_compute; reflexivity|]. done. Qed.

Lemma simple_rotate_no_kick :
  Simple.rotateKey simpleTowerSession = Ret simpleTowerSession ∧
  Simple.canMove (Simple.board simpleTowerSession) (cells [[1; 0]; [1; 1]; [1; 0]]) 5 6
    = Ret true.
Proof. split; vm_compute; reflexivity. Qed.

Lemma simple_moveDown_game_over :
  ∃ s', Simple.moveDown simpleFullSession (cells [[1; 1]; [1; 1]]) 0 = Ret s' ∧
    Simple.gameOver s' = true ∧
    Simple.board s' = Simple.board simpleFullSession ∧
    Simple.score s' = 0.
Proof. eexists. split; [vm_compute; reflexivity|]. done. Qed.

(** * Further properties of the code *)

(** ** What one event does *)

Lemma withShape_same (p : Piece.t) : withShape p (Piece.shape p) = p.
Proof. by destruct p. Qed.

Lemma sameCore_refl (s : Session) : sameCore s s.
Proof. by repeat split. Qed.

Lemma effect_of_core (s core : Session) : coreStep s core → effect s core.
Proof. intros H. exists core. split; [done|]. split; [apply sameCore_refl|by left]. Qed.

Lemma move_effect (s : Session) (dirX dirY : Z) (s' : Session) (moved : bool) :
  move s dirX dirY s = Ret (s', moved) → coreStep s s'.
Proof.
  unfold move. destruct (blocked s) eqn:Hrun; [intros [= <- _]; constructor|].
  destruct (checkCollision _ _ _) as [[]| |] eqn:Hhit; simpl; [| |done..].
  - intros [= <- _]. constructor.
  - intros [= <- _].
    set (newPos := Pos.mk _ _) in *.
    replace (setCurrentPiece (λ prev, withPos prev newPos) s)
      with (setCurrentPiece
              (λ p, withShape (withPos p newPos) (Piece.shape (currentPiece s))) s)
      by (by destruct s as [? [] ? ? ? ? ? ? ?]).
    apply cs_piece; [done|done|by left].
Qed.

Lemma rotate_effect (s s' : Session) : rotate s s = Ret s' → coreStep s s'.
Proof.
  unfold rotate. destruct (blocked s) eqn:Hrun; [intros [= <-]; constructor|].
  destruct (rotateMatrix _) as [rotatedShape| |] eqn:Hrot; simpl; [|done..].
  assert (Heta : ∀ p : Pos, Pos.mk (Pos.x p) (Pos.y p) = p) by (by intros []).
  destruct (checkCollision (Piece.pos (currentPiece s)) rotatedShape (board s))
    as [[]| |] eqn:H0; simpl; [| |done..].
  2:{ intros [= <-].
      replace (setCurrentPiece (λ prev, withShape prev rotatedShape) s)
        with (setCurrentPiece
                (λ p, withShape (withPos p (Piece.pos (currentPiece s))) rotatedShape) s)
        by (by destruct s as [? [] ? ? ? ? ? ? ?]).
      apply cs_piece; [done|done|by right]. }
  destruct (checkCollision (Pos.mk (Pos.x (Piece.pos (currentPiece s)) - 1) _)
              rotatedShape (board s)) as [[]| |] eqn:HL; simpl; [| |done..].
  2:{ intros [= <-]. by apply (cs_piece s (Pos.mk _ _) rotatedShape); [| |right]. }
  destruct (checkCollision (Pos.mk (Pos.x (Piece.pos (currentPiece s)) + 1) _)
              rotatedShape (board s)) as [[]| |] eqn:HR; simpl; [| |done..].
  - intros [= <-]. constructor.
  - intros [= <-]. by apply (cs_piece s (Pos.mk _ _) rotatedShape); [| |right].
Qed.

Lemma drop_effect (s : Session) (draw : TetrominoType) (s' : Session) :
  drop s draw s = Ret s' → coreStep s s'.
Proof.
  unfold drop. destruct (blocked s) eqn:Hrun; [intros [= <-]; constructor|].
  destruct (checkCollision _ _ _) as [[]| |] eqn:Hhit; simpl; [| |done..].
  - unfold lockPiece.
    destruct (mergePiece _ _ _ _ _) as [newBoard| |] eqn:Hmerge; simpl; [|done..].
    intros Hproc. by eapply (cs_lock s _ newBoard draw s); [|left| |].
  - intros [= <-]. set (newPos := Pos.mk _ _) in *.
    replace (setCurrentPiece (λ prev, withPos prev newPos) s)
      with (setCurrentPiece
              (λ p, withShape (withPos p newPos) (Piece.shape (currentPiece s))) s)
      by (by destruct s as [? [] ? ? ? ? ? ? ?]).
    apply cs_piece; [done|done|by left].
Qed.

Lemma hardDrop_effect (s : Session) (draw : TetrominoType) (s' : Session) :
  hardDrop s draw s = Ret s' → coreStep s s'.
Proof.
  unfold hardDrop. destruct (blocked s) eqn:Hrun; [intros [= <-]; constructor|].
  destruct (landingRow _ _ _ _) as [landed| |] eqn:Hland; simpl; [|done..].
  destruct (mergePiece _ _ _ _ _) as [lockedBoard| |] eqn:Hmerge; simpl; [|done..].
  intros Hproc. by eapply (cs_lock s landed lockedBoard draw); [|right| |].
Qed.

Lemma handleKeyPress_effect (s : Session) (key : string) (draw : TetrominoType)
    (s' : Session) :
  handleKeyPress s key draw s = Ret s' → effect s s'.
Proof.
  unfold handleKeyPress. destruct (_ || _); [intros [= <-]; apply effect_of_core; constructor|].
  assert (Hend : ∀ st1, effect s st1 →
    (if bool_decide (key = "p") || bool_decide (key = "P")
     then Ret (setIsPaused negb st1) else Ret st1) = Ret s' → effect s s').
  { intros st1 (core & Hcore & Hsame & Hscore).
    destruct (_ || _); intros [= <-]; exists core; done. }
  destruct (negb (isPaused s)); simpl; [|apply Hend, effect_of_core; constructor].
  destruct (bool_decide (key = "ArrowLeft")).
  { destruct (move s (-1) 0 s) as [[st1 m]| |] eqn:Hm; simpl; [|done..].
    apply Hend, effect_of_core. by eapply move_effect. }
  destruct (bool_decide (key = "ArrowRight")).
  { destruct (move s 1 0 s) as [[st1 m]| |] eqn:Hm; simpl; [|done..].
    apply Hend, effect_of_core. by eapply move_effect. }
  destruct (bool_decide (key = "ArrowDown")).
  { destruct (drop s draw s) as [st1| |] eqn:Hdrop; simpl; [|done..].
    apply Hend. exists st1. split; [by eapply drop_effect|]. split; [done|by right]. }
  destruct (bool_decide (key = "ArrowUp")).
  { destruct (rotate s s) as [st1| |] eqn:Hrot; simpl; [|done..].
    apply Hend, effect_of_core. by eapply rotate_effect. }
  destruct (bool_decide (key = " ")).
  { destruct (hardDrop s draw s) as [st1| |] eqn:Hhd; simpl; [|done..].
    apply Hend, effect_of_core. by eapply hardDrop_effect. }
  simpl. apply Hend, effect_of_core. constructor.
Qed.

(** Every event is one of the four core steps, up to the score of a soft
    drop and the pause flag. *)
Lemma step_effect (s s' : Session) (e : Event) : step s e = Ret s' → effect s s'.
Proof.
  destruct e; simpl.
  - apply handleKeyPress_effect.
  - destruct (_ && _); [|intros [= <-]; apply effect_of_core; constructor].
    intros H. by apply effect_of_core, (drop_effect s draw).
  - intros [= <-]. apply effect_of_core. constructor.
  - intros [= <-]. exists s. split; [constructor|]. split; [done|by left].
  - intros H. by apply effect_of_core, rotate_effect.
  - intros H. by apply effect_of_core, (drop_effect s draw).
  - destruct (move s (-1) 0 s) as [[s1 m]| |] eqn:Hm; simpl; [|done..].
    intros [= <-]. by eapply effect_of_core, move_effect.
  - destruct (move s 1 0 s) as [[s1 m]| |] eqn:Hm; simpl; [|done..].
    intros [= <-]. by eapply effect_of_core, move_effect.
  - intros H. by apply effect_of_core, (hardDrop_effect s draw).
  - intros [= <-]. exists s. split; [constructor|]. split; [done|by left].
Qed.

(** A property kept by every write at a cell on the board is kept by the
    whole nested loop. *)
Lemma forEachCellRows_invariant {B : Type} (write : B → nat → nat → outcome B)
    (P : B → Prop) (px py : Z) :
  (∀ b Y X b', P b → onBoard Y X = true →
     write b (Z.to_nat Y) (Z.to_nat X) = Ret b' → P b') →
  ∀ rows y0 b b', P b → forEachCellRows write px py rows y0 b = Ret b' → P b'.
Proof.
  intros Hwrite.
  assert (Hrow : ∀ y0 row x0 b b', P b →
    forEachCellRow write px py y0 row x0 b = Ret b' → P b').
  { intros y0 row. induction row as [|cell rest IH]; intros x0 b b' Hb; simpl.
    - by intros [= <-].
    - fold (onBoard (py + Z.of_nat y0) (px + Z.of_nat x0)).
      destruct (strict_ne cell (num 0)); [|by apply IH].
      destruct (onBoard _ _) eqn:Hon; [|by apply IH].
      destruct (write b _ _) as [b1| |] eqn:Hb1; simpl; [|done..].
      apply IH. by eapply Hwrite. }
  induction rows as [|row rest IH]; intros y0 b b' Hb; simpl.
  - by intros [= <-].
  - destruct (forEachCellRow write px py y0 row 0 b) as [b1| |] eqn:Hb1; simpl;
      [|done..].
    apply IH. by eapply Hrow.
Qed.

Lemma mergePiece_boardOk (b b' : Board) pieceShape pieceColor px py :
  boardOk b → mergePiece b pieceShape pieceColor px py = Ret b' → boardOk b'.
Proof.
  unfold mergePiece, paintShape. intros Hb.
  apply (forEachCellRows_invariant _ boardOk); [|done].
  clear. intros b Y X b' [Hlen Hrows] Hon. apply onBoard_true in Hon.
  unfold updateCell. destruct (b !! Z.to_nat Y) as [row|] eqn:Hrow; [|done].
  intros [= <-]. split; [by rewrite length_insert|].
  apply Forall_insert; [done|].
  rewrite Forall_lookup in Hrows. destruct (Hrows _ _ Hrow) as [Hw Hcells].
  unfold writeAt. rewrite (proj2 (Nat.ltb_lt _ _)) by lia.
  split; [by rewrite length_insert|].
  apply Forall_insert; [done|]. right. by eexists.
Qed.

Lemma clearRows_boardOk (b finalBoard : Board) (n : nat) :
  boardOk b → clearRows b = Ret (finalBoard, n) → boardOk finalBoard.
Proof.
  intros [Hlen Hrows] Hclear. split.
  - apply clearRows_length in Hclear as [_ Hclear]. apply Hclear.
    unfold BOARD_HEIGHT. lia.
  - rewrite clearRows_eq in Hclear. injection Hclear as <- _.
    apply Forall_app. split.
    + apply Forall_replicate. split; [done|].
      apply Forall_replicate. by left.
    + apply Forall_forall. intros row Hin. apply list_elem_of_filter in Hin as [_ Hin].
      rewrite Forall_forall in Hrows. by apply Hrows.
Qed.

(** What [processBoardUpdate] leaves: the cleared board, the counters of
    step 4, and either the game-over flags or the spawned piece. *)
Lemma processBoardUpdate_fields cl (b : Board) draw st s' :
  processBoardUpdate cl b draw st = Ret s' →
  ∃ finalBoard n, clearRows b = Ret (finalBoard, n) ∧ board s' = finalBoard ∧
    lines s' = lines (updateStats cl n st) ∧
    level s' = level (updateStats cl n st) ∧
    score s' = score (updateStats cl n st) ∧
    isPaused s' = isPaused st ∧
    ((gameOver s' = true ∧ gameStarted s' = false ∧
      currentPiece s' = currentPiece st ∧ nextPiece s' = nextPiece st)
     ∨ (gameOver s' = gameOver st ∧ gameStarted s' = gameStarted st ∧
        ∃ row0, Tetromino.shape (nextPiece cl) !! 0%nat = Some row0 ∧
          currentPiece s' = spawnAt (nextPiece cl) (spawnPos row0) ∧
          nextPiece s' = randomTetromino draw ∧
          checkCollision (spawnPos row0) (Tetromino.shape (nextPiece cl)) finalBoard
            = Ret false)).
Proof.
  unfold processBoardUpdate.
  destruct (clearRows b) as [[finalBoard n]| |] eqn:Hclear; simpl; [|done..].
  unfold spawnNext. destruct (_ !! 0%nat) as [row0|] eqn:Hrow0; [|done].
  simpl. destruct (checkCollision _ _ _) as [[]| |] eqn:Hhit; simpl; [| |done..];
    intros [= <-]; exists finalBoard, n; (split; [done|]);
    unfold updateStats; destruct (0 <? n)%nat; simpl;
    repeat (split; [done|]); [left|left|right|right]; repeat (split; [done|]);
    try done; exists row0; done.
Qed.

(** ** Invariants of the session *)

Lemma createEmptyBoard_ok : boardOk createEmptyBoard.
Proof.
  split; [done|]. apply Forall_replicate. split; [done|].
  apply Forall_replicate. by left.
Qed.

Lemma start_position_free (k : TetrominoType) :
  checkCollision (Pos.mk (BOARD_WIDTH / 2 - 1) 0) (TETROMINOES k).1 createEmptyBoard
    = Ret false.
Proof. by destruct k; vm_compute. Qed.

Lemma coreStep_consistent (s core : Session) :
  consistent s → coreStep s core → consistent core.
Proof.
  intros (Hboard & (Hlines & Hlevel & Hflags) & Hlegal) Hstep.
  destruct Hstep as [|newPos newShape Hrun Hfree Hshape
                     |py lockedBoard draw st core Hrun Hst Hmerge Hproc|cur next].
  - done.
  - split; [done|]. split; [done|]. intros _. exact Hfree.
  - apply processBoardUpdate_fields in Hproc
      as (finalBoard & n & Hclear & Hb & Hl & Hlv & _ & _ & Hbranch).
    assert (Hsame : lines st = lines s ∧ level st = level s ∧
                    gameOver st = gameOver s ∧ gameStarted st = gameStarted s).
    { by destruct Hst as [->| ->]. }
    destruct Hsame as (Hl0 & Hlv0 & Hgo0 & Hgs0).
    split; [|split; [split; [|split]|]].
    + rewrite Hb. eapply clearRows_boardOk; [|exact Hclear].
      by eapply mergePiece_boardOk.
    + rewrite Hl. unfold updateStats. destruct (0 <? n)%nat; simpl; lia.
    + rewrite Hl, Hlv. unfold updateStats.
      destruct (0 <? n)%nat; simpl; [by rewrite Hl0|by rewrite Hl0, Hlv0].
    + destruct Hbranch as [(_ & Hgs & _)|(Hgo & Hgs & _)]; [done|].
      rewrite Hgo, Hgs, Hgo0, Hgs0. exact Hflags.
    + intros Hgo. destruct Hbranch as [(Hover & _)|(_ & _ & row0 & _ & Hcur & _ & Hfree)];
        [congruence|].
      rewrite Hcur, Hb. exact Hfree.
  - split; [apply createEmptyBoard_ok|]. split; [done|].
    intros _. apply start_position_free.
Qed.

Lemma effect_consistent (s s' : Session) : consistent s → effect s s' → consistent s'.
Proof.
  intros Hs (core & Hcore & (Hb & Hc & _ & Hl & Hlv & Hgo & Hgs) & _).
  destruct (coreStep_consistent s core Hs Hcore)
    as (Hboard & (Hlines & Hlevel & Hflags) & Hlegal).
  unfold consistent, countersOk, legal. rewrite Hb, Hc, Hl, Hlv, Hgo, Hgs. done.
Qed.

Lemma reachable_consistent (s : Session) : reachable s → consistent s.
Proof.
  induction 1 as [cur next|s e s' _ IH Hstep].
  - split; [apply createEmptyBoard_ok|]. split; [done|].
    intros _. apply start_position_free.
  - eapply effect_consistent; [exact IH|]. by eapply step_effect.
Qed.

(** X1. In every reachable state the board is a full grid: 20 rows of 10
    cells, and every cell is [null] or a colour string, never [undefined]. *)
Theorem reachable_board_grid (s : Session) :
  reachable s →
  length (board s) = 20%nat ∧
  ∀ r c, (r < 20)%nat → (c < 10)%nat →
    cellAt (board s) r c = null ∨ ∃ colour, cellAt (board s) r c = str colour.
Proof.
  intros Hs. destruct (reachable_consistent s Hs) as ((Hlen & Hrows) & _).
  split; [done|]. intros r c Hr Hc.
  destruct (lookup_lt_is_Some_2 (board s) r) as [row Hrow]; [lia|].
  rewrite Forall_lookup in Hrows. destruct (Hrows r row Hrow) as [Hw Hcells].
  destruct (lookup_lt_is_Some_2 row c) as [cell Hcell]; [lia|].
  rewrite Forall_lookup in Hcells. specialize (Hcells c cell Hcell).
  unfold cellAt, index. rewrite Hrow, Hcell. exact Hcells.
Qed.

(** X2. When every event is handled by the handlers of the render of the
    current state, the level is in every state the function of the lines
    the code computes on a clear: [level = floor(lines / 10) + 1], with
    [lines >= 0]; and a game that is over is not started.  ([setLevel]
    reads the lines of the closure, so the equation needs that schedule.) *)
Theorem reachable_level_of_lines (s : Session) :
  reachable s →
  0 <= lines s ∧ level s = lines s / 10 + 1 ∧ 1 <= level s ∧
  (gameOver s = true → gameStarted s = false).
Proof.
  intros Hs. destruct (reachable_consistent s Hs) as (_ & (Hl & Hlv & Hflags) & _).
  split; [done|]. split; [done|]. split; [|done].
  rewrite Hlv. assert (0 <= lines s / 10) by (apply Z.div_pos; lia). lia.
Qed.

(** X3. When every event is handled by the handlers of the render of the
    current state, the active piece of a game that is not over is in every
    state where the collision oracle accepts it: each of its occupied cells
    is inside the columns, above the floor, and, when it is on the board,
    over an empty cell.  (A key handled on the closure of an earlier render
    can break this.) *)
Theorem reachable_piece_legal (s : Session) (r c : nat) :
  reachable s → gameOver s = false →
  occupied (Piece.shape (currentPiece s)) r c →
  let X := Pos.x (Piece.pos (currentPiece s)) + Z.of_nat c in
  let Y := Pos.y (Piece.pos (currentPiece s)) + Z.of_nat r in
  checkCollision (Piece.pos (currentPiece s)) (Piece.shape (currentPiece s)) (board s)
    = Ret false ∧
  0 <= X < 10 ∧ Y < 20 ∧
  (0 <= Y → cellAt (board s) (Z.to_nat Y) (Z.to_nat X) = null).
Proof.
  intros Hs Hgo Hocc X Y.
  destruct (reachable_consistent s Hs) as ((Hlen & _) & _ & Hlegal).
  specialize (Hlegal Hgo). split; [done|].
  destruct (checkCollision_spec (Piece.pos (currentPiece s))
              (Piece.shape (currentPiece s)) (board s)) as (b & Hb & Hiff);
    [rewrite Hlen; done|].
  rewrite Hlegal in Hb. injection Hb as <-.
  assert (Hno : ¬ cellCollides (board s) X Y).
  { intros Hcol. assert (false = true); [|done]. apply Hiff. by exists r, c. }
  unfold cellCollides, nonEmptyAt, BOARD_WIDTH, BOARD_HEIGHT in Hno.
  split; [lia|]. split; [lia|]. intros HY.
  destruct (lookup_lt_is_Some_2 (board s) (Z.to_nat Y)) as [row Hrow]; [lia|].
  unfold cellAt. rewrite Hrow.
  destruct (decide (index row (Z.to_nat X) = null)) as [|Hne]; [done|].
  exfalso. apply Hno. right; right; right. split; [lia|]. by exists row.
Qed.

(** X4. In a reachable state no event makes a handler throw, and no loop of
    a handler runs without end: every event leads to a next state. *)
Theorem reachable_never_fails (s : Session) (e : Event) :
  reachable s → ∃ s', step s e = Ret s' ∧ reachable s'.
Proof.
  intros Hs. destruct (step_sound s e (reachable_sound s Hs)) as (s' & Hs' & _).
  exists s'. split; [done|]. by eapply reachable_step.
Qed.

(** ** A hard drop is a run of gravity steps *)

Lemma outcome_bind_ret {A : Type} (m : outcome A) : (a ← m; Ret a) = m.
Proof. by destruct m. Qed.

(** [processBoardUpdate] reads the lines, the level and the queued piece
    from its closure, and nothing else. *)
Lemma processBoardUpdate_closure (cl cl' : Session) (b : Board) draw st :
  lines cl' = lines cl → level cl' = level cl → nextPiece cl' = nextPiece cl →
  processBoardUpdate cl' b draw st = processBoardUpdate cl b draw st.
Proof.
  intros Hl Hlv Hn. unfold processBoardUpdate, spawnNext, updateStats.
  by rewrite Hl, Hlv, Hn.
Qed.

Lemma outcome_ret_bind {A B : Type} (a : A) (f : A → outcome B) :
  (x ← Ret a; f x) = f a.
Proof. reflexivity. Qed.

Lemma drop_free (s : Session) (draw : TetrominoType) :
  blocked s = false →
  checkCollision (Pos.mk (Pos.x (Piece.pos (currentPiece s)))
                         (Pos.y (Piece.pos (currentPiece s)) + 1))
    (Piece.shape (currentPiece s)) (board s) = Ret false →
  drop s draw s
  = Ret (setCurrentPiece
           (λ prev, withPos prev (Pos.mk (Pos.x (Piece.pos (currentPiece s)))
                                         (Pos.y (Piece.pos (currentPiece s)) + 1))) s).
Proof. intros Hrun Hfree. unfold drop. by rewrite Hrun, Hfree. Qed.

Lemma drops_then_lock (draw : TetrominoType) (dy : nat) :
  ∀ s : Session,
    blocked s = false →
    let p := currentPiece s in
    let px := Pos.x (Piece.pos p) in
    let py := Pos.y (Piece.pos p) in
    (∀ k, 1 <= k <= Z.of_nat dy →
       checkCollision (Pos.mk px (py + k)) (Piece.shape p) (board s) = Ret false) →
    checkCollision (Pos.mk px (py + Z.of_nat dy + 1)) (Piece.shape p) (board s)
      = Ret true →
    run s (replicate (S dy) (ClickDrop draw))
    = (lockedBoard ← mergePiece (board s) (Piece.shape p) (Piece.color p) px
                       (py + Z.of_nat dy);
       processBoardUpdate s lockedBoard draw
         (setCurrentPiece
            (λ prev, withPos prev (Pos.mk (Pos.x (Piece.pos prev)) (py + Z.of_nat dy)))
            s)).
Proof.
  induction dy as [|dy IH]; intros s Hrun p px py Hfree Hhit.
  - simpl. rewrite outcome_bind_ret. unfold drop. rewrite Hrun. fold p px py.
    replace (py + Z.of_nat 0 + 1) with (py + 1) in Hhit by lia. rewrite Hhit. simpl.
    unfold lockPiece. fold p px py. replace (py + Z.of_nat 0) with py by lia.
    replace (setCurrentPiece
               (λ prev, withPos prev (Pos.mk (Pos.x (Piece.pos prev)) py)) s)
      with s; [done|].
    subst p px py. by destruct s as [? [? ? ? []] ? ? ? ? ? ? ?].
  - change (run s (replicate (S (S dy)) (ClickDrop draw)))
      with (s1 ← drop s draw s; run s1 (replicate (S dy) (ClickDrop draw))).
    rewrite (drop_free s draw Hrun) by (apply Hfree; lia).
    rewrite outcome_ret_bind. fold p px py.
    set (s1 := setCurrentPiece (λ prev, withPos prev (Pos.mk px (py + 1))) s).
    rewrite (IH s1); [| done | |].
    + simpl. fold p px py.
      replace (py + 1 + Z.of_nat dy) with (py + Z.of_nat (S dy)) by lia.
      destruct (mergePiece _ _ _ _ _) as [lockedBoard| |]; simpl; [|done..].
      by rewrite (processBoardUpdate_closure s s1).
    + simpl. fold p px py. intros k Hk.
      replace (py + 1 + k) with (py + (k + 1)) by lia. apply Hfree. lia.
    + simpl. fold p px py.
      by replace (py + 1 + Z.of_nat dy + 1) with (py + Z.of_nat (S dy) + 1) by lia.
Qed.

(** X6. For a running session whose board has its rows and whose piece has
    an occupied cell, a hard drop leaves exactly the state that [dy + 1]
    presses of the drop button leave, where [dy] is the number of rows the
    ghost lies below the piece: [dy] steps down and one step that locks. *)
Theorem hardDrop_is_repeated_drop (s : Session) (draw : TetrominoType) (r c : nat) :
  blocked s = false →
  (Z.to_nat BOARD_HEIGHT <= length (board s))%nat →
  occupied (Piece.shape (currentPiece s)) r c →
  ∃ dy : nat,
    ghostY s = Ret (Pos.y (Piece.pos (currentPiece s)) + Z.of_nat dy) ∧
    hardDrop s draw s = run s (replicate (S dy) (ClickDrop draw)).
Proof.
  intros Hrun Hlen Hocc.
  destruct (landingRow_spec (board s) (Piece.shape (currentPiece s))
              (Pos.x (Piece.pos (currentPiece s))) (Pos.y (Piece.pos (currentPiece s)))
              r c Hlen Hocc) as (dy & Hdy & Hland & Hhit & Hfree).
  exists (Z.to_nat dy). rewrite Z2Nat.id by done. split; [exact Hland|].
  rewrite (drops_then_lock draw (Z.to_nat dy) s Hrun); rewrite ?Z2Nat.id by done;
    [|done|done].
  unfold hardDrop. rewrite Hrun, Hland. done.
Qed.

(** ** After a clear *)

Lemma emptyRow_not_full : ¬ rowFull emptyRow.
Proof. intros H. apply isFull_true in H. by vm_compute in H. Qed.

Lemma filter_none {A : Type} (P : A → Prop) `{!∀ x, Decision (P x)} (l : list A) :
  (∀ x, x ∈ l → ¬ P x) → filter P l = [].
Proof.
  induction l as [|x l IH]; intros Hnone; [done|].
  rewrite filter_cons_False by (apply Hnone; by left).
  apply IH. intros y Hy. apply Hnone. by right.
Qed.

Lemma filter_all {A : Type} (P : A → Prop) `{!∀ x, Decision (P x)} (l : list A) :
  (∀ x, x ∈ l → P x) → filter P l = l.
Proof.
  induction l as [|x l IH]; intros Hall; [done|].
  rewrite filter_cons_True by (apply Hall; by left).
  f_equal. apply IH. intros y Hy. apply Hall. by right.
Qed.

Lemma clearRows_no_full (b finalBoard : Board) (n : nat) :
  clearRows b = Ret (finalBoard, n) → ∀ row, row ∈ finalBoard → ¬ rowFull row.
Proof.
  rewrite clearRows_eq. intros [= <- _] row Hin.
  apply elem_of_app in Hin as [Hin|Hin].
  - apply elem_of_replicate in Hin as [-> _]. apply emptyRow_not_full.
  - by apply list_elem_of_filter in Hin as [Hnf _].
Qed.

(** X7. The clear step leaves no full row, whatever board it is given, and
    is idempotent: run again on its own result it removes nothing and
    returns that board with a count of 0. *)
Theorem clearRows_idempotent (b : Board) :
  ∃ finalBoard n,
    clearRows b = Ret (finalBoard, n) ∧
    (∀ row, row ∈ finalBoard → ¬ rowFull row) ∧
    clearRows finalBoard = Ret (finalBoard, 0%nat).
Proof.
  destruct (clearRows b) as [[finalBoard n]| |] eqn:Hclear;
    [|by rewrite clearRows_eq in Hclear..].
  exists finalBoard, n. split; [done|].
  pose proof (clearRows_no_full b finalBoard n Hclear) as Hnone.
  split; [done|].
  apply clearRows_length in Hclear as [Hlen _].
  rewrite clearRows_eq.
  rewrite (filter_all (λ row, ¬ rowFull row)) by done.
  rewrite (filter_none rowFull) by (intros row Hin Hfull; by apply (Hnone row)).
  replace (Z.to_nat BOARD_HEIGHT - length finalBoard)%nat with 0%nat by lia.
  done.
Qed.

(** ** At most four rows per lock, and a score that stays a number *)

Lemma paintRow_other_rows (f : value → value) px py y0 (row : list value) x0
    (b b' : Board) (r : nat) :
  forEachCellRow (updateCell f) px py y0 row x0 b = Ret b' →
  Z.of_nat r ≠ py + Z.of_nat y0 → b' !! r = b !! r.
Proof.
  intros Hpaint Hr. revert x0 b Hpaint.
  induction row as [|cell rest IH]; intros x0 b; simpl.
  - by intros [= <-].
  - fold (onBoard (py + Z.of_nat y0) (px + Z.of_nat x0)).
    destruct (strict_ne cell (num 0)); [|by apply IH].
    destruct (onBoard _ _) eqn:Hon; [|by apply IH].
    unfold updateCell. destruct (b !! Z.to_nat (py + Z.of_nat y0)) as [brow|]; [|done].
    simpl. intros Hrest. rewrite (IH _ _ Hrest).
    apply list_lookup_insert_ne. apply onBoard_true in Hon. lia.
Qed.

Lemma paintRows_other_rows (f : value → value) px py (rows : TetrominoShape) y0
    (b b' : Board) (r : nat) :
  forEachCellRows (updateCell f) px py rows y0 b = Ret b' →
  (∀ i, (i < length rows)%nat → Z.of_nat r ≠ py + Z.of_nat (y0 + i)) →
  b' !! r = b !! r.
Proof.
  revert y0 b. induction rows as [|row rest IH]; intros y0 b; simpl.
  - by intros [= <-].
  - destruct (forEachCellRow _ px py y0 row 0 b) as [b1| |] eqn:Hb1; simpl; [|done..].
    intros Hrest Hr. rewrite (IH _ _ Hrest).
    + eapply paintRow_other_rows; [exact Hb1|].
      specialize (Hr 0%nat). replace (y0 + 0)%nat with y0 in Hr by lia. apply Hr. lia.
    + intros i Hi. specialize (Hr (S i)).
      replace (y0 + S i)%nat with (S y0 + i)%nat in Hr by lia. apply Hr. lia.
Qed.

(** A list whose elements with property [P] all sit at [k] consecutive
    indices has at most [k] of them. *)
Lemma filter_window {A : Type} (P : A → Prop) `{!∀ x, Decision (P x)}
    (l : list A) (a k : nat) :
  (∀ i x, l !! i = Some x → P x → (a <= i < a + k)%nat) →
  (length (filter P l) <= k)%nat.
Proof.
  intros Hwin.
  rewrite <- (take_drop a l), filter_app, length_app.
  rewrite <- (take_drop k (skipn a l)), filter_app, length_app.
  rewrite (filter_none P (take a l)).
  2:{ intros x Hin HP. apply list_elem_of_lookup in Hin as [i Hi].
      apply lookup_take_Some in Hi as [Hi Hlt].
      specialize (Hwin i x Hi HP). lia. }
  rewrite (filter_none P (skipn k (skipn a l))).
  2:{ intros x Hin HP. apply list_elem_of_lookup in Hin as [i Hi].
      rewrite !lookup_drop in Hi. specialize (Hwin _ x Hi HP). lia. }
  simpl. pose proof (length_filter P (take k (skipn a l))) as H1.
  pose proof (length_take_le (skipn a l) k). rewrite length_take in H1. lia.
Qed.

Lemma mergePiece_full_rows (b b' : Board) pieceShape pieceColor px py :
  (∀ row, row ∈ b → ¬ rowFull row) →
  mergePiece b pieceShape pieceColor px py = Ret b' →
  (length (filter rowFull b') <= length pieceShape)%nat.
Proof.
  intros Hnone Hmerge. unfold mergePiece, paintShape in Hmerge.
  apply (filter_window rowFull b' (Z.to_nat py) (length pieceShape)).
  intros r row Hrow Hfull.
  destruct (decide (Z.to_nat py <= r < Z.to_nat py + length pieceShape)%nat)
    as [|Hout]; [done|].
  exfalso. apply (Hnone row); [|done].
  apply list_elem_of_lookup. exists r. rewrite <- Hrow. symmetry.
  eapply paintRows_other_rows; [exact Hmerge|]. intros i Hi. lia.
Qed.

Lemma orientation_height (m : TetrominoShape) :
  m ∈ orientations → (length m <= 4)%nat.
Proof.
  assert (Hall : forallb (λ m, length m <=? 4)%nat orientations = true)
    by (vm_compute; reflexivity).
  rewrite forallb_forall in Hall. intros Hin.
  apply list_elem_of_In, Hall in Hin. by apply Nat.leb_le.
Qed.

Lemma multiplier_small (n : nat) :
  (n <= 4)%nat → ∃ m, multiplier n = Int m ∧ 0 <= m.
Proof.
  intros Hn. destruct n as [|[|[|[|[|n]]]]]; [..|lia]; eexists; (split; [reflexivity|lia]).
Qed.

Lemma createEmptyBoard_no_full : noFullRow createEmptyBoard.
Proof.
  intros row Hin. apply elem_of_replicate in Hin as [-> _]. apply emptyRow_not_full.
Qed.

Lemma coreStep_score (s core : Session) :
  sound s → consistent s → noFullRow (board s) → scoreOk s →
  coreStep s core → noFullRow (board core) ∧ scoreOk core.
Proof.
  intros [_ [Hshape _]] (_ & (Hlines & Hlevel & _) & _) Hnone (z & Hz & Hz0) Hstep.
  destruct Hstep as [|newPos newShape Hrun Hfree Hsh
                     |py lockedBoard draw st core Hrun Hst Hmerge Hproc|cur next].
  - split; [done|]. by exists z.
  - split; [done|]. by exists z.
  - apply processBoardUpdate_fields in Hproc
      as (finalBoard & n & Hclear & Hb & _ & _ & Hsc & _).
    split; [rewrite Hb; exact (clearRows_no_full _ _ _ Hclear)|].
    assert (Hst' : score st = score s) by (by destruct Hst as [->| ->]).
    assert (Hn : (n <= 4)%nat).
    { pose proof (mergePiece_full_rows _ _ _ _ _ _ Hnone Hmerge) as Hcount.
      pose proof (orientation_height _ Hshape).
      rewrite clearRows_eq in Hclear. injection Hclear as _ <-. lia. }
    unfold scoreOk. rewrite Hsc. unfold updateStats.
    destruct (0 <? n)%nat; simpl; rewrite Hst', Hz; [|by exists z].
    destruct (multiplier_small n Hn) as (m & -> & Hm). simpl.
    eexists. split; [reflexivity|].
    assert (0 <= lines s / 10) by (apply Z.div_pos; lia). nia.
  - split; [apply createEmptyBoard_no_full|]. by exists 0.
Qed.

Lemma reachable_score (s : Session) :
  reachable s → noFullRow (board s) ∧ scoreOk s.
Proof.
  induction 1 as [cur next|s e s' Hs [Hnone Hscore] Hstep].
  - split; [apply createEmptyBoard_no_full|]. by exists 0.
  - destruct (step_effect s s' e Hstep) as (core & Hcore & (Hb & _) & Hsc).
    destruct (coreStep_score s core (reachable_sound s Hs) (reachable_consistent s Hs)
                Hnone Hscore Hcore) as [Hnone' (z & Hz & Hz0)].
    split; [by rewrite Hb|]. unfold scoreOk.
    destruct Hsc as [-> | ->]; rewrite Hz; [by exists z|].
    exists (z + 1). split; [done|lia].
Qed.

(** X8. In every reachable state the board holds no full row, so that a
    lock of the active piece, at whatever row, completes at most four rows,
    the index into the score table stays inside it, and the score is a
    non-negative number, never [NaN]. *)
Theorem reachable_score_is_number (s : Session) :
  reachable s →
  (∀ row, row ∈ board s → ¬ rowFull row) ∧
  (∀ py lockedBoard,
     mergePiece (board s) (Piece.shape (currentPiece s)) (Piece.color (currentPiece s))
       (Pos.x (Piece.pos (currentPiece s))) py = Ret lockedBoard →
     (length (filter rowFull lockedBoard) <= 4)%nat) ∧
  ∃ z, score s = Int z ∧ 0 <= z.
Proof.
  intros Hs. destruct (reachable_score s Hs) as [Hnone Hscore].
  split; [done|]. split; [|done].
  intros py lockedBoard Hmerge.
  pose proof (mergePiece_full_rows _ _ _ _ _ _ Hnone Hmerge) as Hcount.
  destruct (reachable_sound s Hs) as [_ [Hshape _]].
  pose proof (orientation_height _ Hshape). lia.
Qed.

(** ** A lock fills empty cells only *)

Lemma covered_cell_free (b : Board) (pieceShape : TetrominoShape) px py r c :
  (Z.to_nat BOARD_HEIGHT <= length b)%nat →
  checkCollision (Pos.mk px py) pieceShape b = Ret false →
  covered pieceShape px py r c → cellAt b r c = null.
Proof.
  intros Hlen Hfree (i & j & Hocc & Hr & Hc & Hrb & Hcb).
  destruct (checkCollision_spec (Pos.mk px py) pieceShape b Hlen) as (hit & Hhit & Hiff).
  rewrite Hfree in Hhit. injection Hhit as <-.
  destruct (lookup_lt_is_Some_2 b r) as [row Hrow]; [unfold BOARD_HEIGHT in Hlen; lia|].
  unfold cellAt. rewrite Hrow.
  destruct (decide (index row c = null)) as [|Hne]; [done|].
  assert (false = true); [|done]. apply Hiff. exists i, j. split; [done|].
  right; right; right. simpl. split; [lia|]. exists row.
  replace (Z.to_nat (py + Z.of_nat i)) with r by lia.
  by replace (Z.to_nat (px + Z.of_nat j)) with c by lia.
Qed.

Lemma merge_fills_empty (b : Board) (pieceShape : TetrominoShape) pieceColor px py :
  (Z.to_nat BOARD_HEIGHT <= length b)%nat →
  checkCollision (Pos.mk px py) pieceShape b = Ret false →
  ∃ lockedBoard, mergePiece b pieceShape pieceColor px py = Ret lockedBoard ∧
    ∀ r c, cellAt lockedBoard r c = cellAt b r c ∨
           (cellAt b r c = null ∧ cellAt lockedBoard r c = str pieceColor).
Proof.
  intros Hlen Hfree.
  destruct (paintRows_const (str pieceColor) px py pieceShape 0 b Hlen)
    as (lockedBoard & Hlocked & _ & Hcell).
  exists lockedBoard. split; [done|]. intros r c. rewrite Hcell.
  destruct (coveredRows _ _ _ _ _ _) eqn:Hcov; [|by left].
  right. split; [|done]. apply covered_decide in Hcov. by eapply covered_cell_free.
Qed.

(** X9. When every event is handled by the handlers of the render of the
    current state, both locks of a running game, the one of a gravity step
    at the piece's row and the one of a hard drop at the ghost's row, turn
    empty cells into cells of the piece's colour and leave every other cell
    as it is: no lock overwrites a locked cell.  (After a key handled on
    the closure of an earlier render a lock can.) *)
Theorem lock_fills_empty_cells (s : Session) (py : Z) :
  reachable s → blocked s = false →
  py = Pos.y (Piece.pos (currentPiece s)) ∨ ghostY s = Ret py →
  ∃ lockedBoard,
    mergePiece (board s) (Piece.shape (currentPiece s)) (Piece.color (currentPiece s))
      (Pos.x (Piece.pos (currentPiece s))) py = Ret lockedBoard ∧
    ∀ r c, cellAt lockedBoard r c = cellAt (board s) r c ∨
           (cellAt (board s) r c = null ∧
            cellAt lockedBoard r c = str (Piece.color (currentPiece s))).
Proof.
  intros Hs Hrun Hpy.
  destruct (reachable_consistent s Hs) as ((Hlen & _) & _ & Hlegal).
  assert (Hrows : (Z.to_nat BOARD_HEIGHT <= length (board s))%nat) by (by rewrite Hlen).
  assert (Hgo : gameOver s = false).
  { unfold blocked in Hrun. by destruct (gameOver s). }
  specialize (Hlegal Hgo).
  apply merge_fills_empty; [done|].
  unfold ghostY, landingRow in Hpy.
  destruct (Piece.pos (currentPiece s)) as [px y0] eqn:Hpos.
  cbn [Pos.x Pos.y] in *.
  destruct Hpy as [->|Hghost]; [done|].
  apply fallWhileFree_spec in Hghost as (dy & Hdy & -> & _ & Hfree).
  destruct (decide (dy = 0)) as [->|Hpos']; [by replace (y0 + 0) with y0 by lia|].
  apply Hfree. lia.
Qed.

(** ** What the display shows *)

Lemma paintRows_idempotent (f : value → value) (px py : Z) :
  (∀ v, f (f v) = f v) →
  ∀ (rows : TetrominoShape) (y0 : nat) (b : Board),
    (Z.to_nat BOARD_HEIGHT <= length b)%nat →
    ∃ b', forEachCellRows (updateCell f) px py rows y0 b = Ret b' ∧
      length b' = length b ∧
      ∀ r c, cellAt b' r c =
        if coveredRows px py rows y0 r c then f (cellAt b r c) else cellAt b r c.
Proof.
  intros Hidem.
  assert (Hrow : ∀ y0 (row : list value) x0 (b : Board),
    (Z.to_nat BOARD_HEIGHT <= length b)%nat →
    ∃ b', forEachCellRow (updateCell f) px py y0 row x0 b = Ret b' ∧
      length b' = length b ∧
      ∀ r c, cellAt b' r c =
        if coveredRow px py y0 row x0 r c then f (cellAt b r c) else cellAt b r c).
  { intros y0 row. induction row as [|cell rest IH]; intros x0 b Hlen.
    - exists b. done.
    - simpl. fold (onBoard (py + Z.of_nat y0) (px + Z.of_nat x0)).
      destruct (strict_ne cell (num 0)); simpl; [|by apply IH].
      destruct (onBoard _ _) eqn:Hon; simpl; [|by apply IH].
      destruct (updateCell_total f b _ _ Hlen Hon) as [b1 Hb1].
      rewrite Hb1. simpl.
      apply updateCell_cellAt in Hb1 as [Hlen1 Hcell1].
      destruct (IH (S x0) b1) as (b' & Hb' & Hlen' & Hcell'); [lia|].
      exists b'. split; [done|]. split; [lia|].
      intros r c. rewrite Hcell', Hcell1.
      destruct (bool_decide (Z.to_nat (py + Z.of_nat y0) = r)) eqn:Hr;
        destruct (bool_decide (Z.to_nat (px + Z.of_nat x0) = c)) eqn:Hc; simpl;
        try done.
      apply bool_decide_eq_true in Hr, Hc. subst r c.
      by destruct (coveredRow _ _ _ rest _ _ _); rewrite ?Hidem. }
  induction rows as [|row rest IH]; intros y0 b Hlen.
  - exists b. done.
  - simpl. destruct (Hrow y0 row 0%nat b Hlen) as (b1 & Hb1 & Hlen1 & Hcell1).
    rewrite Hb1. simpl.
    destruct (IH (S y0) b1) as (b' & Hb' & Hlen' & Hcell'); [lia|].
    exists b'. split; [done|]. split; [lia|].
    intros r c. rewrite Hcell', Hcell1.
    destruct (coveredRow _ _ _ _ _ _ _); simpl; [|done].
    by destruct (coveredRows _ _ _ _ _ _); rewrite ?Hidem.
Qed.

(** X10. The display of a running session with a full-height board: the
    cells under the active piece show its colour; the cells under the ghost
    and not under the piece show the ghost marker where the board is empty
    and the board's cell otherwise; every other cell shows the board. *)
Theorem getDisplayBoard_cells (s : Session) (i j : nat) :
  blocked s = false →
  (Z.to_nat BOARD_HEIGHT <= length (board s))%nat →
  occupied (Piece.shape (currentPiece s)) i j →
  let p := currentPiece s in
  let px := Pos.x (Piece.pos p) in
  let py := Pos.y (Piece.pos p) in
  ∃ gy display,
    ghostY s = Ret gy ∧ getDisplayBoard s = Ret display ∧
    length display = length (board s) ∧
    ∀ r c,
      (covered (Piece.shape p) px py r c →
         cellAt display r c = str (Piece.color p)) ∧
      (¬ covered (Piece.shape p) px py r c → covered (Piece.shape p) px gy r c →
         cellAt display r c =
           if falsy (cellAt (board s) r c) then str ghostMarker
           else cellAt (board s) r c) ∧
      (¬ covered (Piece.shape p) px py r c → ¬ covered (Piece.shape p) px gy r c →
         cellAt display r c = cellAt (board s) r c).
Proof.
  intros Hrun Hlen Hocc p px py.
  destruct (landingRow_spec (board s) (Piece.shape p) px py i j Hlen Hocc)
    as (dy & _ & Hland & _).
  assert (Hflags : gameStarted s = true ∧ gameOver s = false ∧ isPaused s = false).
  { unfold blocked in Hrun. destruct (gameOver s), (isPaused s), (gameStarted s); done. }
  destruct Hflags as (Hgs & Hgo & Hpa).
  destruct (paintRows_idempotent (λ old, if falsy old then str ghostMarker else old)
              px (py + dy)) with (rows := Piece.shape p) (y0 := 0%nat) (b := board s)
    as (d1 & Hd1 & Hlen1 & Hcell1); [|done|].
  { intros v. destruct (falsy v) eqn:Hv; [done|]. by rewrite Hv. }
  destruct (paintRows_idempotent (λ _, str (Piece.color p)) px py)
    with (rows := Piece.shape p) (y0 := 0%nat) (b := d1)
    as (d2 & Hd2 & Hlen2 & Hcell2); [done|lia|].
  exists (py + dy), d2. split; [exact Hland|]. split.
  { unfold getDisplayBoard, ghostY, paintShape. fold p px py.
    rewrite Hgs, Hgo, Hpa. simpl. rewrite Hland. simpl. rewrite Hd1. simpl. exact Hd2. }
  split; [lia|]. intros r c. rewrite Hcell2, Hcell1.
  split; [|split].
  - intros Hcov. apply covered_decide in Hcov. by rewrite Hcov.
  - intros Hno Hcov. apply covered_decide in Hcov. rewrite Hcov.
    destruct (coveredRows px py _ _ _ _) eqn:Hc; [|done].
    by apply covered_decide in Hc.
  - intros Hno Hnog.
    destruct (coveredRows px py _ _ _ _) eqn:Hc; [by apply covered_decide in Hc|].
    destruct (coveredRows px (py + dy) _ _ _ _) eqn:Hg; [|done].
    by apply covered_decide in Hg.
Qed.

(** ** The falling loop *)

Lemma checkCollision_no_cell (piecePos : Pos) (pieceShape : TetrominoShape) (b : Board) :
  hasOccupied pieceShape = false → checkCollision piecePos pieceShape b = Ret false.
Proof.
  unfold checkCollision, hasOccupied. generalize 0%nat as y0.
  induction pieceShape as [|row rest IH]; intros y0 Hnone; [done|].
  simpl in Hnone. apply orb_false_iff in Hnone as [Hrow Hrest].
  simpl.
  assert (Hr : ∀ x0, checkCollisionRow piecePos b y0 row x0 = Ret false).
  { clear -Hrow. induction row as [|cell row IHr]; intros x0; [done|].
    simpl in Hrow. apply orb_false_iff in Hrow as [Hcell Hrow].
    simpl. rewrite Hcell. by apply IHr. }
  rewrite Hr. simpl. by apply IH.
Qed.

(** X11. The loop [while (!checkCollision(...)) currentY += 1] of the hard
    drop and of the ghost leaves, on a shape with an occupied cell and a
    board with its rows, at a row [landed] that is the start row or a row
    below it and above the floor. *)
Theorem fallWhileFree_terminates (b : Board) (pieceShape : TetrominoShape)
    (px py : Z) :
  hasOccupied pieceShape = true →
  (Z.to_nat BOARD_HEIGHT <= length b)%nat →
  ∃ landed, landingRow b pieceShape px py = Ret landed ∧
    py <= landed ∧ (landed = py ∨ landed < BOARD_HEIGHT).
Proof.
  intros Hsome Hlen. apply hasOccupied_true in Hsome as (r & c & Hocc).
  destruct (landingRow_spec b pieceShape px py r c Hlen Hocc)
    as (dy & Hdy & Hland & _ & Hfree).
  exists (py + dy). split; [done|]. split; [lia|].
  destruct (decide (dy = 0)) as [->|Hpos]; [left; lia|right].
  pose proof (checkCollision_false_above_floor (Pos.mk px (py + dy)) pieceShape b r c
                Hlen (Hfree dy ltac:(lia)) Hocc) as Hfloor.
  simpl in Hfloor. lia.
Qed.

(** X24. On a shape without occupied cell [checkCollision] never reports a
    collision, so the same loop never leaves, on any board and from any
    row: whatever the fuel, its model runs out of it. *)
Theorem fallWhileFree_empty_shape_diverges (b : Board) (pieceShape : TetrominoShape)
    (px py : Z) (fuel : nat) :
  hasOccupied pieceShape = false →
  checkCollision (Pos.mk px py) pieceShape b = Ret false ∧
  fallWhileFree fuel b pieceShape px py = Diverge.
Proof.
  intros Hnone. split; [by apply checkCollision_no_cell|].
  revert py. induction fuel as [|fuel IH]; intros py; [done|].
  simpl. rewrite checkCollision_no_cell by done. simpl. apply IH.
Qed.

(** ** Rotation of any rectangular matrix *)

Lemma rect_row (n w : nat) (m : list (list value)) (r : nat) :
  rect n w m → (r < n)%nat → ∃ row, m !! r = Some row ∧ length row = w.
Proof.
  intros [Hn Hw] Hr. destruct (lookup_lt_is_Some_2 m r) as [row Hrow]; [lia|].
  exists row. split; [done|]. rewrite Forall_lookup in Hw. by eapply Hw.
Qed.

(** Two matrices of the same size with the same cells are equal. *)
Lemma rect_ext (n w : nat) (a b : list (list value)) :
  rect n w a → rect n w b →
  (∀ r c, (r < n)%nat → (c < w)%nat → cellAt a r c = cellAt b r c) → a = b.
Proof.
  intros Ha Hb Hcells.
  apply (list_eq_same_length a b n); [by destruct Hb|by destruct Ha|].
  intros r x y Hr Hx Hy.
  destruct (rect_row n w a r Ha Hr) as (x' & Hx' & Hlx).
  destruct (rect_row n w b r Hb Hr) as (y' & Hy' & Hly).
  rewrite Hx in Hx'. injection Hx' as <-. rewrite Hy in Hy'. injection Hy' as <-.
  apply (list_eq_same_length x y w); [done..|].
  intros c u v Hc Hu Hv. specialize (Hcells r c Hr Hc).
  unfold cellAt, index in Hcells. by rewrite Hx, Hy, Hu, Hv in Hcells.
Qed.

Lemma rotateMatrix_rect (n w : nat) (m : TetrominoShape) :
  rect n w m → (0 < n)%nat →
  ∃ m', rotateMatrix m = Ret m' ∧ rect w n m' ∧
    ∀ r c, (r < n)%nat → (c < w)%nat → cellAt m' c (n - 1 - r) = cellAt m r c.
Proof.
  intros Hrect Hn. pose proof Hrect as [Hlen Hrows].
  destruct (rect_row n w m 0 Hrect Hn) as (row0 & Hrow0 & Hw).
  unfold rotateMatrix. rewrite Hrow0. eexists. split; [done|].
  assert (Hcol : ∀ c, length (reverse (map (λ row, index row c) m)) = n).
  { intros c. by rewrite length_reverse, length_map. }
  split; [split|].
  - by rewrite length_imap.
  - apply Forall_lookup. intros c col Hc. rewrite list_lookup_imap in Hc.
    destruct (row0 !! c); [|done]. simpl in Hc. injection Hc as <-. apply Hcol.
  - intros r c Hr Hc. unfold cellAt at 1. rewrite list_lookup_imap.
    destruct (lookup_lt_is_Some_2 row0 c) as [v Hv]; [lia|]. rewrite Hv. simpl.
    unfold index at 1. rewrite reverse_lookup by (rewrite length_map; lia).
    rewrite length_map, Hlen. replace (n - S (n - 1 - r))%nat with r by lia.
    rewrite list_lookup_fmap. unfold cellAt.
    destruct (rect_row n w m r Hrect Hr) as (row & Hrow & _). by rewrite Hrow.
Qed.

Lemma transpose_rect (w : nat) (m : list (list value)) :
  Forall (λ row, length row = w) m →
  rect w (length m) (transpose w m) ∧
  ∀ r c, (r < length m)%nat → (c < w)%nat →
    cellAt (transpose w m) c r = cellAt m r c.
Proof.
  induction m as [|row rest IH]; intros Hrows.
  - simpl. split; [|intros; lia]. split; [by rewrite length_replicate|].
    by apply Forall_replicate.
  - apply Forall_cons in Hrows as [Hrow Hrest].
    destruct (IH Hrest) as [[Hlen Hcols] Hcells]. simpl. split; [split|].
    + rewrite length_zip_with. lia.
    + apply Forall_lookup. intros c col Hc.
      apply lookup_zip_with_Some in Hc as (v & col' & -> & Hv & Hcol').
      simpl. f_equal. rewrite Forall_lookup in Hcols. by eapply Hcols.
    + intros r c Hr Hc.
      destruct (lookup_lt_is_Some_2 row c) as [v Hv]; [lia|].
      destruct (lookup_lt_is_Some_2 (transpose w rest) c) as [col Hcol]; [lia|].
      unfold cellAt at 1.
      rewrite (proj2 (lookup_zip_with_Some cons row (transpose w rest) c (v :: col)));
        [|by exists v, col].
      destruct r as [|r]; simpl.
      * unfold cellAt, index. simpl. by rewrite Hv.
      * specialize (Hcells r c ltac:(simpl in Hr; lia) Hc).
        unfold cellAt at 1 in Hcells. rewrite Hcol in Hcells.
        unfold index in *. simpl. rewrite Hcells. done.
Qed.

Lemma spec_rotate_rect (n w : nat) (m : TetrominoShape) :
  rect n w m → (0 < n)%nat →
  rect w n (spec_rotate m) ∧
  ∀ r c, (r < n)%nat → (c < w)%nat →
    cellAt (spec_rotate m) c (n - 1 - r) = cellAt m r c.
Proof.
  intros Hrect Hn. pose proof Hrect as [Hlen Hrows].
  destruct (rect_row n w m 0 Hrect Hn) as (row0 & Hrow0 & Hw).
  destruct (transpose_rect w m Hrows) as [[Htl Htr] Hcells].
  rewrite Hlen in *.
  unfold spec_rotate. destruct m as [|first rest]; [simpl in Hlen; lia|].
  simpl in Hrow0. injection Hrow0 as ->. rewrite Hw.
  split; [split|].
  - by rewrite length_map.
  - apply Forall_lookup. intros c col Hc. rewrite list_lookup_fmap in Hc.
    destruct (transpose w (row0 :: rest) !! c) as [col'|] eqn:Hcol; [|done].
    simpl in Hc. injection Hc as <-. rewrite length_reverse.
    rewrite Forall_lookup in Htr. by eapply Htr.
  - intros r c Hr Hc. rewrite <- (Hcells r c Hr Hc).
    unfold cellAt. rewrite list_lookup_fmap.
    destruct (lookup_lt_is_Some_2 (transpose w (row0 :: rest)) c) as [col Hcol]; [lia|].
    rewrite Hcol. simpl. unfold index.
    rewrite Forall_lookup in Htr. pose proof (Htr c col Hcol) as Hcl.
    rewrite reverse_lookup by lia. rewrite Hcl.
    by replace (n - S (n - 1 - r))%nat with r by lia.
Qed.

(** A matrix of the same size with the cells of the quarter turn is the
    quarter turn. *)
Lemma quarter_turn_unique (n w : nat) (m a b : list (list value)) :
  rect w n a → rect w n b →
  (∀ r c, (r < n)%nat → (c < w)%nat → cellAt a c (n - 1 - r) = cellAt m r c) →
  (∀ r c, (r < n)%nat → (c < w)%nat → cellAt b c (n - 1 - r) = cellAt m r c) →
  a = b.
Proof.
  intros Ha Hb Hca Hcb. apply (rect_ext w n); [done..|].
  intros c r' Hc Hr'.
  replace r' with (n - 1 - (n - 1 - r'))%nat by lia.
  rewrite Hca, Hcb by lia. done.
Qed.

Lemma updateCell_rect (f : value → value) (w n : nat) (b : Board) (r c : nat) :
  rect w n b → (r < w)%nat → (c < n)%nat →
  ∃ b', updateCell f b r c = Ret b' ∧ rect w n b' ∧
    ∀ r' c', cellAt b' r' c' =
      if bool_decide (r = r') && bool_decide (c = c') then f (cellAt b r c)
      else cellAt b r' c'.
Proof.
  intros Hrect Hr Hc. destruct (rect_row w n b r Hrect Hr) as (row & Hrow & Hlen).
  destruct (updateCell f b r c) as [b'| |] eqn:Hupd;
    [|unfold updateCell in Hupd; by rewrite Hrow in Hupd..].
  exists b'. split; [done|]. split; [|by apply (updateCell_cellAt f b b' r c)].
  unfold updateCell in Hupd. rewrite Hrow in Hupd. injection Hupd as <-.
  destruct Hrect as [Hw Hrows]. split; [by rewrite length_insert|].
  apply Forall_insert; [done|]. unfold writeAt.
  replace (c <? length row)%nat with true by (symmetry; apply Nat.ltb_lt; lia).
  by rewrite length_insert.
Qed.

Lemma simple_rotateRow_spec (n w i : nat) (row : list value) (j : nat) (rotated : Board) :
  rect w n rotated → (i < n)%nat → (j + length row <= w)%nat →
  ∃ rot', Simple.rotateRow n i row j rotated = Ret rot' ∧ rect w n rot' ∧
    ∀ r c, cellAt rot' r c =
      if bool_decide (c = (n - 1 - i)%nat ∧ (j <= r < j + length row)%nat)
      then index row (r - j) else cellAt rotated r c.
Proof.
  revert j rotated. induction row as [|cell rest IH]; intros j rotated Hrect Hi Hj.
  - exists rotated. split; [done|]. split; [done|]. intros r c.
    case_bool_decide as Hcond; [simpl in Hcond; lia|done].
  - simpl in Hj. simpl.
    destruct (updateCell_rect (λ _, cell) w n rotated j (n - 1 - i) Hrect)
      as (rot1 & -> & Hrect1 & Hcells1); [lia..|].
    destruct (IH (S j) rot1 Hrect1 Hi) as (rot' & Hrun & Hrect' & Hcells'); [lia|].
    exists rot'. split; [done|]. split; [done|]. intros r c.
    rewrite Hcells', Hcells1. simpl length.
    repeat case_bool_decide; simpl; try lia; try done.
    + replace (r - j)%nat with (S (r - S j)) by lia. done.
    + replace (r - j)%nat with 0%nat by lia. done.
Qed.

Lemma simple_rotateRows_spec (n w : nat) (rows : list (list value)) (i : nat)
    (rotated : Board) :
  rect w n rotated → Forall (λ row, length row = w) rows →
  (i + length rows <= n)%nat →
  ∃ rot', Simple.rotateRows n rows i rotated = Ret rot' ∧ rect w n rot' ∧
    ∀ r c, (r < w)%nat → cellAt rot' r c =
      if bool_decide (c < n ∧ i <= n - 1 - c < i + length rows)%nat
      then cellAt rows (n - 1 - c - i) r else cellAt rotated r c.
Proof.
  revert i rotated. induction rows as [|row rest IH]; intros i rotated Hrect Hrows Hi.
  - exists rotated. split; [done|]. split; [done|]. intros r c Hr.
    case_bool_decide as Hcond; [simpl in Hcond; lia|done].
  - apply Forall_cons in Hrows as [Hrow Hrest]. simpl in Hi. simpl.
    destruct (simple_rotateRow_spec n w i row 0 rotated Hrect)
      as (rot1 & -> & Hrect1 & Hcells1); [lia..|].
    destruct (IH (S i) rot1 Hrect1 Hrest) as (rot' & Hrun & Hrect' & Hcells'); [lia|].
    exists rot'. split; [done|]. split; [done|]. intros r c Hr.
    rewrite (Hcells' r c Hr), Hcells1. simpl length.
    repeat case_bool_decide; simpl; try lia; try done.
    + replace (n - 1 - c - i)%nat with (S (n - 1 - c - S i)) by lia. done.
    + replace (n - 1 - c - i)%nat with 0%nat by lia.
      unfold cellAt. simpl. by rewrite Nat.sub_0_r.
Qed.

Lemma simple_rotatePiece_rect (n w : nat) (m : list (list value)) :
  rect n w m → (0 < n)%nat →
  ∃ m', Simple.rotatePiece m = Ret m' ∧ rect w n m' ∧
    ∀ r c, (r < n)%nat → (c < w)%nat → cellAt m' c (n - 1 - r) = cellAt m r c.
Proof.
  intros Hrect Hn. pose proof Hrect as [Hlen Hrows].
  destruct (rect_row n w m 0 Hrect Hn) as (row0 & Hrow0 & Hw).
  unfold Simple.rotatePiece. rewrite Hrow0, Hlen, Hw.
  destruct (simple_rotateRows_spec n w m 0 (replicate w (replicate n (num 0))))
    as (m' & Hrun & Hrect' & Hcells); [|done|lia|].
  { split; [by rewrite length_replicate|].
    apply Forall_replicate. by rewrite length_replicate. }
  exists m'. split; [done|]. split; [done|]. intros r c Hr Hc.
  rewrite (Hcells c (n - 1 - r)%nat Hc).
  case_bool_decide as Hcond; [|lia].
  f_equal. lia.
Qed.

(** X12. [rotateMatrix] turns any matrix of [n >= 1] rows of [w] cells a
    quarter turn clockwise: the result has [w] rows of [n] cells, it is the
    reversed-rows transpose, and the cell of row [r], column [c] moves to
    row [c], column [n - 1 - r]. When the rows are not empty four turns
    give the matrix back; when they are empty the result is the empty
    matrix, whose rotation throws. *)
Theorem rotateMatrix_quarter_turn (n w : nat) (m : TetrominoShape) :
  rect n w m → (0 < n)%nat →
  ∃ m1, rotateMatrix m = Ret m1 ∧ m1 = spec_rotate m ∧ rect w n m1 ∧
    (∀ r c, (r < n)%nat → (c < w)%nat → cellAt m1 c (n - 1 - r) = cellAt m r c) ∧
    ((0 < w)%nat →
       (m2 ← rotateMatrix m1; m3 ← rotateMatrix m2; rotateMatrix m3) = Ret m) ∧
    (w = 0%nat → rotateMatrix m1 = TypeError).
Proof.
  intros Hrect Hn.
  destruct (rotateMatrix_rect n w m Hrect Hn) as (m1 & Hrun1 & Hrect1 & Hcells1).
  destruct (spec_rotate_rect n w m Hrect Hn) as [HrectS HcellsS].
  exists m1. split; [done|]. split.
  { by apply (quarter_turn_unique n w m). }
  split; [done|]. split; [done|]. split.
  - intros Hw.
    destruct (rotateMatrix_rect w n m1 Hrect1 Hw) as (m2 & -> & Hrect2 & Hcells2).
    destruct (rotateMatrix_rect n w m2 Hrect2 Hn) as (m3 & Hrun3 & Hrect3 & Hcells3).
    destruct (rotateMatrix_rect w n m3 Hrect3 Hw) as (m4 & Hrun4 & Hrect4 & Hcells4).
    simpl. rewrite Hrun3. simpl. rewrite Hrun4. f_equal.
    apply (rect_ext n w); [done..|]. intros r c Hr Hc.
    replace c with (w - 1 - (w - 1 - c))%nat at 1 by lia.
    rewrite Hcells4 by lia.
    replace r with (n - 1 - (n - 1 - r))%nat at 1 by lia.
    rewrite Hcells3 by lia.
    rewrite Hcells2 by lia. by apply Hcells1.
  - intros ->. destruct Hrect1 as [Hlen1 _]. by destruct m1.
Qed.

(** X13. On every matrix of [n >= 1] rows of equal length the simplified
    variant's [rotatePiece], which fills a fresh zero matrix cell by cell,
    returns what the full variant's [rotateMatrix] returns, the
    reversed-rows transpose; on the empty matrix both throw. *)
Theorem simple_rotatePiece_agrees (n w : nat) (m : list (list value)) :
  rect n w m → (0 < n)%nat →
  Simple.rotatePiece m = rotateMatrix m ∧
  Simple.rotatePiece m = Ret (spec_rotate m) ∧
  Simple.rotatePiece [] = TypeError ∧ rotateMatrix [] = TypeError.
Proof.
  intros Hrect Hn.
  destruct (rotateMatrix_rect n w m Hrect Hn) as (m1 & Hrun1 & Hrect1 & Hcells1).
  destruct (simple_rotatePiece_rect n w m Hrect Hn) as (m2 & Hrun2 & Hrect2 & Hcells2).
  destruct (spec_rotate_rect n w m Hrect Hn) as [HrectS HcellsS].
  rewrite Hrun1, Hrun2. repeat split.
  - f_equal. by apply (quarter_turn_unique n w m).
  - f_equal. by apply (quarter_turn_unique n w m).
Qed.

(** ** The session of the simplified variant *)

Lemma simple_orientation_facts (p : list (list value)) :
  p ∈ SimpleGame.orientations →
  (∃ r, Simple.rotatePiece p = Ret r ∧ r ∈ SimpleGame.orientations) ∧
  numeric p ∧ (length p <= 4)%nat.
Proof.
  assert (Hall : forallb (λ p,
            match Simple.rotatePiece p with
            | Ret r => bool_decide (r ∈ SimpleGame.orientations)
            | _ => false
            end
            && forallb (forallb (λ c, match c with num _ => true | _ => false end)) p
            && (length p <=? 4)%nat) SimpleGame.orientations = true)
    by (vm_compute; reflexivity).
  rewrite forallb_forall in Hall. intros Hin.
  apply list_elem_of_In, Hall in Hin. rewrite !andb_true_iff in Hin.
  destruct Hin as [[Hrot Hnum] Hlen]. split; [|split].
  - destruct (Simple.rotatePiece p) as [r| |]; [|done..].
    exists r. split; [done|]. by apply bool_decide_eq_true in Hrot.
  - apply Forall_forall. intros row Hrow. apply Forall_forall. intros c Hc.
    rewrite forallb_forall in Hnum. apply list_elem_of_In in Hrow.
    specialize (Hnum row Hrow). rewrite forallb_forall in Hnum.
    apply list_elem_of_In in Hc. specialize (Hnum c Hc).
    destruct c; try done. by eexists.
  - by apply Nat.leb_le.
Qed.

Lemma simple_catalogue_orientation (p : list (list value)) :
  p ∈ Simple.PIECES → p ∈ SimpleGame.orientations.
Proof.
  assert (Hall : forallb (λ p, bool_decide (p ∈ SimpleGame.orientations)) Simple.PIECES
                 = true) by (vm_compute; reflexivity).
  rewrite forallb_forall in Hall. intros Hin.
  apply list_elem_of_In, Hall in Hin. by apply bool_decide_eq_true in Hin.
Qed.

Lemma simple_spawn_free (p : list (list value)) :
  p ∈ Simple.PIECES → Simple.canMove Simple.createEmptyBoard p 3 0 = Ret true.
Proof.
  assert (Hall : forallb (λ p,
            match Simple.canMove Simple.createEmptyBoard p 3 0 with
            | Ret true => true
            | _ => false
            end) Simple.PIECES = true) by (vm_compute; reflexivity).
  rewrite forallb_forall in Hall. intros Hin.
  apply list_elem_of_In, Hall in Hin.
  by destruct (Simple.canMove _ _ _ _) as [[]| |].
Qed.

Lemma simple_draw (i : nat) :
  (i < 7)%nat →
  (SimpleGame.getRandomPiece i).1 ∈ Simple.PIECES ∧
  0 <= (SimpleGame.getRandomPiece i).2 < 7.
Proof.
  intros Hi. unfold SimpleGame.getRandomPiece. simpl. split; [|lia].
  destruct (lookup_lt_is_Some_2 Simple.PIECES i) as [p Hp]; [simpl; lia|].
  rewrite Hp. simpl. apply list_elem_of_lookup. eauto.
Qed.

Lemma simple_placePiece_grid (b b' : Board) (piece : list (list value)) (x y color : Z) :
  numeric piece → 0 <= color < 7 → SimpleGame.gridOk b →
  Simple.placePiece b piece x y color = Ret b' → SimpleGame.gridOk b'.
Proof.
  intros Hnum Hcol Hb. rewrite simple_placePiece_paint by done. unfold paintShape.
  apply (forEachCellRows_invariant _ SimpleGame.gridOk); [|done].
  clear -Hcol. intros b Y X b' [Hlen Hrows] Hon. apply onBoard_true in Hon.
  unfold updateCell. destruct (b !! Z.to_nat Y) as [row|] eqn:Hrow; [|done].
  intros [= <-]. split; [by rewrite length_insert|].
  apply Forall_insert; [done|].
  rewrite Forall_lookup in Hrows. destruct (Hrows _ _ Hrow) as [Hw Hcells].
  unfold writeAt. rewrite (proj2 (Nat.ltb_lt _ _)) by lia.
  split; [by rewrite length_insert|].
  apply Forall_insert; [done|]. exists (color + 1). split; [done|lia].
Qed.

Lemma simple_clearLines_boardOk (b b' : Board) (n : nat) :
  SimpleGame.gridOk b → Simple.clearLines b = Ret (b', n) →
  SimpleGame.boardOk b' ∧ n = length (filter simpleRowFull b).
Proof.
  intros [Hlen Hrows] Hclear.
  pose proof (simple_clearLines_length _ _ _ Hclear) as Hlen'.
  rewrite simple_clearLines_spec in Hclear. injection Hclear as <- <-.
  split; [|done]. split; [split|].
  - lia.
  - apply Forall_app. split.
    + apply Forall_replicate. split; [done|]. apply Forall_replicate.
      exists 0. split; [done|lia].
    + apply Forall_forall. intros row Hin.
      apply list_elem_of_filter in Hin as [_ Hin].
      rewrite Forall_forall in Hrows. by apply Hrows.
  - intros row Hin. apply elem_of_app in Hin as [Hin|Hin].
    + apply elem_of_replicate in Hin as [-> _]. apply simple_emptyRow_not_full.
    + by apply list_elem_of_filter in Hin as [Hnf _].
Qed.

Lemma simple_placePiece_full_rows (b b' : Board) (piece : list (list value))
    (x y color : Z) :
  numeric piece → (∀ row, row ∈ b → ¬ simpleRowFull row) →
  Simple.placePiece b piece x y color = Ret b' →
  (length (filter simpleRowFull b') <= length piece)%nat.
Proof.
  intros Hnum Hnone Hplace. rewrite simple_placePiece_paint in Hplace by done.
  unfold paintShape in Hplace.
  apply (filter_window simpleRowFull b' (Z.to_nat y) (length piece)).
  intros r row Hrow Hfull.
  destruct (decide (Z.to_nat y <= r < Z.to_nat y + length piece)%nat)
    as [|Hout]; [done|].
  exfalso. apply (Hnone row); [|done].
  apply list_elem_of_lookup. exists r. rewrite <- Hrow. symmetry.
  eapply paintRows_other_rows; [exact Hplace|]. intros i Hi. lia.
Qed.

Lemma simple_createEmptyBoard_ok : SimpleGame.boardOk Simple.createEmptyBoard.
Proof.
  split; [split; [done|]|].
  - apply Forall_replicate. split; [done|]. apply Forall_replicate.
    exists 0. split; [done|lia].
  - intros row Hin. apply elem_of_replicate in Hin as [-> _].
    apply simple_emptyRow_not_full.
Qed.

Lemma simple_resetGame_initial (iNext iCur : nat) :
  SimpleGame.resetGame iNext iCur = SimpleGame.initialGameState iNext iCur.
Proof. reflexivity. Qed.

Lemma simple_initial_consistent (iNext iCur : nat) :
  (iNext < 7)%nat → (iCur < 7)%nat →
  SimpleGame.consistent (SimpleGame.initialGameState iNext iCur).
Proof.
  intros Hn Hc. destruct (simple_draw iNext Hn) as [Hnp Hnc].
  destruct (simple_draw iCur Hc) as [Hcp Hcc].
  unfold SimpleGame.initialGameState.
  destruct (SimpleGame.getRandomPiece iNext) as [np nc].
  destruct (SimpleGame.getRandomPiece iCur) as [cp cc]. simpl in *.
  split; [apply simple_createEmptyBoard_ok|].
  split; [by apply simple_catalogue_orientation|].
  split; [done|]. split; [done|]. split; [done|].
  split; [by apply simple_spawn_free|]. done.
Qed.

Lemma simple_moved_consistent (s s' : Simple.GameState) :
  SimpleGame.consistent s → SimpleGame.moved s s' → SimpleGame.consistent s'.
Proof.
  intros Hs Hmoved.
  pose proof Hs as (Hboard & Hcur & Hnext & Hcc & Hnc & Hfree & Hy & Hlines & Hlevel & Hscore & Hmod).
  destruct Hmoved as [|piece pos Hpiece Hpy Hpfree|v|Hgo Hp
    |placed newBoard n dp dc Hgo Hp Hdown Hplaced Hclear Hn Hspawn Hdp Hdc
    |iNext iCur Hi1 Hi2]; try done.
  - unfold SimpleGame.consistent. simpl.
    destruct (simple_orientation_facts _ Hcur) as (_ & Hnum & _).
    destruct Hboard as [Hgrid Hnofull].
    pose proof (simple_placePiece_grid _ _ _ _ _ _ Hnum Hcc Hgrid Hplaced) as Hgrid1.
    destruct (simple_clearLines_boardOk _ _ _ Hgrid1 Hclear) as [Hnew _].
    split; [done|]. split; [by apply simple_catalogue_orientation|].
    split; [done|]. split; [done|]. split; [done|]. split; [done|].
    split; [done|]. split; [lia|]. split; [done|].
    unfold SimpleGame.scoreIncrease.
    destruct (n =? 1)%nat, (n =? 2)%nat, (n =? 3)%nat;
      (split; [lia|]); (rewrite Z.add_mod, Hmod by lia); reflexivity.
  - rewrite simple_resetGame_initial. by apply simple_initial_consistent.
Qed.

Lemma simple_moveDown_moved (s : Simple.GameState) (dp : list (list value)) (dc : Z) :
  SimpleGame.consistent s → dp ∈ Simple.PIECES → 0 <= dc < 7 →
  ∃ s', Simple.moveDown s dp dc = Ret s' ∧ SimpleGame.moved s s'.
Proof.
  intros (Hboard & Hcur & Hnext & Hcc & Hnc & Hfree & Hy & Hlines & Hlevel & Hscore & Hmod)
    Hdp Hdc.
  destruct Hboard as [[Hlen Hrows] Hnofull].
  destruct (simple_orientation_facts _ Hcur) as (_ & Hnum & Hheight).
  unfold Simple.moveDown.
  destruct (Simple.gameOver s || Simple.isPaused s) eqn:Hblocked.
  { exists s. split; [done|]. constructor. }
  apply orb_false_iff in Hblocked as [Hgo Hp].
  destruct (simple_canMove_spec (Simple.board s) (Simple.currentPiece s)
              (Pos.x (Simple.position s)) (Pos.y (Simple.position s) + 1))
    as (ok & Hok & _); [lia|].
  rewrite Hok, outcome_ret_bind. destruct ok.
  { eexists. split; [reflexivity|].
    apply (SimpleGame.moved_piece s (Simple.currentPiece s)
             (Pos.mk (Pos.x (Simple.position s)) (Pos.y (Simple.position s) + 1)));
      [done|simpl; lia|done]. }
  destruct (simple_placePiece_frame (Simple.board s) (Simple.currentPiece s)
              (Pos.x (Simple.position s)) (Pos.y (Simple.position s))
              (Simple.currentColor s) Hnum)
    as (placed & Hplaced & Hplen & _); [lia|].
  rewrite Hplaced, outcome_ret_bind.
  destruct (Simple.clearLines placed) as [[newBoard n]| |] eqn:Hclear;
    [|by rewrite simple_clearLines_spec in Hclear..].
  rewrite outcome_ret_bind. cbn [fst snd].
  pose proof (simple_clearLines_length _ _ _ Hclear) as Hnlen.
  destruct (simple_canMove_spec newBoard (Simple.nextPiece s) 3 0)
    as (ok2 & Hok2 & _); [lia|].
  rewrite Hok2, outcome_ret_bind. destruct ok2; cbn [negb].
  - eexists. split; [reflexivity|].
    apply (SimpleGame.moved_lock s placed newBoard n dp dc); try done.
    pose proof (simple_placePiece_full_rows _ _ _ _ _ _ Hnum Hnofull Hplaced) as Hfull.
    rewrite simple_clearLines_spec in Hclear. injection Hclear as _ <-. lia.
  - eexists. split; [reflexivity|]. by apply SimpleGame.moved_over.
Qed.

Lemma simple_shiftKey_moved (s : Simple.GameState) (dx : Z) :
  SimpleGame.consistent s →
  ∃ s', SimpleGame.shiftKey dx s = Ret s' ∧ SimpleGame.moved s s'.
Proof.
  intros (Hboard & Hcur & Hnext & Hcc & Hnc & Hfree & Hy & _).
  destruct Hboard as [[Hlen Hrows] Hnofull].
  unfold SimpleGame.shiftKey.
  destruct (simple_canMove_spec (Simple.board s) (Simple.currentPiece s)
              (Pos.x (Simple.position s) + dx) (Pos.y (Simple.position s)))
    as (ok & Hok & _); [lia|].
  cbv zeta. rewrite Hok, outcome_ret_bind. destruct ok.
  - eexists. split; [reflexivity|].
    by apply (SimpleGame.moved_piece s (Simple.currentPiece s)
                (Pos.mk (Pos.x (Simple.position s) + dx) (Pos.y (Simple.position s)))).
  - exists s. split; [done|]. constructor.
Qed.

Lemma simple_rotateKey_moved (s : Simple.GameState) :
  SimpleGame.consistent s →
  ∃ s', Simple.rotateKey s = Ret s' ∧ SimpleGame.moved s s'.
Proof.
  intros (Hboard & Hcur & Hnext & Hcc & Hnc & Hfree & Hy & _).
  destruct Hboard as [[Hlen Hrows] Hnofull].
  destruct (simple_orientation_facts _ Hcur) as ((r & Hr & Hrin) & _).
  unfold Simple.rotateKey. rewrite Hr, outcome_ret_bind.
  destruct (simple_canMove_spec (Simple.board s) r
              (Pos.x (Simple.position s)) (Pos.y (Simple.position s)))
    as (ok & Hok & _); [lia|].
  rewrite Hok, outcome_ret_bind. destruct ok.
  - eexists. split; [reflexivity|].
    by apply (SimpleGame.moved_piece s r (Simple.position s)).
  - exists s. split; [done|]. constructor.
Qed.

(** An event handled by the listener of the render [cl] on the pending
    state [st] changes [st] in one of the ways of [moved]. *)
Lemma simple_handle_moved (cl st : Simple.GameState) (e : SimpleGame.Event) :
  SimpleGame.consistent st → SimpleGame.enabled cl e = true →
  ∃ st', SimpleGame.handle cl e st = Ret st' ∧ SimpleGame.moved st st'.
Proof.
  intros Hs Hen. destruct e as [i1 i2|key i1 i2|iNext iCur]; simpl in Hen.
  - apply andb_true_iff in Hen as [H1 H2].
    apply Nat.ltb_lt in H1, H2.
    apply simple_moveDown_moved; [done|by apply simple_draw..].
  - apply andb_true_iff in Hen as [H1 H2].
    apply Nat.ltb_lt in H1, H2.
    unfold SimpleGame.handle, SimpleGame.handleKeyDown.
    destruct (Simple.gameOver cl) eqn:Hgo.
    { exists st. split; [done|]. constructor. }
    destruct key.
    + by apply simple_shiftKey_moved.
    + by apply simple_shiftKey_moved.
    + apply simple_moveDown_moved; [done|by apply simple_draw..].
    + eexists. split; [reflexivity|]. by apply SimpleGame.moved_pause.
    + by apply simple_rotateKey_moved.
    + exists st. split; [done|]. constructor.
  - rewrite !andb_true_iff in Hen. destruct Hen as [[H1 H2] Hshown].
    apply Nat.ltb_lt in H1, H2.
    eexists. split; [reflexivity|]. by apply SimpleGame.moved_reset.
Qed.

Lemma simple_step_handle (s : Simple.GameState) (e : SimpleGame.Event) :
  SimpleGame.step s e = SimpleGame.handle s e s.
Proof. by destruct e. Qed.

Lemma simple_step_moved (s : Simple.GameState) (e : SimpleGame.Event) :
  SimpleGame.consistent s → SimpleGame.enabled s e = true →
  ∃ s', SimpleGame.step s e = Ret s' ∧ SimpleGame.moved s s'.
Proof. rewrite simple_step_handle. apply simple_handle_moved. Qed.

Lemma simple_reachable_consistent (s : Simple.GameState) :
  SimpleGame.reachable s → SimpleGame.consistent s.
Proof.
  induction 1 as [iNext iCur Hn Hc|s e s' _ IH Hen Hstep].
  - by apply simple_initial_consistent.
  - destruct (simple_step_moved s e IH Hen) as (s1 & Hs1 & Hmoved).
    rewrite Hstep in Hs1. injection Hs1 as <-.
    by apply (simple_moved_consistent s).
Qed.

Lemma simple_occupied_free (b : Board) (piece : list (list value)) (x y : Z) (r c : nat) :
  (20 <= length b)%nat → Simple.canMove b piece x y = Ret true →
  simpleOccupied piece r c →
  0 <= x + Z.of_nat c < 10 ∧ y + Z.of_nat r < 20 ∧
  (0 <= y + Z.of_nat r →
   cellAt b (Z.to_nat (y + Z.of_nat r)) (Z.to_nat (x + Z.of_nat c)) = num 0).
Proof.
  intros Hlen Hfree Hocc.
  destruct (simple_canMove_spec b piece x y Hlen) as (ok & Hok & Hiff).
  rewrite Hfree in Hok. injection Hok as <-.
  assert (Hnb : ¬ simpleBlocked b (x + Z.of_nat c) (y + Z.of_nat r)).
  { intros Hb. assert (true = false); [|done]. apply Hiff. by exists r, c. }
  assert (Hin : 0 <= x + Z.of_nat c < 10 ∧ y + Z.of_nat r < 20).
  { destruct (decide (0 <= x + Z.of_nat c < 10 ∧ y + Z.of_nat r < 20)); [done|].
    exfalso. apply Hnb. unfold simpleBlocked. lia. }
  split; [lia|]. split; [lia|]. intros Hy0.
  destruct (lookup_lt_is_Some_2 b (Z.to_nat (y + Z.of_nat r))) as [brow Hbrow]; [lia|].
  unfold cellAt. rewrite Hbrow.
  destruct (decide (index brow (Z.to_nat (x + Z.of_nat c)) = num 0)) as [|Hne]; [done|].
  exfalso. apply Hnb. right; right; right. split; [lia|]. by exists brow.
Qed.

Lemma simple_occupied_numeric (piece : list (list value)) (r c : nat) :
  numeric piece → occupied piece r c → simpleOccupied piece r c.
Proof.
  intros Hnum (row & cell & Hr & Hc & Hne). exists row, cell.
  split; [done|]. split; [done|].
  unfold numeric in Hnum. rewrite Forall_lookup in Hnum. specialize (Hnum _ _ Hr).
  rewrite Forall_lookup in Hnum. destruct (Hnum _ _ Hc) as [k ->].
  rewrite truthy_num. by apply strict_ne_true.
Qed.

(** X14. [clearLines] of the simplified variant returns on every board,
    whatever its size: it keeps the number of rows, counts the full rows,
    leaves no full row, and run again on its result it changes nothing. *)
Theorem simple_clearLines_clears (b : Board) :
  ∃ b' n, Simple.clearLines b = Ret (b', n) ∧
    length b' = length b ∧ n = length (filter simpleRowFull b) ∧
    (∀ row, row ∈ b' → ¬ simpleRowFull row) ∧
    Simple.clearLines b' = Ret (b', 0%nat).
Proof.
  destruct (Simple.clearLines b) as [[b' n]| |] eqn:Hclear;
    [|by rewrite simple_clearLines_spec in Hclear..].
  exists b', n. split; [done|].
  split; [by apply (simple_clearLines_length b b' n)|].
  rewrite simple_clearLines_spec in Hclear. injection Hclear as <- <-.
  split; [done|].
  assert (Hnone : ∀ row,
    row ∈ replicate (length (filter simpleRowFull b)) Simple.emptyRow
          ++ filter (λ row, ¬ simpleRowFull row) b → ¬ simpleRowFull row).
  { intros row Hin. apply elem_of_app in Hin as [Hin|Hin].
    - apply elem_of_replicate in Hin as [-> _]. apply simple_emptyRow_not_full.
    - by apply list_elem_of_filter in Hin as [Hnf _]. }
  split; [done|].
  rewrite simple_clearLines_spec.
  rewrite (filter_none simpleRowFull) by done.
  rewrite (filter_all (λ row, ¬ simpleRowFull row)) by done. done.
Qed.

(** X15. In every state of a game of the simplified variant the board has
    20 rows of 10 cells, every cell is a number from 0 (empty) to 7 (a
    colour index plus one), and no row is full. *)
Theorem simple_reachable_board (s : Simple.GameState) :
  SimpleGame.reachable s →
  length (Simple.board s) = 20%nat ∧
  (∀ row, row ∈ Simple.board s → length row = 10%nat ∧ ¬ simpleRowFull row) ∧
  ∀ r c, (r < 20)%nat → (c < 10)%nat →
    ∃ k, cellAt (Simple.board s) r c = num k ∧ 0 <= k <= 7.
Proof.
  intros Hreach. apply simple_reachable_consistent in Hreach as [[[Hlen Hrows] Hnofull] _].
  split; [done|]. split.
  - intros row Hin. split; [|by apply Hnofull].
    rewrite Forall_forall in Hrows. by apply Hrows.
  - intros r c Hr Hc.
    destruct (lookup_lt_is_Some_2 (Simple.board s) r) as [row Hrow]; [lia|].
    rewrite Forall_lookup in Hrows. destruct (Hrows _ _ Hrow) as [Hw Hcells].
    destruct (lookup_lt_is_Some_2 row c) as [cell Hcell]; [lia|].
    rewrite Forall_lookup in Hcells. destruct (Hcells _ _ Hcell) as (k & -> & Hk).
    exists k. split; [|done]. unfold cellAt, index. by rewrite Hrow, Hcell.
Qed.

(** X16. In every state of a game of the simplified variant, also after
    the game is over, the current piece is a catalogue piece in one of its
    four orientations, [canMove] accepts it where it stands, and each of
    its cells lies in a column and a row of the board, on an empty cell. *)
Theorem simple_reachable_piece (s : Simple.GameState) (r c : nat) :
  SimpleGame.reachable s → simpleOccupied (Simple.currentPiece s) r c →
  Simple.currentPiece s ∈ SimpleGame.orientations ∧
  Simple.canMove (Simple.board s) (Simple.currentPiece s)
    (Pos.x (Simple.position s)) (Pos.y (Simple.position s)) = Ret true ∧
  0 <= Pos.x (Simple.position s) + Z.of_nat c < 10 ∧
  0 <= Pos.y (Simple.position s) + Z.of_nat r < 20 ∧
  cellAt (Simple.board s) (Z.to_nat (Pos.y (Simple.position s) + Z.of_nat r))
    (Z.to_nat (Pos.x (Simple.position s) + Z.of_nat c)) = num 0.
Proof.
  intros Hreach Hocc.
  apply simple_reachable_consistent in Hreach
    as ([[Hlen Hrows] Hnofull] & Hcur & _ & _ & _ & Hfree & Hy & _).
  destruct (simple_occupied_free (Simple.board s) (Simple.currentPiece s)
              (Pos.x (Simple.position s)) (Pos.y (Simple.position s)) r c)
    as (Hx & Hy2 & Hcell); [lia|done..|].
  split; [done|]. split; [done|]. split; [done|]. split; [lia|]. apply Hcell. lia.
Qed.

(** X17. No event that can happen makes a game of the simplified variant
    throw or loop: the timer tick, every key and the reset button return a
    state, which is again a state of a game. *)
Theorem simple_reachable_never_fails (s : Simple.GameState) (e : SimpleGame.Event) :
  SimpleGame.reachable s → SimpleGame.enabled s e = true →
  ∃ s', SimpleGame.step s e = Ret s' ∧ SimpleGame.reachable s'.
Proof.
  intros Hreach Hen.
  destruct (simple_step_moved s e (simple_reachable_consistent s Hreach) Hen)
    as (s' & Hstep & _).
  exists s'. split; [done|]. by apply (SimpleGame.reachable_step s e).
Qed.

(** X18. In every state of a game of the simplified variant the line count
    is not negative, the level is the line count divided by 10, plus one,
    the score is a non-negative multiple of 100, and the period of the
    gravity timer lies between 100 and 470 ms; it is 100 ms exactly from
    130 lines on. *)
Theorem simple_reachable_counters (s : Simple.GameState) :
  SimpleGame.reachable s →
  0 <= Simple.lines s ∧ Simple.level s = Simple.lines s / 10 + 1 ∧
  0 <= Simple.score s ∧ Simple.score s mod 100 = 0 ∧
  100 <= SimpleGame.getGameSpeed s <= 470 ∧
  (SimpleGame.getGameSpeed s = 100 ↔ 130 <= Simple.lines s).
Proof.
  intros Hreach.
  apply simple_reachable_consistent in Hreach
    as (_ & _ & _ & _ & _ & _ & _ & Hlines & Hlevel & Hscore & Hmod).
  split; [done|]. split; [done|]. split; [done|]. split; [done|].
  unfold SimpleGame.getGameSpeed. rewrite Hlevel.
  pose proof (Z.div_mod (Simple.lines s) 10 ltac:(lia)) as Hdiv.
  pose proof (Z.mod_pos_bound (Simple.lines s) 10 ltac:(lia)) as Hrem.
  split; lia.
Qed.

(** X20. The pause of the simplified variant stops the gravity only: in a
    paused game the timer tick and the down key leave the state as it is,
    while the left, right and rotation keys do what they do in the same
    game when it is not paused. *)
Theorem simple_pause_gates_gravity_only (s : Simple.GameState) (i1 i2 : nat) :
  Simple.isPaused s = true →
  SimpleGame.step s (SimpleGame.Tick i1 i2) = Ret s ∧
  SimpleGame.step s (SimpleGame.KeyDown SimpleGame.ArrowDown i1 i2) = Ret s ∧
  ∀ key, key ∈ [SimpleGame.ArrowLeft; SimpleGame.ArrowRight; SimpleGame.ArrowUp] →
    SimpleGame.step s (SimpleGame.KeyDown key i1 i2)
    = SimpleGame.withPaused true
        <$> SimpleGame.step (SimpleGame.withPaused false s) (SimpleGame.KeyDown key i1 i2).
Proof.
  intros Hp. split; [|split].
  - unfold SimpleGame.step, Simple.moveDown. rewrite Hp.
    by destruct (Simple.gameOver s).
  - unfold SimpleGame.step, SimpleGame.handleKeyDown, Simple.moveDown. rewrite Hp.
    by destruct (Simple.gameOver s).
  - intros key Hkey. destruct s as [b cp cc np nc pos sc ln lv go pa].
    simpl in Hp. subst pa.
    unfold SimpleGame.step, SimpleGame.handleKeyDown, SimpleGame.withPaused. simpl.
    destruct go; [by repeat (apply elem_of_cons in Hkey as [->|Hkey])|].
    repeat (apply elem_of_cons in Hkey as [->|Hkey]);
      [| | |by apply elem_of_nil in Hkey].
    + unfold SimpleGame.shiftKey. simpl.
      by destruct (Simple.canMove _ _ _ _) as [[]| |].
    + unfold SimpleGame.shiftKey. simpl.
      by destruct (Simple.canMove _ _ _ _) as [[]| |].
    + unfold Simple.rotateKey. simpl.
      destruct (Simple.rotatePiece cp) as [r| |]; [|done..]. simpl.
      by destruct (Simple.canMove _ _ _ _) as [[]| |].
Qed.

(** X21. [renderBoard] of the simplified variant returns, in every state
    of a game, a display of 20 rows that shows the colour index plus one, a
    number from 1 to 7, at the cells the current piece covers, all of which
    are empty on the stored board, and the stored cell everywhere else. *)
Theorem simple_renderBoard_cells (s : Simple.GameState) :
  SimpleGame.reachable s →
  ∃ display, SimpleGame.renderBoard s = Ret display ∧ length display = 20%nat ∧
    1 <= Simple.currentColor s + 1 <= 7 ∧
    ∀ r c,
      (covered (Simple.currentPiece s) (Pos.x (Simple.position s))
         (Pos.y (Simple.position s)) r c →
       cellAt display r c = num (Simple.currentColor s + 1) ∧
       cellAt (Simple.board s) r c = num 0) ∧
      (¬ covered (Simple.currentPiece s) (Pos.x (Simple.position s))
           (Pos.y (Simple.position s)) r c →
       cellAt display r c = cellAt (Simple.board s) r c).
Proof.
  intros Hreach.
  apply simple_reachable_consistent in Hreach
    as ([[Hlen Hrows] Hnofull] & Hcur & _ & Hcc & _ & Hfree & Hy & _).
  destruct (simple_orientation_facts _ Hcur) as (_ & Hnum & _).
  destruct (simple_placePiece_frame (Simple.board s) (Simple.currentPiece s)
              (Pos.x (Simple.position s)) (Pos.y (Simple.position s))
              (Simple.currentColor s) Hnum)
    as (display & Hdisplay & Hdlen & Hcov & Hncov); [lia|].
  exists display. split; [exact Hdisplay|]. split; [lia|]. split; [lia|].
  intros r c. split; [|by apply Hncov].
  intros Hcovered. split; [by apply Hcov|].
  destruct Hcovered as (i & j & Hocc & Hr & Hc & _).
  apply (simple_occupied_numeric _ _ _ Hnum) in Hocc.
  destruct (simple_occupied_free (Simple.board s) (Simple.currentPiece s)
              (Pos.x (Simple.position s)) (Pos.y (Simple.position s)) i j)
    as (_ & _ & Hcell); [lia|done..|].
  rewrite <- Hr, <- Hc, !Nat2Z.id in Hcell. apply Hcell. lia.
Qed.

(** X22. What one event does to the board and the counters of the
    simplified variant: nothing, or a lock, or a reset. A lock clears at
    most four rows, adds their number to the lines and 100, 300 or 500
    points for one, two or three rows and 800 points otherwise, also when
    no row is cleared, and puts the queued piece at column 3, row 0. *)
Theorem simple_step_counters (s s' : Simple.GameState) (e : SimpleGame.Event) :
  SimpleGame.reachable s → SimpleGame.enabled s e = true →
  SimpleGame.step s e = Ret s' →
  (Simple.board s' = Simple.board s ∧ Simple.score s' = Simple.score s ∧
   Simple.lines s' = Simple.lines s ∧ Simple.level s' = Simple.level s) ∨
  (∃ n : nat, (n <= 4)%nat ∧
     Simple.lines s' = Simple.lines s + Z.of_nat n ∧
     Simple.score s' = Simple.score s + SimpleGame.scoreIncrease n ∧
     Simple.score s + 100 <= Simple.score s' ∧
     (n = 0%nat → Simple.score s' = Simple.score s + 800) ∧
     Simple.position s' = Pos.mk 3 0 ∧
     Simple.currentPiece s' = Simple.nextPiece s ∧
     Simple.currentColor s' = Simple.nextColor s) ∨
  (∃ iNext iCur, s' = SimpleGame.resetGame iNext iCur ∧
     Simple.board s' = Simple.createEmptyBoard ∧ Simple.score s' = 0 ∧
     Simple.lines s' = 0 ∧ Simple.level s' = 1).
Proof.
  intros Hreach Hen Hstep.
  destruct (simple_step_moved s e (simple_reachable_consistent s Hreach) Hen)
    as (s1 & Hs1 & Hmoved).
  rewrite Hstep in Hs1. injection Hs1 as <-.
  destruct Hmoved as [|piece pos Hpiece Hpy Hpfree|v|Hgo Hp
    |placed newBoard n dp dc Hgo Hp Hdown Hplaced Hclear Hn Hspawn Hdp Hdc
    |iNext iCur Hi1 Hi2]; [by left..| |].
  - right; left. exists n. simpl. split; [done|]. split; [done|]. split; [done|].
    split; [unfold SimpleGame.scoreIncrease; repeat case_match; lia|].
    split; [by intros ->|]. done.
  - right; right. exists iNext, iCur. split; [done|].
    unfold SimpleGame.resetGame.
    destruct (SimpleGame.getRandomPiece iNext), (SimpleGame.getRandomPiece iCur). done.
Qed.

(** ** The display and the stored board *)

Lemma getDisplayBoard_total (s : Session) (i j : nat) :
  (Z.to_nat BOARD_HEIGHT <= length (board s))%nat →
  occupied (Piece.shape (currentPiece s)) i j →
  ∃ display, getDisplayBoard s = Ret display ∧ length display = length (board s).
Proof.
  intros Hlen Hocc.
  destruct (landingRow_spec (board s) (Piece.shape (currentPiece s))
              (Pos.x (Piece.pos (currentPiece s))) (Pos.y (Piece.pos (currentPiece s)))
              i j Hlen Hocc) as (dy & _ & Hland & _).
  assert (Hpiece : ∀ d1 : Board, length d1 = length (board s) →
    ∃ display,
      (if gameStarted s && negb (gameOver s)
       then paintShape (λ _, str (Piece.color (currentPiece s)))
              (Piece.shape (currentPiece s)) (Pos.x (Piece.pos (currentPiece s)))
              (Pos.y (Piece.pos (currentPiece s))) d1
       else Ret d1) = Ret display ∧ length display = length (board s)).
  { intros d1 Hd1. destruct (gameStarted s && negb (gameOver s)).
    - destruct (paintShape_total (λ _, str (Piece.color (currentPiece s)))
                  (Piece.shape (currentPiece s)) (Pos.x (Piece.pos (currentPiece s)))
                  (Pos.y (Piece.pos (currentPiece s))) d1) as (d2 & Hd2 & Hlen2); [lia|].
      exists d2. split; [done|lia].
    - by exists d1. }
  unfold getDisplayBoard, ghostY. cbv zeta.
  destruct (gameStarted s && negb (gameOver s) && negb (isPaused s)).
  - rewrite Hland, outcome_ret_bind.
    destruct (paintShape_total (λ old, if falsy old then str ghostMarker else old)
                (Piece.shape (currentPiece s)) (Pos.x (Piece.pos (currentPiece s)))
                (Pos.y (Piece.pos (currentPiece s)) + dy) (board s) Hlen)
      as (d1 & Hd1 & Hlen1).
    rewrite Hd1, outcome_ret_bind. by apply Hpiece.
  - rewrite outcome_ret_bind. by apply Hpiece.
Qed.

(** X23. [getDisplayBoard] works on a copy: in every state of a game it
    returns a display of 20 rows whose rows are fresh arrays, and the
    arrays that existed before, the rows of the stored board among them,
    are left as they were; before the first start the display shows the
    stored board. *)
Theorem getDisplayBoard_leaves_board (s : Session) (h : store) (bref : list loc) :
  reachable s → deref h bref = Some (board s) →
  ∃ display,
    getDisplayBoard s = Ret display ∧ length display = 20%nat ∧
    getDisplayBoardH h bref s = Ret (h ++ display, seq (length h) 20) ∧
    deref (h ++ display) (seq (length h) 20) = Some display ∧
    deref (h ++ display) bref = Some (board s) ∧
    (∀ l, (l < length h)%nat → (h ++ display) !! l = h !! l) ∧
    (gameStarted s = false → display = board s).
Proof.
  intros Hreach Hd.
  destruct (reachable_sound s Hreach) as [Hrows [Hshape _]].
  unfold rows20, BOARD_HEIGHT in Hrows.
  destruct (orientations_closed _ Hshape) as [_ (i & j & Hocc)].
  destruct (getDisplayBoard_total s i j) as (display & Hdisplay & Hlen);
    [unfold BOARD_HEIGHT; lia|done|].
  exists display. split; [done|]. split; [lia|]. split; [|split; [|split; [|split]]].
  - rewrite (getDisplayBoardH_refines h bref s Hd), Hdisplay, Hrows. done.
  - replace 20%nat with (length display) by lia. apply deref_fresh.
  - by apply deref_app.
  - intros l Hl. by rewrite lookup_app_l.
  - intros Hgs. unfold getDisplayBoard in Hdisplay. rewrite Hgs in Hdisplay.
    simpl in Hdisplay. by injection Hdisplay as <-.
Qed.

(** ** The further properties on example sessions *)

Lemma startedSession_reachable : reachable startedSession.
Proof.
  apply (reachable_step (initialSession TetrominoType.T TetrominoType.T)
           (ClickStart TetrominoType.O TetrominoType.I)); [constructor|reflexivity].
Defined.

Lemma startedSession_occupied : occupied (Piece.shape (currentPiece startedSession)) 0 0.
Proof.
  exists [num 1; num 1], (num 1). split; [reflexivity|]. split; [reflexivity|done].
Defined.

Lemma overhangSession_occupied : occupied (Piece.shape (currentPiece overhangSession)) 0 0.
Proof.
  exists [num 1; num 1], (num 1). split; [reflexivity|]. split; [reflexivity|done].
Defined.

Lemma simpleFirstState_reachable : SimpleGame.reachable simpleFirstState.
Proof. apply (SimpleGame.reachable_init 0 1); lia. Defined.

Lemma reachable_board_grid_witness :
  reachable startedSession ∧ length (board startedSession) = 20%nat.
Proof.
  split; [exact startedSession_reachable|].
  destruct (reachable_board_grid startedSession startedSession_reachable) as [Hlen _].
  exact Hlen.
Defined.

Lemma reachable_level_of_lines_witness :
  reachable startedSession ∧
  0 <= lines startedSession ∧ level startedSession = lines startedSession / 10 + 1 ∧
  1 <= level startedSession ∧
  (gameOver startedSession = true → gameStarted startedSession = false).
Proof.
  split; [exact startedSession_reachable|].
  exact (reachable_level_of_lines startedSession startedSession_reachable).
Defined.

Lemma reachable_piece_legal_witness :
  gameOver startedSession = false ∧
  occupied (Piece.shape (currentPiece startedSession)) 0 0 ∧
  checkCollision (Piece.pos (currentPiece startedSession))
    (Piece.shape (currentPiece startedSession)) (board startedSession) = Ret false.
Proof.
  split; [reflexivity|]. split; [exact startedSession_occupied|].
  destruct (reachable_piece_legal startedSession 0 0 startedSession_reachable
              eq_refl startedSession_occupied) as [Hfree _].
  exact Hfree.
Defined.

Lemma reachable_never_fails_witness :
  ∃ s', step startedSession ClickLeft = Ret s' ∧ reachable s'.
Proof. exact (reachable_never_fails startedSession ClickLeft startedSession_reachable). Defined.

Lemma hardDrop_is_repeated_drop_witness :
  blocked overhangSession = false ∧
  (Z.to_nat BOARD_HEIGHT <= length (board overhangSession))%nat ∧
  ∃ dy : nat,
    ghostY overhangSession
    = Ret (Pos.y (Piece.pos (currentPiece overhangSession)) + Z.of_nat dy) ∧
    hardDrop overhangSession TetrominoType.J overhangSession
    = run overhangSession (replicate (S dy) (ClickDrop TetrominoType.J)).
Proof.
  split; [reflexivity|]. split; [vm_compute; lia|].
  apply (hardDrop_is_repeated_drop overhangSession TetrominoType.J 0 0);
    [reflexivity|vm_compute; lia|exact overhangSession_occupied].
Defined.

Lemma reachable_score_is_number_witness :
  reachable startedSession ∧ ∃ z, score startedSession = Int z ∧ 0 <= z.
Proof.
  split; [exact startedSession_reachable|].
  destruct (reachable_score_is_number startedSession startedSession_reachable)
    as (_ & _ & Hscore).
  exact Hscore.
Defined.

Lemma lock_fills_empty_cells_witness :
  blocked startedSession = false ∧
  ∃ lockedBoard,
    mergePiece (board startedSession) (Piece.shape (currentPiece startedSession))
      (Piece.color (currentPiece startedSession))
      (Pos.x (Piece.pos (currentPiece startedSession))) 0 = Ret lockedBoard ∧
    ∀ r c, cellAt lockedBoard r c = cellAt (board startedSession) r c ∨
           (cellAt (board startedSession) r c = null ∧
            cellAt lockedBoard r c = str (Piece.color (currentPiece startedSession))).
Proof.
  split; [reflexivity|].
  apply (lock_fills_empty_cells startedSession 0);
    [exact startedSession_reachable|reflexivity|left; reflexivity].
Defined.

Lemma getDisplayBoard_cells_witness :
  blocked overhangSession = false ∧
  ∃ gy display,
    ghostY overhangSession = Ret gy ∧ getDisplayBoard overhangSession = Ret display ∧
    length display = length (board overhangSession).
Proof.
  split; [reflexivity|].
  destruct (getDisplayBoard_cells overhangSession 0 0)
    as (gy & display & Hgy & Hdisplay & Hlen & _);
    [reflexivity|vm_compute; lia|exact overhangSession_occupied|].
  exists gy, display. split; [exact Hgy|]. split; [exact Hdisplay|exact Hlen].
Defined.

Lemma fallWhileFree_terminates_witness :
  hasOccupied (TETROMINOES TetrominoType.T).1 = true ∧
  ∃ landed, landingRow createEmptyBoard (TETROMINOES TetrominoType.T).1 4 0 = Ret landed ∧
    0 <= landed ∧ (landed = 0 ∨ landed < BOARD_HEIGHT).
Proof.
  split; [reflexivity|].
  apply (fallWhileFree_terminates createEmptyBoard (TETROMINOES TetrominoType.T).1 4 0);
    [reflexivity|vm_compute; lia].
Defined.

Lemma fallWhileFree_empty_shape_diverges_witness :
  hasOccupied (cells [[0; 0]; [0; 0]]) = false ∧
  checkCollision (Pos.mk 4 0) (cells [[0; 0]; [0; 0]]) createEmptyBoard = Ret false ∧
  fallWhileFree 50 createEmptyBoard (cells [[0; 0]; [0; 0]]) 4 0 = Diverge.
Proof.
  split; [reflexivity|].
  apply (fallWhileFree_empty_shape_diverges createEmptyBoard (cells [[0; 0]; [0; 0]])
           4 0 50). reflexivity.
Defined.

Lemma rotateMatrix_quarter_turn_witness :
  rect 2 3 (cells [[1; 2; 3]; [4; 5; 6]]) ∧
  ∃ m1, rotateMatrix (cells [[1; 2; 3]; [4; 5; 6]]) = Ret m1 ∧
        m1 = spec_rotate (cells [[1; 2; 3]; [4; 5; 6]]) ∧ rect 3 2 m1.
Proof.
  assert (Hrect : rect 2 3 (cells [[1; 2; 3]; [4; 5; 6]])).
  { split; [reflexivity|]. repeat constructor. }
  split; [exact Hrect|].
  destruct (rotateMatrix_quarter_turn 2 3 (cells [[1; 2; 3]; [4; 5; 6]]) Hrect)
    as (m1 & Hrun & Hspec & Hrect1 & _); [lia|].
  exists m1. split; [exact Hrun|]. split; [exact Hspec|exact Hrect1].
Defined.

Lemma simple_rotatePiece_agrees_witness :
  rect 2 3 (cells [[0; 1; 1]; [1; 1; 0]]) ∧
  Simple.rotatePiece (cells [[0; 1; 1]; [1; 1; 0]])
  = rotateMatrix (cells [[0; 1; 1]; [1; 1; 0]]).
Proof.
  assert (Hrect : rect 2 3 (cells [[0; 1; 1]; [1; 1; 0]])).
  { split; [reflexivity|]. repeat constructor. }
  split; [exact Hrect|].
  destruct (simple_rotatePiece_agrees 2 3 (cells [[0; 1; 1]; [1; 1; 0]]) Hrect)
    as [Hagree _]; [lia|].
  exact Hagree.
Defined.

Lemma simple_reachable_board_witness :
  SimpleGame.reachable simpleFirstState ∧ length (Simple.board simpleFirstState) = 20%nat.
Proof.
  split; [exact simpleFirstState_reachable|].
  destruct (simple_reachable_board simpleFirstState simpleFirstState_reachable)
    as [Hlen _].
  exact Hlen.
Defined.

Lemma simple_reachable_piece_witness :
  simpleOccupied (Simple.currentPiece simpleFirstState) 1 1 ∧
  cellAt (Simple.board simpleFirstState)
    (Z.to_nat (Pos.y (Simple.position simpleFirstState) + Z.of_nat 1))
    (Z.to_nat (Pos.x (Simple.position simpleFirstState) + Z.of_nat 1)) = num 0.
Proof.
  assert (Hocc : simpleOccupied (Simple.currentPiece simpleFirstState) 1 1).
  { exists [num 1; num 1], (num 1). split; [reflexivity|]. split; reflexivity. }
  split; [exact Hocc|].
  destruct (simple_reachable_piece simpleFirstState 1 1 simpleFirstState_reachable Hocc)
    as (_ & _ & _ & _ & Hcell).
  exact Hcell.
Defined.

Lemma simple_reachable_never_fails_witness :
  SimpleGame.enabled simpleFirstState (SimpleGame.Tick 2 3) = true ∧
  ∃ s', SimpleGame.step simpleFirstState (SimpleGame.Tick 2 3) = Ret s' ∧
        SimpleGame.reachable s'.
Proof.
  split; [reflexivity|].
  apply (simple_reachable_never_fails simpleFirstState (SimpleGame.Tick 2 3));
    [exact simpleFirstState_reachable|reflexivity].
Defined.

Lemma simple_reachable_counters_witness :
  SimpleGame.reachable simpleFirstState ∧
  100 <= SimpleGame.getGameSpeed simpleFirstState <= 470.
Proof.
  split; [exact simpleFirstState_reachable|].
  destruct (simple_reachable_counters simpleFirstState simpleFirstState_reachable)
    as (_ & _ & _ & _ & Hspeed & _).
  exact Hspeed.
Defined.

Lemma simple_pause_gates_gravity_only_witness :
  Simple.isPaused simplePausedState = true ∧
  SimpleGame.step simplePausedState (SimpleGame.Tick 0 0) = Ret simplePausedState.
Proof.
  split; [reflexivity|].
  destruct (simple_pause_gates_gravity_only simplePausedState 0 0 eq_refl) as [Htick _].
  exact Htick.
Defined.

Lemma simple_renderBoard_cells_witness :
  SimpleGame.reachable simpleFirstState ∧
  ∃ display, SimpleGame.renderBoard simpleFirstState = Ret display ∧
             length display = 20%nat.
Proof.
  split; [exact simpleFirstState_reachable|].
  destruct (simple_renderBoard_cells simpleFirstState simpleFirstState_reachable)
    as (display & Hdisplay & Hlen & _).
  exists display. split; [exact Hdisplay|exact Hlen].
Defined.

Lemma simple_step_counters_witness :
  SimpleGame.enabled simpleFirstState (SimpleGame.KeyDown SimpleGame.Space 0 0) = true ∧
  SimpleGame.step simpleFirstState (SimpleGame.KeyDown SimpleGame.Space 0 0)
  = Ret simplePausedState ∧
  ((Simple.board simplePausedState = Simple.board simpleFirstState ∧
    Simple.score simplePausedState = Simple.score simpleFirstState ∧
    Simple.lines simplePausedState = Simple.lines simpleFirstState ∧
    Simple.level simplePausedState = Simple.level simpleFirstState) ∨
   (∃ n : nat, (n <= 4)%nat ∧
      Simple.lines simplePausedState = Simple.lines simpleFirstState + Z.of_nat n ∧
      Simple.score simplePausedState
      = Simple.score simpleFirstState + SimpleGame.scoreIncrease n ∧
      Simple.score simpleFirstState + 100 <= Simple.score simplePausedState ∧
      (n = 0%nat → Simple.score simplePausedState = Simple.score simpleFirstState + 800) ∧
      Simple.position simplePausedState = Pos.mk 3 0 ∧
      Simple.currentPiece simplePausedState = Simple.nextPiece simpleFirstState ∧
      Simple.currentColor simplePausedState = Simple.nextColor simpleFirstState) ∨
   (∃ iNext iCur, simplePausedState = SimpleGame.resetGame iNext iCur ∧
      Simple.board simplePausedState = Simple.createEmptyBoard ∧
      Simple.score simplePausedState = 0 ∧
      Simple.lines simplePausedState = 0 ∧ Simple.level simplePausedState = 1)).
Proof.
  split; [reflexivity|]. split; [reflexivity|].
  apply (simple_step_counters simpleFirstState simplePausedState
           (SimpleGame.KeyDown SimpleGame.Space 0 0));
    [exact simpleFirstState_reachable|reflexivity|reflexivity].
Defined.

Lemma getDisplayBoard_leaves_board_witness :
  deref createEmptyBoard (seq 0 20) = Some (board startedSession) ∧
  ∃ display,
    getDisplayBoard startedSession = Ret display ∧
    deref (createEmptyBoard ++ display) (seq 0 20) = Some (board startedSession).
Proof.
  split; [reflexivity|].
  destruct (getDisplayBoard_leaves_board startedSession createEmptyBoard (seq 0 20)
              startedSession_reachable eq_refl)
    as (display & Hdisplay & _ & _ & _ & Hboard & _).
  exists display. split; [exact Hdisplay|exact Hboard].
Defined.

(** X25. The simplified variant draws the shape and the colour of the
    queued piece from two separate calls of [getRandomPiece]: at the start
    the queued colour is the index of the queued shape, but after the first
    lock any shape can be queued with any colour. *)
Theorem simple_queue_colour_independent (i1 i2 : nat) :
  (i1 < 7)%nat → (i2 < 7)%nat →
  (Simple.PIECES !! i1 = Some (Simple.nextPiece (SimpleGame.initialGameState i1 i2)) ∧
   Simple.nextColor (SimpleGame.initialGameState i1 i2) = Z.of_nat i1) ∧
  ∃ s, SimpleGame.reachable s ∧
    Simple.PIECES !! i1 = Some (Simple.nextPiece s) ∧
    Simple.nextColor s = Z.of_nat i2.
Proof.
  intros H1 H2.
  assert (Hpiece : Simple.PIECES !! i1 = Some (SimpleGame.getRandomPiece i1).1).
  { unfold SimpleGame.getRandomPiece. simpl.
    destruct (lookup_lt_is_Some_2 Simple.PIECES i1) as [p Hp]; [simpl; lia|].
    by rewrite Hp. }
  split; [split; [exact Hpiece|reflexivity]|].
  pose proof simpleFirstState_reachable as Hreach.
  do 18 (let H := fresh in
         pose proof (SimpleGame.reachable_step _ (SimpleGame.Tick 0 0) _ Hreach
                       eq_refl eq_refl) as H;
         clear Hreach; rename H into Hreach; vm_compute in Hreach).
  assert (Hen : ∀ s, SimpleGame.enabled s (SimpleGame.Tick i1 i2) = true).
  { intros s. simpl. apply andb_true_iff. split; apply Nat.ltb_lt; lia. }
  pose proof (SimpleGame.reachable_step _ (SimpleGame.Tick i1 i2) _ Hreach
                (Hen _) eq_refl) as Hlast.
  eexists. split; [exact Hlast|]. split; [exact Hpiece|reflexivity].
Qed.

Lemma simple_queue_colour_independent_witness :
  ∃ s, SimpleGame.reachable s ∧
    Simple.PIECES !! 0%nat = Some (Simple.nextPiece s) ∧ Simple.nextColor s = Z.of_nat 6.
Proof.
  destruct (simple_queue_colour_independent 0 6) as [_ Hqueue]; [lia..|].
  exact Hqueue.
Defined.

(** ** The simplified variant between renders *)

Lemma simple_scheduled_consistent (cl st : Simple.GameState) :
  SimpleGame.scheduled cl st → SimpleGame.consistent cl ∧ SimpleGame.consistent st.
Proof.
  induction 1 as [iNext iCur Hn Hc|cl st e st' _ [IHcl IHst] Hen Hev|cl st _ [_ IHst]].
  - split; by apply simple_initial_consistent.
  - split; [done|].
    destruct (simple_handle_moved cl st e IHst Hen) as (st1 & Hst1 & Hmoved).
    rewrite Hev in Hst1. injection Hst1 as <-.
    by apply (simple_moved_consistent st).
  - done.
Qed.

Lemma simple_reachable_scheduled (s : Simple.GameState) :
  SimpleGame.reachable s → SimpleGame.scheduled s s.
Proof.
  induction 1 as [iNext iCur Hn Hc|s e s' _ IH Hen Hstep].
  - by constructor.
  - apply SimpleGame.scheduled_render with (cl := s).
    apply (SimpleGame.scheduled_event s s e); [done|done|].
    by rewrite <- simple_step_handle.
Qed.

Lemma simpleLandedState_reachable : SimpleGame.reachable simpleLandedState.
Proof.
  pose proof simpleFirstState_reachable as Hreach.
  do 18 (let H := fresh in
         pose proof (SimpleGame.reachable_step _ (SimpleGame.Tick 0 0) _ Hreach
                       eq_refl eq_refl) as H;
         clear Hreach; rename H into Hreach; vm_compute in Hreach).
  exact Hreach.
Qed.

Lemma simpleStackedState_reachable : SimpleGame.reachable simpleStackedState.
Proof.
  assert (Hreach : SimpleGame.reachable (SimpleGame.initialGameState 1 1))
    by (apply SimpleGame.reachable_init; lia).
  do 99 (let H := fresh in
         pose proof (SimpleGame.reachable_step _ (SimpleGame.Tick 1 1) _ Hreach
                       eq_refl eq_refl) as H;
         clear Hreach; rename H into Hreach; vm_compute in Hreach).
  exact Hreach.
Qed.

(** C3. The simplified variant breaks the scoring rule.  In a new game the
    first piece, an O piece, has fallen to the floor of the empty board;
    the tick that locks it clears no row, and [moveDown] adds 800 to the
    score at level 1, where the rule gives [multiplier 0 * 1 = 0]. *)
Theorem simple_moveDown_empty_lock_scores :
  SimpleGame.reachable simpleLandedState ∧
  ∃ placed s',
    Simple.placePiece (Simple.board simpleLandedState)
      (Simple.currentPiece simpleLandedState)
      (Pos.x (Simple.position simpleLandedState))
      (Pos.y (Simple.position simpleLandedState))
      (Simple.currentColor simpleLandedState) = Ret placed ∧
    Simple.clearLines placed = Ret (placed, 0%nat) ∧
    SimpleGame.step simpleLandedState (SimpleGame.Tick 0 0) = Ret s' ∧
    Simple.board s' = placed ∧
    Simple.lines s' = Simple.lines simpleLandedState ∧
    Simple.level simpleLandedState = 1 ∧
    Simple.score s' = Simple.score simpleLandedState + 800 ∧
    spec_multiplier 0 * Simple.level simpleLandedState = 0.
Proof.
  split; [exact simpleLandedState_reachable|].
  eexists _, _. split; [vm_compute; reflexivity|].
  split; [vm_compute; reflexivity|].
  split; [vm_compute; reflexivity|].
  repeat split.
Qed.

(** C5. The simplified variant drops the lock when the spawn collides.
    Nine O pieces are stacked in columns 3 and 4 and the tenth stands at the
    top; the tick that locks it finds the queued piece colliding, and
    [moveDown] returns the previous state with the game-over flag set: the
    board kept is the one before the lock, not the freshly cleared board,
    which holds the tenth piece. *)
Theorem simple_moveDown_game_over_drops_lock :
  SimpleGame.reachable simpleStackedState ∧
  ∃ placed s',
    Simple.placePiece (Simple.board simpleStackedState)
      (Simple.currentPiece simpleStackedState)
      (Pos.x (Simple.position simpleStackedState))
      (Pos.y (Simple.position simpleStackedState))
      (Simple.currentColor simpleStackedState) = Ret placed ∧
    Simple.clearLines placed = Ret (placed, 0%nat) ∧
    Simple.canMove placed (Simple.nextPiece simpleStackedState) 3 0 = Ret false ∧
    SimpleGame.step simpleStackedState (SimpleGame.Tick 1 1) = Ret s' ∧
    Simple.gameOver s' = true ∧
    Simple.board s' = Simple.board simpleStackedState ∧
    Simple.board s' ≠ placed ∧
    cellAt placed 0 3 = num 2 ∧ cellAt (Simple.board s') 0 3 = num 0.
Proof.
  split; [exact simpleStackedState_reachable|].
  eexists _, _. split; [vm_compute; reflexivity|].
  split; [vm_compute; reflexivity|].
  split; [vm_compute; reflexivity|].
  split; [vm_compute; reflexivity|].
  split; [reflexivity|]. split; [reflexivity|]. split; [|split; reflexivity].
  intros Heq. by vm_compute in Heq.
Qed.

Lemma simple_shiftKey_frame (dx : Z) (st st' : Simple.GameState) :
  SimpleGame.shiftKey dx st = Ret st' →
  Simple.board st' = Simple.board st ∧ Simple.score st' = Simple.score st ∧
  Simple.lines st' = Simple.lines st ∧ Simple.level st' = Simple.level st ∧
  Simple.nextPiece st' = Simple.nextPiece st ∧
  Simple.nextColor st' = Simple.nextColor st ∧
  Simple.currentColor st' = Simple.currentColor st ∧
  Simple.gameOver st' = Simple.gameOver st.
Proof.
  unfold SimpleGame.shiftKey.
  destruct (Simple.canMove _ _ _ _) as [[]| |]; simpl; [| |done..]; by intros [= <-].
Qed.

Lemma simple_rotateKey_frame (st st' : Simple.GameState) :
  Simple.rotateKey st = Ret st' →
  Simple.board st' = Simple.board st ∧ Simple.score st' = Simple.score st ∧
  Simple.lines st' = Simple.lines st ∧ Simple.level st' = Simple.level st ∧
  Simple.nextPiece st' = Simple.nextPiece st ∧
  Simple.nextColor st' = Simple.nextColor st ∧
  Simple.currentColor st' = Simple.currentColor st ∧
  Simple.gameOver st' = Simple.gameOver st.
Proof.
  unfold Simple.rotateKey.
  destruct (Simple.rotatePiece _) as [r| |]; simpl; [|done..].
  destruct (Simple.canMove _ _ _ _) as [[]| |]; simpl; [| |done..]; by intros [= <-].
Qed.

(** X19. Once the game of the simplified variant is over, no timer tick
    and no key changes the board, the score, the lines, the level, the
    queued piece, the colours or the game-over flag again, whether the key
    is handled by the listener of the current render or by the one of an
    earlier render; only the reset button does.  A timer tick changes
    nothing at all, and neither does a key handled by a listener whose
    render showed the game over. *)
Theorem simple_game_over_frame (cl st : Simple.GameState) (e : SimpleGame.Event) :
  SimpleGame.scheduled cl st → SimpleGame.enabled cl e = true →
  Simple.gameOver st = true →
  (∀ iNext iCur, e ≠ SimpleGame.ClickReset iNext iCur) →
  ∃ st', SimpleGame.handle cl e st = Ret st' ∧
    Simple.board st' = Simple.board st ∧ Simple.score st' = Simple.score st ∧
    Simple.lines st' = Simple.lines st ∧ Simple.level st' = Simple.level st ∧
    Simple.nextPiece st' = Simple.nextPiece st ∧
    Simple.nextColor st' = Simple.nextColor st ∧
    Simple.currentColor st' = Simple.currentColor st ∧
    Simple.gameOver st' = true ∧
    (Simple.gameOver cl = true → st' = st) ∧
    (∀ i1 i2, e = SimpleGame.Tick i1 i2 → st' = st).
Proof.
  intros Hsched Hen Hgo Hne.
  destruct (simple_scheduled_consistent cl st Hsched) as [_ Hst].
  destruct (simple_handle_moved cl st e Hst Hen) as (st' & Hev & _).
  exists st'. split; [exact Hev|].
  assert (Hsame : ∀ s1, s1 = st →
    Simple.board s1 = Simple.board st ∧ Simple.score s1 = Simple.score st ∧
    Simple.lines s1 = Simple.lines st ∧ Simple.level s1 = Simple.level st ∧
    Simple.nextPiece s1 = Simple.nextPiece st ∧
    Simple.nextColor s1 = Simple.nextColor st ∧
    Simple.currentColor s1 = Simple.currentColor st ∧ Simple.gameOver s1 = true).
  { intros s1 ->. by repeat split. }
  assert (Htick : ∀ dp dc, Simple.moveDown st dp dc = Ret st).
  { intros dp dc. unfold Simple.moveDown. by rewrite Hgo. }
  destruct e as [i1 i2|key i1 i2|iNext iCur]; [| |by destruct (Hne iNext iCur)].
  - simpl in Hev. rewrite Htick in Hev. injection Hev as <-.
    destruct (Hsame st eq_refl) as (? & ? & ? & ? & ? & ? & ? & ?). by repeat split.
  - simpl in Hev. unfold SimpleGame.handleKeyDown in Hev.
    destruct (Simple.gameOver cl) eqn:Hcl.
    { injection Hev as <-.
      destruct (Hsame st eq_refl) as (? & ? & ? & ? & ? & ? & ? & ?). by repeat split. }
    assert (Hframe :
      Simple.board st' = Simple.board st ∧ Simple.score st' = Simple.score st ∧
      Simple.lines st' = Simple.lines st ∧ Simple.level st' = Simple.level st ∧
      Simple.nextPiece st' = Simple.nextPiece st ∧
      Simple.nextColor st' = Simple.nextColor st ∧
      Simple.currentColor st' = Simple.currentColor st ∧
      Simple.gameOver st' = Simple.gameOver st).
    { destruct key.
      - by apply (simple_shiftKey_frame (-1)).
      - by apply (simple_shiftKey_frame 1).
      - rewrite Htick in Hev. injection Hev as <-. by repeat split.
      - injection Hev as <-. by repeat split.
      - by apply simple_rotateKey_frame.
      - injection Hev as <-. by repeat split. }
    destruct Hframe as (? & ? & ? & ? & ? & ? & ? & Hover).
    rewrite Hgo in Hover. by repeat split.
Qed.

(** X28. Under every schedule of the simplified variant, also when keys
    are handled by the listener of an earlier render, the pending state
    keeps what holds of a game: a board of 20 rows of 10 numbers from 0 to 7
    without a full row, a current piece in one of the catalogue orientations
    that [canMove] accepts where it stands, a level equal to the lines
    divided by 10, plus one, and a score that is a non-negative multiple of
    100; and every event that can happen returns a state. *)
Theorem simple_scheduled_never_fails (cl st : Simple.GameState) (e : SimpleGame.Event) :
  SimpleGame.scheduled cl st → SimpleGame.enabled cl e = true →
  SimpleGame.consistent st ∧
  ∃ st', SimpleGame.handle cl e st = Ret st' ∧ SimpleGame.scheduled cl st' ∧
         SimpleGame.consistent st'.
Proof.
  intros Hsched Hen.
  destruct (simple_scheduled_consistent cl st Hsched) as [_ Hst].
  split; [done|].
  destruct (simple_handle_moved cl st e Hst Hen) as (st' & Hev & Hmoved).
  exists st'. split; [done|]. split.
  - by apply (SimpleGame.scheduled_event cl st e).
  - by apply (simple_moved_consistent st).
Qed.

(** X29. A key of the simplified variant that arrives after the tick that
    ended the game and before the next render is handled by a listener that
    has not seen the game over: the left key then moves the piece of the
    finished game one column to the left. *)
Theorem simple_stale_key_after_game_over :
  SimpleGame.step simpleStackedState (SimpleGame.Tick 1 1) = Ret simpleOverState ∧
  SimpleGame.scheduled simpleStackedState simpleOverState ∧
  Simple.gameOver simpleStackedState = false ∧ Simple.gameOver simpleOverState = true ∧
  ∃ st',
    SimpleGame.handle simpleStackedState (SimpleGame.KeyDown SimpleGame.ArrowLeft 0 0)
      simpleOverState = Ret st' ∧
    SimpleGame.scheduled simpleStackedState st' ∧
    Simple.gameOver st' = true ∧
    Simple.position simpleOverState = Pos.mk 3 0 ∧ Simple.position st' = Pos.mk 2 0.
Proof.
  pose proof (simple_reachable_scheduled _ simpleStackedState_reachable) as H0.
  assert (Htick : SimpleGame.handle simpleStackedState (SimpleGame.Tick 1 1)
                    simpleStackedState = Ret simpleOverState)
    by (vm_compute; reflexivity).
  pose proof (SimpleGame.scheduled_event simpleStackedState simpleStackedState
                (SimpleGame.Tick 1 1) simpleOverState H0 eq_refl Htick) as H1.
  split; [vm_compute; reflexivity|]. split; [exact H1|].
  split; [reflexivity|]. split; [reflexivity|].
  pose proof (SimpleGame.scheduled_event simpleStackedState simpleOverState
                (SimpleGame.KeyDown SimpleGame.ArrowLeft 0 0) _ H1 eq_refl eq_refl) as H2.
  eexists. split; [reflexivity|]. split; [exact H2|]. repeat split.
Qed.

(** ** The full variant between renders *)

Lemma step_handle (s : Session) (e : Event) : step s e = handle s e s.
Proof. by destruct e. Qed.

Lemma reachable_scheduled (s : Session) : reachable s → scheduled s s.
Proof.
  induction 1 as [cur next|s e s' _ IH Hstep].
  - constructor.
  - apply scheduled_render with (cl := s).
    apply (scheduled_event s s e); [done|]. by rewrite <- step_handle.
Qed.

Lemma wellFormed_piece (f : Piece.t → Piece.t) (st : Session) :
  wellFormed st → Piece.shape (f (currentPiece st)) ∈ orientations →
  wellFormed (setCurrentPiece f st).
Proof.
  intros ([Hrows [Hcur Hnext]] & Hrest) Hshape. split; [|exact Hrest].
  split; [done|]. split; done.
Qed.

Lemma wellFormed_paused (f : bool → bool) (st : Session) :
  wellFormed st → wellFormed (setIsPaused f st).
Proof. intros H. exact H. Qed.

Lemma wellFormed_soft_drop (st : Session) :
  wellFormed st → wellFormed (setScore (λ s, num_add s (Int 1)) st).
Proof.
  intros (Hs & Hb & Hn & Hl & Hlv & (z & Hz & Hz0) & Hf).
  split; [exact Hs|]. split; [exact Hb|]. split; [exact Hn|]. split; [exact Hl|].
  split; [exact Hlv|]. split; [|exact Hf].
  exists (z + 1). simpl. rewrite Hz. split; [done|lia].
Qed.

Lemma wellFormed_startGame (cur next : TetrominoType) (st : Session) :
  wellFormed (startGame cur next st).
Proof.
  split; [split; [done|split; apply catalogue_orientation]|].
  split; [apply createEmptyBoard_ok|]. split; [apply createEmptyBoard_no_full|].
  split; [done|]. split; [done|]. split; [by exists 0|done].
Qed.

Lemma processBoardUpdate_wellFormed cl (b : Board) draw st :
  wellFormed cl → wellFormed st → boardOk b →
  (length (filter rowFull b) <= 4)%nat →
  ∃ st', processBoardUpdate cl b draw st = Ret st' ∧ wellFormed st'.
Proof.
  intros (Hcl & _ & _ & Hlcl & Hlvcl & _) (Hst & _ & _ & Hl & Hlv & (z & Hz & Hz0) & Hf)
    Hb Hn.
  destruct (processBoardUpdate_sound cl b draw st Hcl) as (st' & Hst' & Hsound);
    [by destruct Hst|by destruct Hb|].
  exists st'. split; [done|].
  destruct (processBoardUpdate_fields _ _ _ _ _ Hst')
    as (finalBoard & n & Hclear & Hbd & Hlines & Hlevel & Hscore & _ & Hbranch).
  assert (Hn' : n = length (filter rowFull b)).
  { rewrite clearRows_eq in Hclear. by injection Hclear as _ <-. }
  split; [done|]. split; [rewrite Hbd; by eapply clearRows_boardOk|].
  split; [rewrite Hbd; exact (clearRows_no_full _ _ _ Hclear)|].
  split.
  { rewrite Hlines. unfold updateStats. destruct (0 <? n)%nat; simpl; lia. }
  split.
  { rewrite Hlevel. unfold updateStats. destruct (0 <? n)%nat; simpl; [|done].
    assert (0 <= (lines cl + Z.of_nat n) / 10) by (apply Z.div_pos; lia). lia. }
  split.
  { unfold scoreOk. rewrite Hscore. unfold updateStats.
    destruct (0 <? n)%nat; simpl; rewrite Hz; [|by exists z].
    destruct (multiplier_small n) as (m & -> & Hm); [lia|]. simpl.
    eexists. split; [reflexivity|]. nia. }
  destruct Hbranch as [(Hgo & Hgs & _)|(Hgo & Hgs & _)]; [done|].
  rewrite Hgo, Hgs. exact Hf.
Qed.

(** The lock of the piece of the closure at any row, on the pending state. *)
Lemma lock_wellFormed cl draw st (py : Z) :
  wellFormed cl → wellFormed st →
  ∃ lockedBoard st',
    mergePiece (board cl) (Piece.shape (currentPiece cl)) (Piece.color (currentPiece cl))
      (Pos.x (Piece.pos (currentPiece cl))) py = Ret lockedBoard ∧
    processBoardUpdate cl lockedBoard draw st = Ret st' ∧ wellFormed st'.
Proof.
  intros Hcl Hst. pose proof Hcl as ([Hrows [Hcur _]] & Hboard & Hnone & _).
  unfold rows20 in Hrows.
  destruct (paintShape_total (λ _, str (Piece.color (currentPiece cl)))
              (Piece.shape (currentPiece cl)) (Pos.x (Piece.pos (currentPiece cl))) py
              (board cl)) as (lockedBoard & Hmerge & Hlen); [lia|].
  change (mergePiece (board cl) (Piece.shape (currentPiece cl))
            (Piece.color (currentPiece cl)) (Pos.x (Piece.pos (currentPiece cl))) py
          = Ret lockedBoard) in Hmerge.
  destruct (processBoardUpdate_wellFormed cl lockedBoard draw st Hcl Hst)
    as (st' & Hst' & Hwf).
  - by eapply mergePiece_boardOk.
  - pose proof (mergePiece_full_rows _ _ _ _ _ _ Hnone Hmerge).
    pose proof (orientation_height _ Hcur). lia.
  - by exists lockedBoard, st'.
Qed.

Lemma move_wellFormed cl dirX dirY st :
  wellFormed cl → wellFormed st →
  ∃ st' moved, move cl dirX dirY st = Ret (st', moved) ∧ wellFormed st'.
Proof.
  intros ([Hrows _] & _) Hst. unfold move. destruct (blocked cl); [by eauto|].
  edestruct checkCollision_total as [hit Hhit];
    [|rewrite Hhit; simpl; destruct hit; [by eauto|]].
  - unfold rows20 in Hrows. rewrite Hrows. done.
  - eexists _, _. split; [done|]. apply wellFormed_piece; [done|].
    by destruct Hst as ([_ [? _]] & _).
Qed.

Lemma rotate_wellFormed cl st :
  wellFormed cl → wellFormed st → ∃ st', rotate cl st = Ret st' ∧ wellFormed st'.
Proof.
  intros ([Hrows [Hcur _]] & _) Hst. unfold rotate. destruct (blocked cl); [by eauto|].
  apply orientations_closed in Hcur as [(r & Hr & Hin) _]. rewrite Hr. simpl.
  assert (Hlen : (Z.to_nat BOARD_HEIGHT <= length (board cl))%nat)
    by (unfold rows20 in Hrows; lia).
  assert (Hok : ∀ f : Pos → Pos, wellFormed (setCurrentPiece
            (λ prev, withShape (withPos prev (f (Piece.pos prev))) r) st)).
  { intros f. by apply wellFormed_piece. }
  destruct (checkCollision_total (Piece.pos (currentPiece cl)) r _ Hlen) as [h0 H0].
  rewrite H0. simpl. destruct h0; simpl.
  2:{ eexists. split; [done|]. by apply wellFormed_piece. }
  destruct (checkCollision_total
              (Pos.mk (Pos.x (Piece.pos (currentPiece cl)) - 1)
                      (Pos.y (Piece.pos (currentPiece cl)))) r _ Hlen) as [hL HL].
  rewrite HL. simpl.
  destruct hL; simpl;
    [|eexists; split; [done|]; apply (Hok (λ p, Pos.mk (Pos.x p - 1) (Pos.y p)))].
  destruct (checkCollision_total
              (Pos.mk (Pos.x (Piece.pos (currentPiece cl)) + 1)
                      (Pos.y (Piece.pos (currentPiece cl)))) r _ Hlen) as [hR HR].
  rewrite HR. simpl.
  destruct hR; simpl; [by eauto|].
  eexists; split; [done|]. apply (Hok (λ p, Pos.mk (Pos.x p + 1) (Pos.y p))).
Qed.

Lemma drop_wellFormed cl draw st :
  wellFormed cl → wellFormed st → ∃ st', drop cl draw st = Ret st' ∧ wellFormed st'.
Proof.
  intros Hcl Hst. unfold drop. destruct (blocked cl); [by eauto|].
  edestruct checkCollision_total as [hit Hhit];
    [|rewrite Hhit; simpl; destruct hit; simpl].
  - destruct Hcl as ([Hrows _] & _). unfold rows20 in Hrows. rewrite Hrows. done.
  - unfold lockPiece.
    destruct (lock_wellFormed cl draw st (Pos.y (Piece.pos (currentPiece cl))) Hcl Hst)
      as (lockedBoard & st' & Hmerge & Hproc & Hwf).
    rewrite Hmerge. simpl. by exists st'.
  - eexists. split; [done|]. apply wellFormed_piece; [done|].
    by destruct Hst as ([_ [? _]] & _).
Qed.

Lemma hardDrop_wellFormed cl draw st :
  wellFormed cl → wellFormed st → ∃ st', hardDrop cl draw st = Ret st' ∧ wellFormed st'.
Proof.
  intros Hcl Hst. unfold hardDrop. destruct (blocked cl); [by eauto|].
  pose proof Hcl as ([Hrows [Hcur _]] & _).
  assert (Hlen : (Z.to_nat BOARD_HEIGHT <= length (board cl))%nat)
    by (unfold rows20 in Hrows; lia).
  apply orientations_closed in Hcur as [_ (r & c & Hocc)].
  destruct (landingRow_spec (board cl) _ (Pos.x (Piece.pos (currentPiece cl)))
              (Pos.y (Piece.pos (currentPiece cl))) r c Hlen Hocc)
    as (dy & _ & Hland & _).
  rewrite Hland. simpl.
  destruct (lock_wellFormed cl draw
              (setCurrentPiece
                 (λ prev, withPos prev
                    (Pos.mk (Pos.x (Piece.pos prev))
                            (Pos.y (Piece.pos (currentPiece cl)) + dy))) st)
              (Pos.y (Piece.pos (currentPiece cl)) + dy) Hcl)
    as (lockedBoard & st' & Hmerge & Hproc & Hwf).
  { apply wellFormed_piece; [done|]. by destruct Hst as ([_ [? _]] & _). }
  rewrite Hmerge. simpl. by exists st'.
Qed.

Lemma handleKeyPress_wellFormed cl key draw st :
  wellFormed cl → wellFormed st →
  ∃ st', handleKeyPress cl key draw st = Ret st' ∧ wellFormed st'.
Proof.
  intros Hcl Hst. unfold handleKeyPress. destruct (_ || _); [by eauto|].
  assert (Hend : ∀ (m : outcome Session),
    (∃ st1, m = Ret st1 ∧ wellFormed st1) →
    ∃ st', (st1 ← m;
            if bool_decide (key = "p") || bool_decide (key = "P")
            then Ret (setIsPaused negb st1) else Ret st1) = Ret st' ∧ wellFormed st').
  { intros m (st1 & -> & H1). simpl. destruct (_ || _); eauto using wellFormed_paused. }
  apply Hend. destruct (negb (isPaused cl)); [|by eauto].
  destruct (bool_decide (key = "ArrowLeft")).
  { destruct (move_wellFormed cl (-1) 0 st Hcl Hst) as (st1 & m & -> & H1). by eauto. }
  destruct (bool_decide (key = "ArrowRight")).
  { destruct (move_wellFormed cl 1 0 st Hcl Hst) as (st1 & m & -> & H1). by eauto. }
  destruct (bool_decide (key = "ArrowDown")).
  { destruct (drop_wellFormed cl draw st Hcl Hst) as (st1 & -> & H1). simpl.
    eexists. split; [done|]. by apply wellFormed_soft_drop. }
  destruct (bool_decide (key = "ArrowUp")); [by apply rotate_wellFormed|].
  destruct (bool_decide (key = " ")); [by apply hardDrop_wellFormed|].
  by eauto.
Qed.

Lemma handle_wellFormed (cl st : Session) (e : Event) :
  wellFormed cl → wellFormed st → ∃ st', handle cl e st = Ret st' ∧ wellFormed st'.
Proof.
  intros Hcl Hst. destruct e; simpl.
  - by apply handleKeyPress_wellFormed.
  - destruct (_ && _); [by apply drop_wellFormed|by eauto].
  - eexists. split; [done|]. apply wellFormed_startGame.
  - eexists. split; [done|]. by apply wellFormed_paused.
  - by apply rotate_wellFormed.
  - by apply drop_wellFormed.
  - destruct (move_wellFormed cl (-1) 0 st Hcl Hst) as (st1 & m & -> & H1). by eauto.
  - destruct (move_wellFormed cl 1 0 st Hcl Hst) as (st1 & m & -> & H1). by eauto.
  - by apply hardDrop_wellFormed.
  - eexists. split; [done|]. by apply wellFormed_paused.
Qed.

Lemma scheduled_wellFormed (cl st : Session) :
  scheduled cl st → wellFormed cl ∧ wellFormed st.
Proof.
  induction 1 as [cur next|cl st e st' _ [IHcl IHst] Hev|cl st _ [_ IHst]].
  - assert (Hinit : wellFormed (initialSession cur next)).
    { split; [split; [done|split; apply catalogue_orientation]|].
      split; [apply createEmptyBoard_ok|]. split; [apply createEmptyBoard_no_full|].
      split; [done|]. split; [done|]. split; [by exists 0|done]. }
    done.
  - split; [done|].
    destruct (handle_wellFormed cl st e IHcl IHst) as (st1 & Hst1 & Hwf).
    rewrite Hev in Hst1. by injection Hst1 as <-.
  - done.
Qed.

(** X5. The handlers of a render in which the session is paused, over, or
    not started leave the board, the pieces, the score, the lines, the
    level and the game-over and started flags of the pending state as they
    are, whatever the pending state is, for every event but the start of a
    new game; only the pause flag can change. *)
Theorem blocked_closure_inert (cl st : Session) (e : Event) :
  blocked cl = true →
  (∀ cur next, e ≠ ClickStart cur next) →
  ∃ st', handle cl e st = Ret st' ∧ sameCore st st' ∧ score st' = score st.
Proof.
  intros Hblocked Hstart.
  assert (Hmove : ∀ dx dy, move cl dx dy st = Ret (st, false))
    by (intros; unfold move; by rewrite Hblocked).
  assert (Hrot : rotate cl st = Ret st) by (unfold rotate; by rewrite Hblocked).
  assert (Hdrop : ∀ d, drop cl d st = Ret st)
    by (intros; unfold drop; by rewrite Hblocked).
  assert (Hhd : ∀ d, hardDrop cl d st = Ret st)
    by (intros; unfold hardDrop; by rewrite Hblocked).
  destruct e; simpl.
  - unfold handleKeyPress. destruct (gameOver cl || negb (gameStarted cl)) eqn:Hg.
    { exists st. split; [done|]. split; [apply sameCore_refl|done]. }
    assert (Hp : isPaused cl = true).
    { unfold blocked in Hblocked.
      destruct (gameOver cl), (gameStarted cl), (isPaused cl); done. }
    rewrite Hp. simpl.
    destruct (bool_decide (key = "p") || bool_decide (key = "P")); simpl;
      eexists; (split; [reflexivity|]); (split; [by repeat split|done]).
  - destruct (_ && _) eqn:Hg.
    + unfold blocked in Hblocked.
      destruct (gameOver cl), (gameStarted cl), (isPaused cl); done.
    + exists st. split; [done|]. split; [apply sameCore_refl|done].
  - by destruct (Hstart cur next).
  - eexists. split; [reflexivity|]. split; [by repeat split|done].
  - rewrite Hrot. exists st. split; [done|]. split; [apply sameCore_refl|done].
  - rewrite Hdrop. exists st. split; [done|]. split; [apply sameCore_refl|done].
  - rewrite Hmove. exists st. split; [done|]. split; [apply sameCore_refl|done].
  - rewrite Hmove. exists st. split; [done|]. split; [apply sameCore_refl|done].
  - rewrite Hhd. exists st. split; [done|]. split; [apply sameCore_refl|done].
  - eexists. split; [reflexivity|]. split; [by repeat split|done].
Qed.

(** X26. Under every schedule of the full variant, also when events are
    handled by the handlers of an earlier render, the pending state has a
    board of 20 rows whose cells are [null] or a colour string and of which
    no row is full, lines that are not negative, a level of at least 1, a
    score that is a non-negative number, and is not started when it is
    over; and every event returns a state: no handler throws or loops. *)
Theorem scheduled_never_fails (cl st : Session) (e : Event) :
  scheduled cl st →
  (length (board st) = 20%nat ∧
   (∀ r c, (r < 20)%nat → (c < 10)%nat →
      cellAt (board st) r c = null ∨ ∃ colour, cellAt (board st) r c = str colour) ∧
   (∀ row, row ∈ board st → ¬ rowFull row) ∧
   0 <= lines st ∧ 1 <= level st ∧ (∃ z, score st = Int z ∧ 0 <= z) ∧
   (gameOver st = true → gameStarted st = false)) ∧
  ∃ st', handle cl e st = Ret st' ∧ scheduled cl st'.
Proof.
  intros Hsched.
  destruct (scheduled_wellFormed cl st Hsched) as [Hcl Hst].
  pose proof Hst as (_ & (Hlen & Hrows) & Hnone & Hl & Hlv & Hscore & Hflags).
  split.
  - split; [done|]. split; [|done].
    intros r c Hr Hc.
    destruct (lookup_lt_is_Some_2 (board st) r) as [row Hrow]; [lia|].
    rewrite Forall_lookup in Hrows. destruct (Hrows r row Hrow) as [Hw Hcells].
    destruct (lookup_lt_is_Some_2 row c) as [cell Hcell]; [lia|].
    rewrite Forall_lookup in Hcells. specialize (Hcells c cell Hcell).
    unfold cellAt, index. rewrite Hrow, Hcell. exact Hcells.
  - destruct (handle_wellFormed cl st e Hcl Hst) as (st' & Hev & _).
    exists st'. split; [done|]. by apply (scheduled_event cl st e).
Qed.

Lemma landedSession_reachable : reachable landedSession.
Proof.
  apply (run_reachable startedSession _ (replicate 18 (Tick TetrominoType.J)));
    [exact startedSession_reachable|reflexivity].
Qed.

Lemma stackedSession_reachable : reachable stackedSession.
Proof.
  apply (run_reachable (initialSession TetrominoType.T TetrominoType.T) _
           (ClickStart TetrominoType.O TetrominoType.O
            :: replicate 9 (ClickHardDrop TetrominoType.O)));
    [constructor|reflexivity].
Qed.

(** X27. A key of the full variant that arrives after a tick that locked a
    piece and before the next render is handled on the closure of the old
    piece: the left key gives the newly spawned piece the position of the
    old one, moved one column.  The game is then running with a piece that
    collides where it stands, and the lock of that piece overwrites a
    locked cell. *)
Theorem stale_key_after_lock :
  ∃ st st' lockedBoard,
    scheduled landedSession st ∧
    handle landedSession (KeyDown "ArrowLeft" TetrominoType.J) st = Ret st' ∧
    scheduled st' st' ∧ blocked st' = false ∧
    Piece.pos (currentPiece st) = Pos.mk 3 0 ∧
    Piece.pos (currentPiece st') = Pos.mk 3 18 ∧
    checkCollision (Piece.pos (currentPiece st')) (Piece.shape (currentPiece st'))
      (board st') = Ret true ∧
    mergePiece (board st') (Piece.shape (currentPiece st')) (Piece.color (currentPiece st'))
      (Pos.x (Piece.pos (currentPiece st'))) (Pos.y (Piece.pos (currentPiece st')))
    = Ret lockedBoard ∧
    cellAt (board st') 19 4 = str "bg-yellow-400" ∧
    cellAt lockedBoard 19 4 = str "bg-cyan-400".
Proof.
  pose proof (reachable_scheduled _ landedSession_reachable) as H0.
  destruct (handle landedSession (Tick TetrominoType.J) landedSession)
    as [st1| |] eqn:E1; [|by vm_compute in E1..].
  pose proof (scheduled_event _ _ _ _ H0 E1) as H1.
  destruct (handle landedSession (KeyDown "ArrowLeft" TetrominoType.J) st1)
    as [st2| |] eqn:E2; [|vm_compute in E1; injection E1 as <-; by vm_compute in E2..].
  pose proof (scheduled_event _ _ _ _ H1 E2) as H2.
  exists st1, st2.
  vm_compute in E1. injection E1 as <-. vm_compute in E2. injection E2 as <-.
  eexists. split; [exact H1|]. split; [reflexivity|].
  split; [exact (scheduled_render _ _ H2)|]. split; [reflexivity|].
  split; [reflexivity|]. split; [reflexivity|]. split; [reflexivity|].
  split; [vm_compute; reflexivity|]. split; reflexivity.
Qed.

(** X30. A key of the full variant that arrives after the tick that ended
    the game and before the next render is handled by handlers that have
    not seen the game over: the left key then moves the piece of the
    finished game one column to the left. *)
Theorem stale_key_after_game_over :
  ∃ st st',
    scheduled stackedSession st ∧
    blocked stackedSession = false ∧ gameOver st = true ∧
    handle stackedSession (KeyDown "ArrowLeft" TetrominoType.O) st = Ret st' ∧
    scheduled stackedSession st' ∧ gameOver st' = true ∧
    Piece.pos (currentPiece st) = Pos.mk 4 0 ∧
    Piece.pos (currentPiece st') = Pos.mk 3 0.
Proof.
  pose proof (reachable_scheduled _ stackedSession_reachable) as H0.
  destruct (handle stackedSession (Tick TetrominoType.O) stackedSession)
    as [st1| |] eqn:E1; [|by vm_compute in E1..].
  pose proof (scheduled_event _ _ _ _ H0 E1) as H1.
  destruct (handle stackedSession (KeyDown "ArrowLeft" TetrominoType.O) st1)
    as [st2| |] eqn:E2; [|vm_compute in E1; injection E1 as <-; by vm_compute in E2..].
  pose proof (scheduled_event _ _ _ _ H1 E2) as H2.
  exists st1, st2.
  vm_compute in E1. injection E1 as <-. vm_compute in E2. injection E2 as <-.
  split; [exact H1|]. split; [reflexivity|]. split; [reflexivity|].
  split; [reflexivity|]. split; [exact H2|]. repeat split.
Qed.

Lemma blocked_closure_inert_witness :
  blocked finishedSession = true ∧
  ∃ st', handle finishedSession (ClickHardDrop TetrominoType.J) startedSession = Ret st' ∧
         sameCore startedSession st' ∧ score st' = score startedSession.
Proof.
  split; [reflexivity|].
  apply (blocked_closure_inert finishedSession startedSession
           (ClickHardDrop TetrominoType.J)); [reflexivity|].
  intros cur next Heq. discriminate Heq.
Defined.

Lemma scheduled_never_fails_witness :
  scheduled startedSession startedSession ∧
  ∃ st', handle startedSession ClickLeft startedSession = Ret st' ∧
         scheduled startedSession st'.
Proof.
  assert (Hsched : scheduled startedSession startedSession).
  { apply scheduled_render with (cl := initialSession TetrominoType.T TetrominoType.T).
    apply (scheduled_event (initialSession TetrominoType.T TetrominoType.T)
             (initialSession TetrominoType.T TetrominoType.T)
             (ClickStart TetrominoType.O TetrominoType.I));
      [constructor|reflexivity]. }
  split; [exact Hsched|].
  destruct (scheduled_never_fails startedSession startedSession ClickLeft Hsched)
    as [_ Hnext].
  exact Hnext.
Defined.

Lemma simple_game_over_frame_witness :
  Simple.gameOver simpleOverState = true ∧
  ∃ st', SimpleGame.handle simpleStackedState
           (SimpleGame.KeyDown SimpleGame.ArrowLeft 0 0) simpleOverState = Ret st' ∧
         Simple.board st' = Simple.board simpleOverState ∧
         Simple.score st' = Simple.score simpleOverState ∧
         Simple.gameOver st' = true.
Proof.
  split; [reflexivity|].
  destruct (simple_game_over_frame simpleStackedState simpleOverState
              (SimpleGame.KeyDown SimpleGame.ArrowLeft 0 0))
    as (st' & Hev & Hboard & Hscore & _ & _ & _ & _ & _ & Hover & _).
  - apply (SimpleGame.scheduled_event simpleStackedState simpleStackedState
             (SimpleGame.Tick 1 1));
      [exact (simple_reachable_scheduled _ simpleStackedState_reachable)
      |reflexivity|vm_compute; reflexivity].
  - reflexivity.
  - reflexivity.
  - intros iNext iCur Heq. discriminate Heq.
  - exists st'. split; [exact Hev|]. split; [exact Hboard|]. split; [exact Hscore|exact Hover].
Defined.

Lemma simple_scheduled_never_fails_witness :
  SimpleGame.enabled simpleFirstState (SimpleGame.Tick 2 3) = true ∧
  ∃ st', SimpleGame.handle simpleFirstState (SimpleGame.Tick 2 3) simpleFirstState
         = Ret st' ∧
         SimpleGame.scheduled simpleFirstState st' ∧ SimpleGame.consistent st'.
Proof.
  split; [reflexivity|].
  destruct (simple_scheduled_never_fails simpleFirstState simpleFirstState
              (SimpleGame.Tick 2 3)) as [_ Hnext].
  - apply (SimpleGame.scheduled_init 0 1); lia.
  - reflexivity.
  - exact Hnext.
Defined.
